(** * LangViz-studio: trace ingestion and graph reconstruction

    A shallow embedding of the route handlers of the Next.js backend
    (create graph, ingest snapshot, load graph, latest graph, list of
    graphs) over a model of the Prisma store declared in
    [prisma/schema.prisma], of what the graph page makes of their
    responses, and the properties of the ingestion / reconstruction model
    proved about them.

    Layout:
    - [JS]      JSON values as the handlers see them (truthiness, property
                reads, [Object.keys], [for ... of]);
    - [JSON]    [JSON.stringify] and [JSON.parse] on those values;
    - [Prisma]  the store: tables, [create], [deleteMany], [findMany];
    - the handlers, written statement by statement after the source;
    - [Page]    the graph page: polling, the nodes and edges it draws, the
                text it shows for a payload, and the drawer;
    - the properties. *)

From Stdlib Require Import ZArith NArith List String Ascii Bool Lia.
From Stdlib Require Import DecimalString DecimalN DecimalNat DecimalFacts.
From Stdlib Require Import Permutation Sorted.
Import ListNotations.

Set Warnings "-register-all".

Open Scope list_scope.
Open Scope string_scope.

(* ================================================================== *)
(** * JavaScript values *)
(* ================================================================== *)

Module JS.

(** A value that came out of [JSON.parse] (a request body, a stored
    payload) or that goes into [NextResponse.json].

    - A number is an integer ([VNum]), or, when it is written with a
      fraction or an exponent, the literal it is written as ([VDec]).
      JavaScript numbers are binary floats: the model is exact on the safe
      integers, and does not identify two literals of the same float, nor a
      literal such as [1e2] with the integer it denotes.
    - A string is its sequence of UTF-8 bytes.
    - The field list of an object is the list of its own properties in the
      order the engine enumerates them; its keys are pairwise distinct
      (see [wf]). *)
Inductive value : Type :=
| VNull
| VBool (b : bool)
| VNum (n : Z)
| VDec (literal : string)
| VStr (s : string)
| VArr (items : list value)
| VObj (fields : list (string * value)).

(** What an expression evaluates to: a value or [undefined]. *)
Definition jsval := option value.
Definition undefined : jsval := None.

(** Whether the mantissa of a number literal (the part before the
    exponent) has a digit other than 0. *)
Fixpoint mantissa_nonzero (literal : string) : bool :=
  match literal with
  | EmptyString => false
  | String c r =>
      if (Ascii.eqb c "e" || Ascii.eqb c "E")%bool then false
      else if ((49 <=? N_of_ascii c) && (N_of_ascii c <=? 57))%N then true
      else mantissa_nonzero r
  end.

(** ToBoolean. *)
Definition truthy (x : jsval) : bool :=
  match x with
  | None => false
  | Some VNull => false
  | Some (VBool b) => b
  | Some (VNum n) => negb (n =? 0)%Z
  | Some (VDec d) => mantissa_nonzero d
  | Some (VStr s) => negb (s =? "")
  | Some (VArr _) => true
  | Some (VObj _) => true
  end.

(** [x || d] where [d] is a value. *)
Definition or_else (x : jsval) (d : value) : value :=
  match x with
  | Some v => if truthy x then v else d
  | None => d
  end.

Definition empty_object : value := VObj [].

(** Association-list lookup of an own property. *)
Fixpoint assoc (k : string) (fs : list (string * value)) : jsval :=
  match fs with
  | [] => None
  | (k', v) :: fs' => if k' =? k then Some v else assoc k fs'
  end.

Definition string_of_index (i : nat) : string :=
  NilZero.string_of_uint (Nat.to_uint i).

Fixpoint indexed {A} (i : nat) (l : list A) : list (string * A) :=
  match l with
  | [] => []
  | x :: l' => (string_of_index i, x) :: indexed (S i) l'
  end.

Definition chars (s : string) : list value :=
  map (fun c => VStr (String c "")) (list_ascii_of_string s).

(** The own enumerable string-keyed properties of a value, in
    [Object.keys] order: the fields of an object, the indices of an array,
    the indices of a string; a number or a boolean has none. *)
Definition own_entries (v : value) : list (string * value) :=
  match v with
  | VObj fs => fs
  | VArr l => indexed 0 l
  | VStr s => indexed 0 (chars s)
  | _ => []
  end.

(** [Object.keys(v)] for [v] other than [null] and [undefined]. *)
Definition Object_keys (v : value) : list string := map fst (own_entries v).

(** The outcome of a property read [v.k] / [v[k]]: [None] is the
    TypeError thrown on [null]; otherwise the own property, or [undefined].
    The handlers only read keys that are either taken from [Object.keys] or
    are none of the names the prototypes of objects, arrays and strings
    define, so inherited properties do not arise. *)
Definition get_prop (v : value) (k : string) : option jsval :=
  match v with
  | VNull => None
  | _ => Some (assoc k (own_entries v))
  end.

(** The sequence [for (const x of v)] runs over; [None] is the TypeError
    thrown when [v] is not iterable.  A string iterates by character (a
    character of several bytes is split further here; every element is a
    string either way). *)
Definition iterate (x : jsval) : option (list value) :=
  match x with
  | Some (VArr l) => Some l
  | Some (VStr s) => Some (chars s)
  | _ => None
  end.

(** The property names every plain object inherits from
    [Object.prototype]: a read of one of them on an object that has no own
    property of that name yields a function (or, for [__proto__], the
    prototype object), which is truthy and has no [push]. *)
Definition Object_prototype_keys : list string :=
  [ "constructor"; "__defineGetter__"; "__defineSetter__"; "hasOwnProperty";
    "__lookupGetter__"; "__lookupSetter__"; "isPrototypeOf";
    "propertyIsEnumerable"; "toString"; "valueOf"; "__proto__";
    "toLocaleString" ].

Definition inherited (k : string) : bool :=
  existsb (String.eqb k) Object_prototype_keys.

(** Number of constructors of a value. *)
Fixpoint size (v : value) : nat :=
  match v with
  | VArr l => S (fold_right (fun x n => size x + n) 0 l)
  | VObj fs => S (fold_right (fun kx n => size (snd kx) + n) 0 fs)
  | _ => 1
  end.

End JS.
Export JS.

(* ================================================================== *)
(** * JSON text *)
(* ================================================================== *)

Module JSON.

Definition dquote : ascii := "034"%char.
Definition bslash : ascii := "092"%char.

Definition code (c : ascii) : N := N_of_ascii c.

Definition hex_digit (n : N) : ascii :=
  if (n <? 10)%N then ascii_of_N (48 + n) else ascii_of_N (87 + n).

(** ** Serialization *)

(** QuoteJSONString on one character. *)
Definition escape_char (c : ascii) : string :=
  let n := code c in
  if (n =? 34)%N then String bslash (String dquote "")
  else if (n =? 92)%N then String bslash (String bslash "")
  else if (n =? 8)%N then String bslash "b"
  else if (n =? 9)%N then String bslash "t"
  else if (n =? 10)%N then String bslash "n"
  else if (n =? 12)%N then String bslash "f"
  else if (n =? 13)%N then String bslash "r"
  else if (n <? 32)%N then
    String bslash (String "u" (String "0" (String "0"
      (String (hex_digit (n / 16)) (String (hex_digit (n mod 16)) "")))))
  else String c "".

Fixpoint escape (s : string) : string :=
  match s with
  | EmptyString => ""
  | String c s' => escape_char c ++ escape s'
  end.

Definition quote (s : string) : string :=
  String dquote (escape s ++ String dquote "").

Definition string_of_N (n : N) : string := NilZero.string_of_uint (N.to_uint n).

Definition string_of_Z (z : Z) : string :=
  if (z <? 0)%Z then String "-" (string_of_N (Z.abs_N z)) else string_of_N (Z.abs_N z).

Fixpoint join (l : list string) : string :=
  match l with
  | [] => ""
  | [x] => x
  | x :: l' => x ++ String "," (join l')
  end.

(** [JSON.stringify(v)], without indentation. *)
Fixpoint stringify (v : value) : string :=
  match v with
  | VNull => "null"
  | VBool true => "true"
  | VBool false => "false"
  | VNum n => string_of_Z n
  | VDec d => d
  | VStr s => quote s
  | VArr l => String "[" (join (map stringify l) ++ "]")
  | VObj fs =>
      String "{" (join (map (fun kv => quote (fst kv) ++ String ":" (stringify (snd kv))) fs) ++ "}")
  end.

(** ** Parsing *)

Definition is_ws (c : ascii) : bool :=
  let n := code c in
  ((n =? 32) || (n =? 9) || (n =? 10) || (n =? 13))%N.

Fixpoint skip_ws (s : string) : string :=
  match s with
  | String c r => if is_ws c then skip_ws r else s
  | EmptyString => s
  end.

Fixpoint strip_prefix (p s : string) : option string :=
  match p with
  | EmptyString => Some s
  | String a p' =>
      match s with
      | String b s' => if Ascii.eqb a b then strip_prefix p' s' else None
      | EmptyString => None
      end
  end.

Definition is_digit (c : ascii) : bool :=
  let n := code c in ((48 <=? n) && (n <=? 57))%N.

Fixpoint span_digits (s : string) : string * string :=
  match s with
  | String c r =>
      if is_digit c then let (d, r') := span_digits r in (String c d, r')
      else ("", s)
  | EmptyString => ("", "")
  end.

(** The fraction of a number literal, if there is one: a point and a
    non-empty run of digits; [None] is a point that no digit follows. *)
Definition scan_fraction (s : string) : option (string * string) :=
  match s with
  | String c r =>
      if Ascii.eqb c "." then
        let (ds, r') := span_digits r in
        match ds with
        | EmptyString => None
        | String _ _ => Some (String c ds, r')
        end
      else Some ("", s)
  | EmptyString => Some ("", s)
  end.

(** The exponent of a number literal, if there is one: [e] or [E], an
    optional sign and a non-empty run of digits. *)
Definition scan_exponent (s : string) : option (string * string) :=
  match s with
  | String c r =>
      if (Ascii.eqb c "e" || Ascii.eqb c "E")%bool then
        match r with
        | String g r' =>
            if (Ascii.eqb g "+" || Ascii.eqb g "-")%bool then
              let (ds, r'') := span_digits r' in
              match ds with
              | EmptyString => None
              | String _ _ => Some (String c (String g ds), r'')
              end
            else
              let (ds, r'') := span_digits r in
              match ds with
              | EmptyString => None
              | String _ _ => Some (String c ds, r'')
              end
        | EmptyString => None
        end
      else Some ("", s)
  | EmptyString => Some ("", s)
  end.

(** A number literal without its sign: a non-empty run of digits with no
    leading zero, then an optional fraction and an optional exponent.  With
    neither it is the integer [sign * digits]; otherwise it is kept as the
    literal [minus ++ digits ++ fraction ++ exponent]. *)
Definition parse_unsigned (minus : string) (sign : Z) (s : string)
  : option (value * string) :=
  let (ds, r) := span_digits s in
  match NilZero.uint_of_string ds with
  | Some d =>
      if Decimal.uint_beq (Decimal.unorm d) d then
        match scan_fraction r with
        | Some (fr, r1) =>
            match scan_exponent r1 with
            | Some (ex, r2) =>
                match fr ++ ex with
                | EmptyString => Some (VNum (sign * Z.of_N (N.of_uint d)), r2)
                | String _ _ => Some (VDec (minus ++ ds ++ fr ++ ex), r2)
                end
            | None => None
            end
        | None => None
        end
      else None
  | None => None
  end.

Definition parse_number (s : string) : option (value * string) :=
  match s with
  | String c r =>
      if Ascii.eqb c "-" then parse_unsigned "-" (-1) r
      else parse_unsigned "" 1 s
  | EmptyString => None
  end.

(** What a string literal is made of: a character given as is (or by a
    one-letter escape), or a [\uXXXX] code unit. *)
Inductive item : Type :=
| Byte (c : ascii)
| Unit16 (u : N).

Definition hex_val (c : ascii) : option N :=
  let n := code c in
  if ((48 <=? n) && (n <=? 57))%N then Some (n - 48)%N
  else if ((97 <=? n) && (n <=? 102))%N then Some (n - 87)%N
  else if ((65 <=? n) && (n <=? 70))%N then Some (n - 55)%N
  else None.

Definition hex4 (a b c d : ascii) : option N :=
  match hex_val a, hex_val b, hex_val c, hex_val d with
  | Some x, Some y, Some z, Some w => Some (((x * 16 + y) * 16 + z) * 16 + w)%N
  | _, _, _, _ => None
  end.

Definition unescape (e : ascii) : option ascii :=
  let n := code e in
  if (n =? 34)%N then Some dquote
  else if (n =? 92)%N then Some bslash
  else if (n =? 47)%N then Some "/"%char
  else if (n =? 98)%N then Some (ascii_of_N 8)
  else if (n =? 116)%N then Some (ascii_of_N 9)
  else if (n =? 110)%N then Some (ascii_of_N 10)
  else if (n =? 102)%N then Some (ascii_of_N 12)
  else if (n =? 114)%N then Some (ascii_of_N 13)
  else None.

Definition cons_item (i : item) (r : option (list item * string)) :=
  match r with
  | Some (l, r') => Some (i :: l, r')
  | None => None
  end.

(** The body of a string literal, after the opening quote, up to and
    including the closing quote. *)
Fixpoint parse_chars (s : string) : option (list item * string) :=
  match s with
  | EmptyString => None
  | String c r =>
      if Ascii.eqb c dquote then Some ([], r)
      else if Ascii.eqb c bslash then
        match r with
        | String e r1 =>
            if Ascii.eqb e "u" then
              match r1 with
              | String h1 (String h2 (String h3 (String h4 r2))) =>
                  match hex4 h1 h2 h3 h4 with
                  | Some u => cons_item (Unit16 u) (parse_chars r2)
                  | None => None
                  end
              | _ => None
              end
            else
              match unescape e with
              | Some c' => cons_item (Byte c') (parse_chars r1)
              | None => None
              end
        | EmptyString => None
        end
      else if (code c <? 32)%N then None
      else cons_item (Byte c) (parse_chars r)
  end.

Definition byte (n : N) : ascii := ascii_of_N n.

(** UTF-8 encoding of a code point. *)
Definition utf8 (cp : N) : string :=
  if (cp <? 128)%N then String (byte cp) ""
  else if (cp <? 2048)%N then
    String (byte (192 + cp / 64)) (String (byte (128 + cp mod 64)) "")
  else if (cp <? 65536)%N then
    String (byte (224 + cp / 4096))
      (String (byte (128 + (cp / 64) mod 64)) (String (byte (128 + cp mod 64)) ""))
  else
    String (byte (240 + cp / 262144))
      (String (byte (128 + (cp / 4096) mod 64))
         (String (byte (128 + (cp / 64) mod 64)) (String (byte (128 + cp mod 64)) ""))).

Definition is_high (u : N) : bool := ((55296 <=? u) && (u <? 56320))%N.
Definition is_low (u : N) : bool := ((56320 <=? u) && (u <? 57344))%N.

(** The string a literal denotes; a surrogate pair is one code point. *)
Fixpoint decode_items (l : list item) : string :=
  match l with
  | [] => ""
  | Byte c :: l' => String c (decode_items l')
  | Unit16 u :: l' =>
      match l' with
      | Unit16 u2 :: l'' =>
          if is_high u && is_low u2
          then utf8 (65536 + (u - 55296) * 1024 + (u2 - 56320)) ++ decode_items l''
          else utf8 u ++ decode_items l'
      | _ => utf8 u ++ decode_items l'
      end
  end.

(** Defining a property on an object under construction: a key seen
    again keeps its place and takes the later value.  (Keys that are array
    indices stay where the text has them; the engine would enumerate them
    first.  The handlers never enumerate a parsed payload.) *)
Fixpoint obj_set (k : string) (v : value) (fs : list (string * value))
  : list (string * value) :=
  match fs with
  | [] => [(k, v)]
  | (k', v') :: fs' =>
      if k' =? k then (k, v) :: fs' else (k', v') :: obj_set k v fs'
  end.

Definition build_object (members : list (string * value)) : value :=
  VObj (fold_left (fun acc kv => obj_set (fst kv) (snd kv) acc) members []).

Section Loops.
Variable pv : string -> option (value * string).

(** Elements of a non-empty array, after the opening bracket. *)
Fixpoint parse_elements (n : nat) (s : string) : option (list value * string) :=
  match n with
  | O => None
  | S n' =>
      match pv s with
      | Some (v, r) =>
          match skip_ws r with
          | String c r' =>
              if Ascii.eqb c "," then
                match parse_elements n' r' with
                | Some (vs, r'') => Some (v :: vs, r'')
                | None => None
                end
              else if Ascii.eqb c "]" then Some ([v], r')
              else None
          | EmptyString => None
          end
      | None => None
      end
  end.

(** Members of a non-empty object, after the opening brace. *)
Fixpoint parse_members (n : nat) (s : string)
  : option (list (string * value) * string) :=
  match n with
  | O => None
  | S n' =>
      match skip_ws s with
      | String q r =>
          if Ascii.eqb q dquote then
            match parse_chars r with
            | Some (l, r1) =>
                match skip_ws r1 with
                | String c1 r2 =>
                    if Ascii.eqb c1 ":" then
                      match pv r2 with
                      | Some (v, r3) =>
                          match skip_ws r3 with
                          | String c3 r4 =>
                              if Ascii.eqb c3 "," then
                                match parse_members n' r4 with
                                | Some (ms, r5) => Some ((decode_items l, v) :: ms, r5)
                                | None => None
                                end
                              else if Ascii.eqb c3 "}" then Some ([(decode_items l, v)], r4)
                              else None
                          | EmptyString => None
                          end
                      | None => None
                      end
                    else None
                | EmptyString => None
                end
            | None => None
            end
          else None
      | EmptyString => None
      end
  end.
End Loops.

(** One JSON value at the head of [s], and the rest of the text.  Every
    recursive call is on a strictly shorter text, so [fuel] above the
    length of the text is never used up ([parse_fuel_adequate]). *)
Fixpoint parse_value (fuel : nat) (s : string) : option (value * string) :=
  match fuel with
  | O => None
  | S fuel' =>
      match skip_ws s with
      | EmptyString => None
      | String c r =>
          if Ascii.eqb c "[" then
            match skip_ws r with
            | String c' r' =>
                if Ascii.eqb c' "]" then Some (VArr [], r')
                else match parse_elements (parse_value fuel') fuel' r with
                     | Some (vs, r'') => Some (VArr vs, r'')
                     | None => None
                     end
            | EmptyString => None
            end
          else if Ascii.eqb c "{" then
            match skip_ws r with
            | String c' r' =>
                if Ascii.eqb c' "}" then Some (VObj [], r')
                else match parse_members (parse_value fuel') fuel' r with
                     | Some (ms, r'') => Some (build_object ms, r'')
                     | None => None
                     end
            | EmptyString => None
            end
          else if Ascii.eqb c dquote then
            match parse_chars r with
            | Some (l, r') => Some (VStr (decode_items l), r')
            | None => None
            end
          else if Ascii.eqb c "n" then
            match strip_prefix "ull" r with
            | Some r' => Some (VNull, r')
            | None => None
            end
          else if Ascii.eqb c "t" then
            match strip_prefix "rue" r with
            | Some r' => Some (VBool true, r')
            | None => None
            end
          else if Ascii.eqb c "f" then
            match strip_prefix "alse" r with
            | Some r' => Some (VBool false, r')
            | None => None
            end
          else parse_number (String c r)
      end
  end.

(** [JSON.parse(s)]; [None] is the SyntaxError it throws. *)
Definition parse (s : string) : option value :=
  match parse_value (S (String.length s)) s with
  | Some (v, r) =>
      match skip_ws r with
      | EmptyString => Some v
      | String _ _ => None
      end
  | None => None
  end.

End JSON.

(** Representation invariant: in every object the keys are distinct, and
    a number kept as a literal is a literal the parser reads as itself. *)
Fixpoint wf (v : value) : Prop :=
  match v with
  | VDec d => JSON.parse_number d = Some (VDec d, "")
  | VArr l => (fix all (l : list value) : Prop :=
                 match l with [] => True | x :: l' => wf x /\ all l' end) l
  | VObj fs => NoDup (map fst fs) /\
               (fix all (fs : list (string * value)) : Prop :=
                  match fs with [] => True | (_, x) :: fs' => wf x /\ all fs' end) fs
  | _ => True
  end.

(* ================================================================== *)
(** * The store *)
(* ================================================================== *)

Module Prisma.

(** The handlers reach the store through the Prisma client; what its
    calls do is fixed by [schema.prisma]: the columns and their types, which
    of them are nullable, the defaults, the primary keys and the relation of
    Step and Edge rows to their Graph.  The model keeps to that level:
    - a table is the list of its rows in primary-key order, and a
      [findMany] without [orderBy] returns the matching rows in that order
      (the store promises no order; this is the order in which the rows
      were inserted);
    - identifiers are compared by equality, and the strings of a filter
      character by character (the collation of the store is not
      modelled);
    - an argument is checked against the type of its column: a [String]
      takes strings only, an [Int] takes a number, cut to its integer part,
      in the 32-bit range; the capacity of a text column is not
      modelled. *)

(** The three models of [schema.prisma].  [Int] is a 32-bit signed
    integer; [String?] and [Int?] are nullable columns ([None] is NULL). *)
Record Graph : Type := mkGraph {
  graph_id : string;
  graph_name : string;
  createdAt : Z
}.

Record Step : Type := mkStep {
  step_id : Z;
  step_graphId : string;
  nodeName : string;
  stepIndex : Z;
  inputJson : string;
  outputJson : string
}.

Record Edge : Type := mkEdge {
  edge_id : Z;
  edge_graphId : string;
  sourceNode : string;
  targetNode : string;
  conditionKey : option string;
  usedCount : option Z
}.

(** The tables, each in primary-key order (the order [findMany] without
    [orderBy] reads them in), and the two auto-increment counters. *)
Record Store : Type := mkStore {
  graphs : list Graph;
  steps : list Step;
  edges : list Edge;
  next_step_id : Z;
  next_edge_id : Z
}.

Inductive error : Type :=
| TypeError
| SyntaxError
| Error (message : string)
| PrismaValidationError
| UniqueConstraintViolation
| ForeignKeyViolation.

Inductive outcome (A : Type) : Type :=
| Return (a : A)
| Throw (e : error).
Arguments Return {A} a.
Arguments Throw {A} e.

(** An [async] computation against the store: every [await] either
    yields a value or throws, and leaves the store as it made it (there is
    no transaction in the handlers). *)
Definition M (A : Type) : Type := Store -> Store * outcome A.

Definition ret {A} (a : A) : M A := fun st => (st, Return a).
Definition throw {A} (e : error) : M A := fun st => (st, Throw e).
Definition bind {A B} (m : M A) (k : A -> M B) : M B :=
  fun st =>
    match m st with
    | (st', Return a) => k a st'
    | (st', Throw e) => (st', Throw e)
    end.

Definition lift {A} (e : error) (x : option A) : M A :=
  match x with
  | Some a => ret a
  | None => throw e
  end.

(** [for (const x of l) { await body(x) }] *)
Fixpoint for_of {A} (l : list A) (body : A -> M unit) : M unit :=
  match l with
  | [] => ret tt
  | x :: l' => bind (body x) (fun _ => for_of l' body)
  end.

(** ** Argument validation *)

Definition int32 (n : Z) : bool :=
  ((-2147483648 <=? n) && (n <=? 2147483647))%Z.

(** A required [String] argument. *)
Definition as_String (x : jsval) : option string :=
  match x with
  | Some (VStr s) => Some s
  | _ => None
  end.

(** *** Numbers

    A number of a request reaches the store as a JavaScript number: the
    double nearest to its literal.  An [Int] column takes its integer part
    (1.5 is stored as 1, -1.5 as -1, 1.0 and 1e0 as 1), provided that it is
    in the 32-bit range. *)

Definition digits (ds : string) : Z :=
  match NilZero.uint_of_string ds with
  | Some d => Z.of_N (N.of_uint d)
  | None => 0%Z
  end.

(** A number literal cut into its sign, the digits before and after the
    point, and the exponent. *)
Definition literal_parts (d : string) : bool * string * string * Z :=
  let (neg, s) := match d with
                  | String "-" r => (true, r)
                  | _ => (false, d)
                  end in
  let (int, r) := JSON.span_digits s in
  let (fr, r1) := match r with
                  | String "." r' => JSON.span_digits r'
                  | _ => ("", r)
                  end in
  let ex := match r1 with
            | String _ (String "-" ds) => (- digits ds)%Z
            | String _ (String "+" ds) => digits ds
            | String _ ds => digits ds
            | EmptyString => 0%Z
            end in
  (neg, int, fr, ex).

(** The sign of a literal and its magnitude as a fraction [p / q]. *)
Definition rational (d : string) : bool * Z * Z :=
  let '(neg, int, fr, ex) := literal_parts d in
  let m := digits (int ++ fr) in
  let e := (ex - Z.of_nat (String.length fr))%Z in
  if (0 <=? e)%Z then (neg, m * 10 ^ e, 1)%Z else (neg, m, 10 ^ (- e))%Z.

(** [p / q] lies strictly between the integers [t] and [t + 1], and
    [t + 1 < 2 ^ 52]: whether the nearest double is [t + 1].  The doubles
    just below [t + 1] are [2 ^ (- k)] apart, and [t + 1] is the even one
    of its neighbours, so that [p / q] is rounded up to it exactly if it
    is no further from it than half that distance. *)
Definition rounds_up (t p q : Z) : bool :=
  let j := Z.log2 (t + 1) in
  let k := (if t + 1 =? 2 ^ j then 53 - j else 52 - j)%Z in
  (2 ^ (k + 1) * ((t + 1) * q - p) <=? q)%Z.

(** The integer part of the double nearest to [p / q], for [0 <= p] and
    [0 < q].  From [2 ^ 32] on the quotient is returned as it is: however
    it is rounded, the number is beyond the 32-bit range. *)
Definition integer_part (p q : Z) : Z :=
  let t := (p / q)%Z in
  if ((p mod q =? 0) || (2 ^ 32 <=? t))%Z then t
  else if rounds_up t p q then (t + 1)%Z else t.

(** The integer an [Int] column takes for a value, if it takes it. *)
Definition Int_value (v : value) : option Z :=
  match v with
  | VNum n => if int32 n then Some n else None
  | VDec d =>
      let '(neg, p, q) := rational d in
      let n := if neg then (- integer_part p q)%Z else integer_part p q in
      if int32 n then Some n else None
  | _ => None
  end.

(** A number beyond the doubles is [Infinity] to the handler, which the
    client sends to the store as [null]: [p / q] is one from the midpoint
    of the largest double and [2 ^ 1024] on. *)
Definition overflows (v : value) : bool :=
  match v with
  | VNum n => (2 ^ 1024 - 2 ^ 970 <=? Z.abs n)%Z
  | VDec d => let '(_, p, q) := rational d in ((2 ^ 1024 - 2 ^ 970) * q <=? p)%Z
  | _ => false
  end.

(** A required [Int] argument.  [Infinity] arrives as [null], which a
    required column refuses, as it refuses any number beyond the 32-bit
    range. *)
Definition as_Int (x : jsval) : option Z :=
  match x with
  | Some v => Int_value v
  | None => None
  end.

(** An optional [String?] argument: [undefined] leaves the column unset
    (NULL), [null] sets it to NULL. *)
Definition as_String_opt (x : jsval) : option (option string) :=
  match x with
  | None => Some None
  | Some VNull => Some None
  | Some (VStr s) => Some (Some s)
  | _ => None
  end.

(** An optional [Int?] argument with [@default(d)]: [undefined] leaves
    the column to its default, [null] sets it to NULL, and so does
    [Infinity], which arrives as [null]. *)
Definition as_Int_opt (d : Z) (x : jsval) : option (option Z) :=
  match x with
  | None => Some (Some d)
  | Some VNull => Some None
  | Some v =>
      if overflows v then Some None
      else match Int_value v with
           | Some n => Some (Some n)
           | None => None
           end
  end.

Definition graph_exists (g : string) (st : Store) : bool :=
  existsb (fun r => graph_id r =? g) (graphs st).

(** ** Queries *)

(** [prisma.graph.create({ data: { id, name } })].  [id] has
    [@default(uuid())] and [createdAt] has [@default(now())]: [fresh] and
    [now] are the values these defaults yield for this call. *)
Definition graph_create (fresh : string) (now : Z) (id name : jsval) : M Graph :=
  fun st =>
    match (match id with
           | None => Some fresh
           | _ => as_String id
           end), as_String name with
    | Some i, Some n =>
        if graph_exists i st then (st, Throw UniqueConstraintViolation)
        else
          let row := mkGraph i n now in
          (mkStore (graphs st ++ [row]) (steps st) (edges st)
                   (next_step_id st) (next_edge_id st), Return row)
    | _, _ => (st, Throw PrismaValidationError)
    end.

(** [prisma.step.create({ data: { graphId, nodeName, stepIndex,
    inputJson, outputJson } })] *)
Definition step_create (graphId nodeName stepIndex inputJson outputJson : jsval)
  : M Step :=
  fun st =>
    match as_String graphId, as_String nodeName, as_Int stepIndex,
          as_String inputJson, as_String outputJson with
    | Some g, Some n, Some i, Some a, Some b =>
        if graph_exists g st then
          let row := mkStep (next_step_id st) g n i a b in
          (mkStore (graphs st) (steps st ++ [row]) (edges st)
                   (next_step_id st + 1) (next_edge_id st), Return row)
        else (st, Throw ForeignKeyViolation)
    | _, _, _, _, _ => (st, Throw PrismaValidationError)
    end.

(** [prisma.edge.create({ data: { graphId, sourceNode, targetNode,
    conditionKey, usedCount } })] *)
Definition edge_create (graphId sourceNode targetNode conditionKey usedCount : jsval)
  : M Edge :=
  fun st =>
    match as_String graphId, as_String sourceNode, as_String targetNode,
          as_String_opt conditionKey, as_Int_opt 0 usedCount with
    | Some g, Some s, Some t, Some c, Some u =>
        if graph_exists g st then
          let row := mkEdge (next_edge_id st) g s t c u in
          (mkStore (graphs st) (steps st) (edges st ++ [row])
                   (next_step_id st) (next_edge_id st + 1), Return row)
        else (st, Throw ForeignKeyViolation)
    | _, _, _, _, _ => (st, Throw PrismaValidationError)
    end.

Definition other_graph {R} (graphId : R -> string) (g : string) (r : R) : bool :=
  negb (graphId r =? g).

(** *** The [where] of a [deleteMany]

    [where: { graphId }] takes a string, the rows of that graph, or a
    filter object on the column: [{}] selects every row,
    [{ in: [..] }] the rows of the graphs listed, and so on.  A
    filter is the conjunction of its operators; an operator the column
    does not have, or one with an argument of another type, is refused by
    the argument validation, and so is a number, a boolean or an array in
    the place of the filter. *)

Definition all_strings (v : value) : option (list string) :=
  match v with
  | VArr items =>
      fold_right (fun x acc => match x, acc with
                               | VStr s, Some l => Some (s :: l)
                               | _, _ => None
                               end) (Some []) items
  | _ => None
  end.

Definition one_of (l : list string) (s : string) : bool :=
  existsb (String.eqb s) l.

Definition contains (sub s : string) : bool :=
  match String.index 0 sub s with
  | Some _ => true
  | None => false
  end.

Definition ends_with (suffix s : string) : bool :=
  let n := String.length s - String.length suffix in
  (String.length suffix <=? String.length s)%nat
  && (String.substring n (String.length suffix) s =? suffix).

(** An operator of a string filter whose argument is a string or a list
    of strings.  The argument of [contains], [startsWith] and [endsWith]
    is taken as the text to find (what the store makes of pattern
    characters in it is not modelled). *)
Definition string_operator (k : string) (x : value) : option (string -> bool) :=
  if k =? "equals" then option_map (fun a s => s =? a) (as_String (Some x))
  else if k =? "in" then option_map one_of (all_strings x)
  else if k =? "notIn" then option_map (fun l s => negb (one_of l s)) (all_strings x)
  else if k =? "lt" then option_map (fun a s => String.ltb s a) (as_String (Some x))
  else if k =? "lte" then option_map (fun a s => String.leb s a) (as_String (Some x))
  else if k =? "gt" then option_map (fun a s => String.ltb a s) (as_String (Some x))
  else if k =? "gte" then option_map (fun a s => String.leb a s) (as_String (Some x))
  else if k =? "contains" then option_map contains (as_String (Some x))
  else if k =? "startsWith" then option_map String.prefix (as_String (Some x))
  else if k =? "endsWith" then option_map ends_with (as_String (Some x))
  else None.

(** The rows a filter object selects, by the value of the column; [not]
    takes a string or a filter again. *)
Fixpoint string_filter (v : value) : option (string -> bool) :=
  match v with
  | VObj fs =>
      (fix all (fs : list (string * value)) : option (string -> bool) :=
         match fs with
         | [] => Some (fun _ => true)
         | (k, x) :: fs' =>
             match (if k =? "not"
                    then match x with
                         | VStr a => Some (fun s => negb (s =? a))
                         | _ => option_map (fun p s => negb (p s)) (string_filter x)
                         end
                    else string_operator k x), all fs' with
             | Some p, Some q => Some (fun s => p s && q s)
             | _, _ => None
             end
         end) fs
  | _ => None
  end.

(** The rows that stay when those a filter selects are deleted. *)
Definition unselected {R} (graphId : R -> string) (p : string -> bool) (r : R) : bool :=
  negb (p (graphId r)).

(** [prisma.step.deleteMany({ where: { graphId } })] for a [graphId]
    that is not [undefined]: a string, or a filter object. *)
Definition step_deleteMany (graphId : value) : M unit :=
  fun st =>
    match graphId with
    | VStr g =>
        (mkStore (graphs st) (filter (other_graph step_graphId g) (steps st)) (edges st)
                 (next_step_id st) (next_edge_id st), Return tt)
    | _ =>
        match string_filter graphId with
        | Some p =>
            (mkStore (graphs st) (filter (unselected step_graphId p) (steps st)) (edges st)
                     (next_step_id st) (next_edge_id st), Return tt)
        | None => (st, Throw PrismaValidationError)
        end
    end.

(** [prisma.edge.deleteMany({ where: { graphId } })] *)
Definition edge_deleteMany (graphId : value) : M unit :=
  fun st =>
    match graphId with
    | VStr g =>
        (mkStore (graphs st) (steps st) (filter (other_graph edge_graphId g) (edges st))
                 (next_step_id st) (next_edge_id st), Return tt)
    | _ =>
        match string_filter graphId with
        | Some p =>
            (mkStore (graphs st) (steps st) (filter (unselected edge_graphId p) (edges st))
                     (next_step_id st) (next_edge_id st), Return tt)
        | None => (st, Throw PrismaValidationError)
        end
    end.

(** [prisma.step.findMany({ where: { graphId } })] *)
Definition step_findMany (g : string) : M (list Step) :=
  fun st => (st, Return (filter (fun r => step_graphId r =? g) (steps st))).

(** [prisma.edge.findMany({ where: { graphId } })] *)
Definition edge_findMany (g : string) : M (list Edge) :=
  fun st => (st, Return (filter (fun r => edge_graphId r =? g) (edges st))).

End Prisma.
Export Prisma.

Declare Scope js_scope.
Delimit Scope js_scope with js.
Notation "x <- m ;; k" := (bind m (fun x => k))
  (at level 61, m at next level, right associativity) : js_scope.
Notation "m ;; k" := (bind m (fun _ => k))
  (at level 61, right associativity) : js_scope.

(* ================================================================== *)
(** * The route handlers *)
(* ================================================================== *)

(** [NextResponse.json(body, { status })]: the status and the value the
    client reads back from the response text (a property whose value is
    [undefined] is not serialized, so it is not in [body]). *)
Record Response : Type := mkResponse {
  status : Z;
  body : value
}.

Definition json (b : value) : Response := mkResponse 200 b.
Definition json_status (b : value) (s : Z) : Response := mkResponse s b.

Definition error_body (message : string) : value := VObj [("error", VStr message)].

(** [v.k] inside a handler. *)
Definition prop (v : value) (k : string) : M jsval := lift TypeError (get_prop v k).

(** A handler is [try { ... } catch (err) { return on_error }]. *)
Definition try_catch (m : M Response) (on_error : Response) (st : Store)
  : Store * Response :=
  match m st with
  | (st', Return r) => (st', r)
  | (st', Throw _) => (st', on_error)
  end.

Local Open Scope js_scope.

(** ** POST /api/graph/start *)

Definition start_try (fresh : string) (now : Z) (req : value) : M Response :=
  graphId <- prop req "graphId" ;;
  name0 <- prop req "name" ;;
  let name := or_else name0 (VStr "Untitled") in
  newGraph <- graph_create fresh now graphId (Some name) ;;
  ret (json (VObj [("graphId", VStr (graph_id newGraph))])).

Definition POST_start (fresh : string) (now : Z) (req : value) (st : Store)
  : Store * Response :=
  try_catch (start_try fresh now req)
            (json_status (error_body "Failed to create graph") 500) st.

(** ** POST /api/graph/ingest *)

(** The body of the inner loop: one [prisma.step.create]. *)
Definition ingest_call (graphId : value) (nodeName : string) (call : value) : M unit :=
  stepIndex <- prop call "stepIndex" ;;
  input <- prop call "input" ;;
  output <- prop call "output" ;;
  step_create (Some graphId) (Some (VStr nodeName)) stepIndex
              (Some (VStr (JSON.stringify (or_else input empty_object))))
              (Some (VStr (JSON.stringify (or_else output empty_object)))) ;;
  ret tt.

(** The body of the outer loop over [Object.keys(nodesObj)]. *)
Definition ingest_node (graphId nodesObj : value) (nodeName : string) : M unit :=
  calls <- prop nodesObj nodeName ;;
  cs <- lift TypeError (iterate calls) ;;
  for_of cs (ingest_call graphId nodeName).

(** The body of the loop over [edgesArr]: one [prisma.edge.create]. *)
Definition ingest_edge (graphId : value) (ed : value) : M unit :=
  source <- prop ed "source" ;;
  target <- prop ed "target" ;;
  ck <- prop ed "conditionKey" ;;
  used_count <- prop ed "used_count" ;;
  edge_create (Some graphId) source target ck (Some (or_else used_count (VNum 0))) ;;
  ret tt.

Definition ingest_try (req : value) : M Response :=
  graphId <- prop req "graphId" ;;
  match graphId with
  | Some g =>
      if negb (truthy graphId) then throw (Error "graphId is missing!")
      else
        step_deleteMany g ;;
        edge_deleteMany g ;;
        nodes <- prop req "nodes" ;;
        let nodesObj := or_else nodes empty_object in
        for_of (Object_keys nodesObj) (ingest_node g nodesObj) ;;
        edges0 <- prop req "edges" ;;
        let edgesArr := or_else edges0 (VArr []) in
        es <- lift TypeError (iterate (Some edgesArr)) ;;
        for_of es (ingest_edge g) ;;
        ret (json (VObj [("status", VStr "ok")]))
  | None => throw (Error "graphId is missing!")
  end.

Definition POST_ingest (req : value) (st : Store) : Store * Response :=
  try_catch (ingest_try req) (json_status (error_body "Failed") 500) st.

(** ** GET /api/graph/load *)

(** [JSON.parse(text || "{}")] on a stored payload. *)
Definition parse_stored (text : string) : option value :=
  JSON.parse (if text =? "" then "{}" else text).

(** The object pushed for one Step row; [None] is the SyntaxError of
    [JSON.parse]. *)
Definition call_of_step (s : Step) : option value :=
  match parse_stored (inputJson s), parse_stored (outputJson s) with
  | Some i, Some o =>
      Some (VObj [("stepIndex", VNum (stepIndex s)); ("input", i); ("output", o)])
  | _, _ => None
  end.

(** [nodes : Record<string, Array<any>>], a plain object: its own
    properties in insertion order (the engine enumerates keys that are
    array indices before the others; the properties below are about which
    keys there are and what is under each, not about their order). *)
Definition node_map : Type := list (string * list value).

Fixpoint own (k : string) (nodes : node_map) : option (list value) :=
  match nodes with
  | [] => None
  | (k', l) :: nodes' => if k' =? k then Some l else own k nodes'
  end.

Fixpoint push (k : string) (c : value) (nodes : node_map) : node_map :=
  match nodes with
  | [] => []
  | (k', l) :: nodes' =>
      if k' =? k then (k', (l ++ [c])%list) :: nodes' else (k', l) :: push k c nodes'
  end.

(** One turn of [for (const s of steps)]:
    [if (!nodes[s.nodeName]) nodes[s.nodeName] = [];
     nodes[s.nodeName].push({ ... })].
    When [nodes] has no own property of that name but inherits one, the
    test reads the inherited (truthy) value, nothing is assigned, and the
    call of its missing [push] throws. *)
Definition add_step (nodes : node_map) (s : Step) : outcome node_map :=
  let k := nodeName s in
  match own k nodes with
  | Some _ =>
      match call_of_step s with
      | Some c => Return (push k c nodes)
      | None => Throw SyntaxError
      end
  | None =>
      if inherited k then
        match call_of_step s with
        | Some _ => Throw TypeError
        | None => Throw SyntaxError
        end
      else
        match call_of_step s with
        | Some c => Return (nodes ++ [(k, [c])])%list
        | None => Throw SyntaxError
        end
  end.

Fixpoint group_steps (nodes : node_map) (l : list Step) : outcome node_map :=
  match l with
  | [] => Return nodes
  | s :: l' =>
      match add_step nodes s with
      | Return nodes' => group_steps nodes' l'
      | Throw e => Throw e
      end
  end.

(** One element of [edges.map(...)], as serialized: [conditionKey] is
    [e.conditionKey || undefined], and [undefined] is left out. *)
Definition edge_view (e : Edge) : value :=
  VObj ([("source", VStr (sourceNode e)); ("target", VStr (targetNode e))]
        ++ match conditionKey e with
           | Some k => if k =? "" then [] else [("conditionKey", VStr k)]
           | None => []
           end
        ++ [("used_count", match usedCount e with
                           | Some n => VNum n
                           | None => VNull
                           end)])%list.

Definition nodes_value (nodes : node_map) : value :=
  VObj (map (fun kl => (fst kl, VArr (snd kl))) nodes).

Definition load_body (nodes : node_map) (edgesArr : list value) : value :=
  VObj [("nodes", nodes_value nodes); ("edges", VArr edgesArr)].

Definition load_try (g : string) : M Response :=
  steps <- step_findMany g ;;
  edges <- edge_findMany g ;;
  nodes <- (fun st => (st, group_steps [] steps)) ;;
  let edgesArr := map edge_view edges in
  ret (json (load_body nodes edgesArr)).

(** [graphId] is [searchParams.get("graphId")]: a string, or [None] for
    [null] when the query has no such parameter. *)
Definition GET_load (graphId : option string) (st : Store) : Store * Response :=
  match graphId with
  | None => (st, json_status (error_body "graphId missing") 400)
  | Some g =>
      if g =? "" then (st, json_status (error_body "graphId missing") 400)
      else try_catch (load_try g) (json_status (error_body "Failed") 500) st
  end.

(** ** Graphs ordered by creation time *)

(** [orderBy: { createdAt: "desc" }]: the rows with the latest first.
    The store promises no order among rows of the same [createdAt]; here
    the one inserted later comes first.  The properties below hold for
    any order of such rows. *)
Fixpoint insert_desc (r : Graph) (l : list Graph) : list Graph :=
  match l with
  | [] => [r]
  | x :: l' =>
      if (createdAt x <? createdAt r)%Z then r :: l else x :: insert_desc r l'
  end.

Definition order_desc (l : list Graph) : list Graph := fold_right insert_desc [] l.

(** [prisma.graph.findMany({ orderBy: { createdAt: "desc" } })] *)
Definition graph_findMany_desc : M (list Graph) :=
  fun st => (st, Return (order_desc (graphs st))).

(** [prisma.graph.findFirst({ orderBy: { createdAt: "desc" } })]; [None]
    is the [null] of a table without rows. *)
Definition graph_findFirst_desc : M (option Graph) :=
  fun st => (st, Return (hd_error (order_desc (graphs st)))).

(** ** GET /api/graph/last *)

Definition last_try : M Response :=
  latest <- graph_findFirst_desc ;;
  match latest with
  | None => ret (json (VObj [("graphId", VNull)]))
  | Some l => ret (json (VObj [("graphId", VStr (graph_id l))]))
  end.

Definition GET_last (st : Store) : Store * Response :=
  try_catch last_try (json_status (error_body "Failed to fetch last graph") 500) st.

(** ** GET /api/graphs/list *)

(** [n] in decimal, with zeros on the left up to [w] digits. *)
Definition pad (w : nat) (n : Z) : string :=
  let s := JSON.string_of_N (Z.to_N n) in
  String.concat "" (repeat "0" (w - String.length s)) ++ s.

(** The year, month and day of the [days]-th day after 1970-01-01 in the
    proleptic Gregorian calendar. *)
Definition civil_from_days (days : Z) : Z * Z * Z :=
  let z := (days + 719468)%Z in
  let era := (z / 146097)%Z in
  let doe := (z - era * 146097)%Z in
  let yoe := ((doe - doe / 1460 + doe / 36524 - doe / 146096) / 365)%Z in
  let doy := (doe - (365 * yoe + yoe / 4 - yoe / 100))%Z in
  let mp := ((5 * doy + 2) / 153)%Z in
  let d := (doy - (153 * mp + 2) / 5 + 1)%Z in
  let m := (if mp <? 10 then mp + 3 else mp - 9)%Z in
  let y := (yoe + era * 400 + (if m <=? 2 then 1 else 0))%Z in
  (y, m, d).

(** [Date.prototype.toISOString] of the time [t] milliseconds after the
    epoch, which is how [NextResponse.json] writes a [DateTime] column. *)
Definition toISOString (t : Z) : string :=
  let '(y, m, d) := civil_from_days (t / 86400000) in
  let ms := (t mod 86400000)%Z in
  let year :=
    if ((0 <=? y) && (y <=? 9999))%Z then pad 4 y
    else if (y <? 0)%Z then String "-" (pad 6 (- y)) else String "+" (pad 6 y) in
  year ++ "-" ++ pad 2 m ++ "-" ++ pad 2 d ++ "T"
    ++ pad 2 (ms / 3600000) ++ ":" ++ pad 2 (ms / 60000 mod 60) ++ ":"
    ++ pad 2 (ms / 1000 mod 60) ++ "." ++ pad 3 (ms mod 1000) ++ "Z".

(** A Graph row as [NextResponse.json] serializes it. *)
Definition graph_json (r : Graph) : value :=
  VObj [("id", VStr (graph_id r)); ("name", VStr (graph_name r));
        ("createdAt", VStr (toISOString (createdAt r)))].

Definition list_try : M Response :=
  graphs <- graph_findMany_desc ;;
  ret (json (VArr (map graph_json graphs))).

Definition GET_list (st : Store) : Store * Response :=
  try_catch list_try (json_status (error_body "Failed") 500) st.

Local Close Scope js_scope.

(* ================================================================== *)
(** * The graph page *)
(* ================================================================== *)

Module Page.

(** What [app/graph/page.tsx] makes of the responses of the handlers: the
    graph it selects by polling, and the nodes and edges it builds from a
    Load response and hands to [layoutGraph].  [layoutGraph] (the dagre
    layout) assigns each node its position and returns the same nodes and
    edges otherwise; it is not modelled, so a node keeps the [position] it
    is built with. *)

(** [res.ok] *)
Definition ok (res : Response) : bool :=
  ((200 <=? status res) && (status res <=? 299))%Z.

(** All or nothing: the first [None] (an exception) aborts a [map]. *)
Fixpoint sequence {A} (l : list (option A)) : option (list A) :=
  match l with
  | [] => Some []
  | x :: l' =>
      match x, sequence l' with
      | Some a, Some r => Some (a :: r)
      | _, _ => None
      end
  end.

Fixpoint join_with (sep : string) (l : list string) : string :=
  match l with
  | [] => ""
  | [x] => x
  | x :: l' => x ++ sep ++ join_with sep l'
  end.

(** ToString, as a template literal applies it to a value that came out
    of [res.json()]; [None] is the TypeError for an object whose own
    [toString] property hides the inherited method.  An array is its
    elements joined by commas, a [null] element as the empty string.  (A
    number written with a fraction or an exponent is shown as written.) *)
Fixpoint ToString (v : value) : option string :=
  match v with
  | VNull => Some "null"
  | VBool true => Some "true"
  | VBool false => Some "false"
  | VNum n => Some (JSON.string_of_Z n)
  | VDec d => Some d
  | VStr s => Some s
  | VArr l =>
      option_map (join_with ",")
        ((fix elements (l : list value) : option (list string) :=
            match l with
            | [] => Some []
            | x :: l' =>
                match (match x with VNull => Some "" | _ => ToString x end),
                      elements l' with
                | Some s, Some r => Some (s :: r)
                | _, _ => None
                end
            end) l)
  | VObj fs =>
      match assoc "toString" fs with
      | Some _ => None
      | None => Some "[object Object]"
      end
  end.

(** What [Array.prototype.join] makes of one element. *)
Definition join_item (x : jsval) : option string :=
  match x with
  | None => Some ""
  | Some VNull => Some ""
  | Some v => ToString v
  end.

(** [toUpperCase] on a string of ASCII characters. *)
Definition upper (c : ascii) : ascii :=
  let n := N_of_ascii c in
  if ((97 <=? n) && (n <=? 122))%N then ascii_of_N (n - 32) else c.

Fixpoint toUpperCase (s : string) : string :=
  match s with
  | EmptyString => ""
  | String c r => String (upper c) (toUpperCase r)
  end.

Definition newline : string := String "010"%char "".

(** The fields of [React.CSSProperties] the page sets. *)
Record CSSProperties : Type := mkStyle {
  background : option string;
  color : option string;
  borderRadius : option string;
  width : Z;
  height : Z;
  display : option string;
  justifyContent : option string;
  alignItems : option string;
  fontWeight : option string
}.

(** React Flow's [Node], with [data.label] and [data.allSteps]. *)
Record RFNode : Type := mkNode {
  n_id : string;
  n_label : string;
  n_allSteps : list value;
  n_style : CSSProperties;
  n_position : Z * Z
}.

Inductive MarkerType : Type := Arrow | ArrowClosed.

(** React Flow's [Edge], with [style] and [markerEnd] flattened. *)
Record RFEdge : Type := mkEdge {
  e_id : string;
  e_source : jsval;
  e_target : jsval;
  e_label : option string;
  e_stroke : string;
  e_strokeDasharray : option string;
  e_strokeWidth : Z;
  e_marker_type : MarkerType;
  e_marker_color : string;
  e_marker_width : Z;
  e_marker_height : Z
}.

(** The callback of [nodeEntries.map]; [None] is an exception. *)
Definition tmpNode (entry : string * value) : option RFNode :=
  let (nodeName, calls) := entry in
  match calls with
  | VArr callsArr =>
      match sequence (map (fun c => get_prop c "stepIndex") callsArr) with
      | Some ixs =>
          match sequence (map join_item ixs) with
          | Some strs =>
              let stepIndexes := join_with ", " strs in
              let labelText :=
                "Node: " ++ nodeName ++ newline ++ "step: " ++ stepIndexes in
              let style := mkStyle None None None 150 50 None None None None in
              if ((nodeName =? "start") || (nodeName =? "end"))%bool then
                Some (mkNode nodeName (toUpperCase nodeName) callsArr
                        (mkStyle (Some "black") (Some "white") (Some "50%") 60 60
                                 (Some "flex") (Some "center") (Some "center")
                                 (Some "bold"))
                        (0, 0)%Z)
              else Some (mkNode nodeName labelText callsArr style (0, 0)%Z)
          | None => None
          end
      | None => None
      end
  | _ => None
  end.

(** The callback of [(data.edges||[]).map]; [None] is an exception. *)
Definition tmpEdge (ied : string * value) : option RFEdge :=
  let (i, ed) := ied in
  match get_prop ed "conditionKey", get_prop ed "source", get_prop ed "target" with
  | Some ck, Some source, Some target =>
      let is_end := match ck with Some (VStr k) => k =? "end" | _ => false end in
      let strokeColor := if is_end then "red" else "black" in
      let dash := if is_end then Some "4 2" else None in
      match (match ck with
             | Some k =>
                 if truthy ck then
                   option_map (fun s => Some ("condition: " ++ s)) (ToString k)
                 else Some None
             | None => Some None
             end) with
      | Some label =>
          Some (mkEdge ("edge-" ++ i) source target label strokeColor dash 2
                       ArrowClosed strokeColor 8 8)
      | None => None
      end
  | _, _, _ => None
  end.

(** What [fetchGraphData] ends with: [setNodes([]); setEdges([])], or
    the call of [layoutGraph] on the nodes and edges it built. *)
Inductive rendering : Type :=
| Cleared
| Layout (tmpNodes : list RFNode) (tmpEdges : list RFEdge).

(** [fetchGraphData], given the response to its request. *)
Definition fetchGraphData (res : Response) : rendering :=
  if negb (ok res) then Cleared
  else
    let data := body res in
    match get_prop data "nodes", get_prop data "edges" with
    | Some (Some nodes), Some edges0 =>
        if negb (truthy (Some nodes)) then Cleared
        else
          match sequence (map tmpNode (own_entries nodes)) with
          | Some tmpNodes =>
              match or_else edges0 (VArr []) with
              | VArr es =>
                  match sequence (map tmpEdge (indexed 0 es)) with
                  | Some tmpEdges => Layout tmpNodes tmpEdges
                  | None => Cleared
                  end
              | _ => Cleared
              end
          | None => Cleared
          end
    | _, _ => Cleared
    end.

(** The [graphId] and [waiting] state [fetchLatestGraphId] sets, given the
    response to its request ([None] is [null]). *)
Definition fetchLatestGraphId (res : Response) : option value * bool :=
  match get_prop (body res) "graphId" with
  | Some (Some v) => if truthy (Some v) then (Some v, false) else (None, true)
  | _ => (None, true)
  end.

(** [JSON.stringify(v, null, 2)]: the text of [v] with every element of
    an array and every member of an object on a line of its own, indented
    by two more spaces than the line its array or object starts on
    ([indent]). *)
Fixpoint stringify_indented (indent : string) (v : value) : string :=
  match v with
  | VArr (x :: l) =>
      let inner := indent ++ "  " in
      "[" ++ newline ++ inner
        ++ join_with ("," ++ newline ++ inner)
             (map (stringify_indented inner) (x :: l))
        ++ newline ++ indent ++ "]"
  | VObj (kv :: fs) =>
      let inner := indent ++ "  " in
      "{" ++ newline ++ inner
        ++ join_with ("," ++ newline ++ inner)
             (map (fun kv => JSON.quote (fst kv) ++ ": "
                               ++ stringify_indented inner (snd kv))
                  (kv :: fs))
        ++ newline ++ indent ++ "}"
  | _ => JSON.stringify v
  end.

(** [formatIfJson]: a string that is JSON text is shown as the indented
    text of the value it denotes, any other string as it is, and a value
    that is not a string as its indented text.  [None] is the [undefined]
    that [JSON.stringify] returns for [undefined]. *)
Definition formatIfJson (val : jsval) : option string :=
  match val with
  | None => None
  | Some (VStr s) =>
      match JSON.parse s with
      | Some v => Some (stringify_indented "" v)
      | None => Some s
      end
  | Some v => Some (stringify_indented "" v)
  end.

(** [tryParseJson]: the parsed object or array, [None] for [null]. *)
Definition tryParseJson (str : jsval) : option value :=
  match str with
  | Some (VStr s) =>
      match JSON.parse s with
      | Some (VObj fs) => Some (VObj fs)
      | Some (VArr l) => Some (VArr l)
      | _ => None
      end
  | _ => None
  end.

(** ** The drawer *)

(** What [Drawer] renders: nothing, or the list of steps to select from
    (by their [stepIndex]) with the input and the output of the selected
    step, which go to [TextField]. *)
Inductive drawer_view : Type :=
| Hidden
| Shown (stepIndexes : list jsval) (input output : jsval).

(** [Drawer], from its props and its [selectedIndex] state: an exception
    is the TypeError of reading a property of [undefined] or [null].
    (What React makes of a [stepIndex] that is not a number or a string
    is not modelled; Load returns numbers.) *)
Definition Drawer (open : bool) (allSteps : list value) (selectedIndex : nat)
  : outcome drawer_view :=
  if negb open then Return Hidden
  else
    match allSteps with
    | [] => Return Hidden
    | _ =>
        match nth_error allSteps selectedIndex with
        | Some currentStep =>
            match sequence (map (fun step => get_prop step "stepIndex") allSteps),
                  get_prop currentStep "input", get_prop currentStep "output" with
            | Some ixs, Some input, Some output => Return (Shown ixs input output)
            | _, _, _ => Throw TypeError
            end
        | None => Throw TypeError
        end
    end.

(** The state of the page that the drawer depends on: [drawerOpen] and
    [drawerSteps] of [GraphPage], and [selectedIndex] of [Drawer], which
    stays mounted (and keeps its state) while the page is shown. *)
Record DrawerState : Type := mkDrawerState {
  drawerOpen : bool;
  drawerSteps : list value;
  selectedIndex : nat
}.

Definition closed : DrawerState := mkDrawerState false [] 0.

Definition render (st : DrawerState) : outcome drawer_view :=
  Drawer (drawerOpen st) (drawerSteps st) (selectedIndex st).

(** What the user can do: click a node, close the drawer, select a step
    in the drawer. *)
Inductive event : Type :=
| NodeClick (node : RFNode)
| Close
| Select (idx : nat).

(** The state after an event; [None] when the event cannot happen: the
    drawer can be closed, and one of its steps selected, only while it is
    shown. *)
Definition handle (st : DrawerState) (ev : event) : option DrawerState :=
  match ev with
  | NodeClick node => Some (mkDrawerState true (n_allSteps node) (selectedIndex st))
  | Close =>
      match render st with
      | Return (Shown _ _ _) => Some (mkDrawerState false (drawerSteps st) (selectedIndex st))
      | _ => None
      end
  | Select idx =>
      match render st with
      | Return (Shown _ _ _) =>
          if Nat.ltb idx (List.length (drawerSteps st))
          then Some (mkDrawerState (drawerOpen st) (drawerSteps st) idx)
          else None
      | _ => None
      end
  end.

Fixpoint run (st : DrawerState) (evs : list event) : option DrawerState :=
  match evs with
  | [] => Some st
  | ev :: evs' =>
      match handle st ev with
      | Some st' => run st' evs'
      | None => None
      end
  end.

End Page.


(* ================================================================== *)
(** * Vocabulary of the proofs *)
(* ================================================================== *)

(** The item the parser reads back for a character [stringify] wrote. *)
Definition item_of (c : ascii) : JSON.item :=
  let n := JSON.code c in
  if ((n <? 32) && negb ((n =? 8) || (n =? 9) || (n =? 10) || (n =? 12) || (n =? 13)))%N
  then JSON.Unit16 n else JSON.Byte c.

Fixpoint items_of (s : string) : list JSON.item :=
  match s with
  | EmptyString => []
  | String c s' => item_of c :: items_of s'
  end.

(** What may follow a value inside a text: nothing, or a character that
    ends a number literal. *)
Definition delimited (r : string) : bool :=
  match r with
  | EmptyString => true
  | String c _ => (Ascii.eqb c "," || Ascii.eqb c "]" || Ascii.eqb c "}")%bool
  end.

(** The characters a serialized value can start with. *)
Definition starter (c : ascii) : bool :=
  (JSON.is_digit c || Ascii.eqb c "-" || Ascii.eqb c "[" || Ascii.eqb c "{"
   || Ascii.eqb c JSON.dquote || Ascii.eqb c "n" || Ascii.eqb c "t" || Ascii.eqb c "f")%bool.

Definition head_is (p : ascii -> bool) (s : string) : bool :=
  match s with
  | String c _ => p c
  | EmptyString => false
  end.

(** A parser of values that reads back what [stringify] wrote for [v]. *)
Definition reads_back (pv : string -> option (value * string)) (v : value) : Prop :=
  forall r, delimited r = true -> pv (JSON.stringify v ++ r) = Some (v, r).

(** The text of one member of an object. *)
Definition member (kv : string * value) : string :=
  JSON.quote (fst kv) ++ String ":" (JSON.stringify (snd kv)).

(** ** What a request asks the store to hold *)

(** A Step row and an Edge row without the columns the store fills in
    ([id]) or the handler fixes ([graphId]). *)
Record StepData : Type := mkStepData {
  d_nodeName : string;
  d_stepIndex : Z;
  d_inputJson : string;
  d_outputJson : string
}.

Record EdgeData : Type := mkEdgeData {
  d_sourceNode : string;
  d_targetNode : string;
  d_conditionKey : option string;
  d_usedCount : option Z
}.

Definition step_data (s : Step) : StepData :=
  mkStepData (nodeName s) (stepIndex s) (inputJson s) (outputJson s).

Definition edge_data (e : Edge) : EdgeData :=
  mkEdgeData (sourceNode e) (targetNode e) (conditionKey e) (usedCount e).

(** The effect of one successful [create]. *)
Definition insert_step (g : string) (st : Store) (d : StepData) : Store :=
  mkStore (graphs st)
          (steps st ++ [mkStep (next_step_id st) g (d_nodeName d) (d_stepIndex d)
                               (d_inputJson d) (d_outputJson d)])
          (edges st) (next_step_id st + 1) (next_edge_id st).

Definition insert_edge (g : string) (st : Store) (d : EdgeData) : Store :=
  mkStore (graphs st) (steps st)
          (edges st ++ [mkEdge (next_edge_id st) g (d_sourceNode d) (d_targetNode d)
                               (d_conditionKey d) (d_usedCount d)])
          (next_step_id st) (next_edge_id st + 1).

(** The effect of the two [deleteMany]. *)
Definition clear (g : string) (st : Store) : Store :=
  mkStore (graphs st)
          (filter (other_graph step_graphId g) (steps st))
          (filter (other_graph edge_graphId g) (edges st))
          (next_step_id st) (next_edge_id st).

(** The store after a whole ingestion. *)
Definition ingested (g : string) (sds : list StepData) (eds : list EdgeData)
  (st : Store) : Store :=
  fold_left (insert_edge g) eds (fold_left (insert_step g) sds (clear g st)).

(** A loop of creates for graph [g] that is to insert the rows [ds] goes
    through on [st] when it inserts nothing or the graph exists (the
    foreign key of the rows). *)
Definition accepts {D} (g : string) (st : Store) (ds : list D) : Prop :=
  ds <> [] -> graph_exists g st = true.

(** First failure wins; otherwise the rows of all turns, in order. *)
Fixpoint collect {A D} (f : A -> option (list D)) (l : list A) : option (list D) :=
  match l with
  | [] => Some []
  | x :: l' =>
      match f x, collect f l' with
      | Some a, Some b => Some (a ++ b)%list
      | _, _ => None
      end
  end.

(** The row one call entry becomes, when the store accepts it. *)
Definition call_rows (k : string) (call : value) : option (list StepData) :=
  match get_prop call "stepIndex", get_prop call "input", get_prop call "output" with
  | Some si, Some i, Some o =>
      match as_Int si with
      | Some n => Some [mkStepData k n (JSON.stringify (or_else i empty_object))
                                   (JSON.stringify (or_else o empty_object))]
      | None => None
      end
  | _, _, _ => None
  end.

(** The call list submitted under key [k]. *)
Definition submitted_calls (nodesObj : value) (k : string) : option (list value) :=
  match get_prop nodesObj k with
  | Some calls => iterate calls
  | None => None
  end.

Definition node_rows (nodesObj : value) (k : string) : option (list StepData) :=
  match submitted_calls nodesObj k with
  | Some cs => collect (call_rows k) cs
  | None => None
  end.

Definition nodes_data (nodesObj : value) : option (list StepData) :=
  collect (node_rows nodesObj) (Object_keys nodesObj).

Definition edge_rows (ed : value) : option (list EdgeData) :=
  match get_prop ed "source", get_prop ed "target",
        get_prop ed "conditionKey", get_prop ed "used_count" with
  | Some s, Some t, Some c, Some u =>
      match as_String s, as_String t, as_String_opt c,
            as_Int_opt 0 (Some (or_else u (VNum 0))) with
      | Some s', Some t', Some c', Some u' => Some [mkEdgeData s' t' c' u']
      | _, _, _, _ => None
      end
  | _, _, _, _ => None
  end.

Definition edges_data (edgesArr : value) : option (list EdgeData) :=
  match iterate (Some edgesArr) with
  | Some es => collect edge_rows es
  | None => None
  end.

(** [body.nodes || {}] and [body.edges || []] of a request that is not
    [null]. *)
Definition req_nodes (req : value) : value :=
  or_else (assoc "nodes" (own_entries req)) empty_object.

Definition req_edges (req : value) : value :=
  or_else (assoc "edges" (own_entries req)) (VArr []).

(** What an accepted request amounts to: the graph and the rows. *)
Definition ingest_plan (req : value)
  : option (string * list StepData * list EdgeData) :=
  match get_prop req "graphId" with
  | Some (Some (VStr g)) =>
      if g =? "" then None
      else match nodes_data (req_nodes req), edges_data (req_edges req) with
           | Some sds, Some eds => Some (g, sds, eds)
           | _, _ => None
           end
  | _ => None
  end.

(** The [graphId] of the request is no filter: a [deleteMany] with it
    deletes the rows of one graph or is refused. *)
Definition no_filter (req : value) : Prop :=
  forall v, get_prop req "graphId" = Some (Some v) -> string_filter v = None.

Definition ok_response : Response := json (VObj [("status", VStr "ok")]).
Definition failed_response : Response := json_status (error_body "Failed") 500.

Definition steps_of (g : string) (st : Store) : list Step :=
  filter (fun r => step_graphId r =? g) (steps st).

Definition edges_of (g : string) (st : Store) : list Edge :=
  filter (fun r => edge_graphId r =? g) (edges st).

(** ** What Load makes of the rows *)

(** The calls pushed under key [k] by the rows of [l], in row order. *)
Definition views_of (k : string) (l : list Step) : list value :=
  flat_map (fun s => if nodeName s =? k
                     then match call_of_step s with Some c => [c] | None => [] end
                     else []) l.

(** The list under a key after more calls were pushed under it. *)
Definition merge (o : option (list value)) (l : list value) : option (list value) :=
  match o, l with
  | Some cs, _ => Some (cs ++ l)%list
  | None, [] => None
  | None, _ => Some l
  end.

(** The response of Load, from the rows it read. *)
Definition load_response (ss : list Step) (es : list Edge) : Response :=
  match group_steps [] ss with
  | Return nodes => json (load_body nodes (map edge_view es))
  | Throw _ => failed_response
  end.

(** A row with the given data, for computing what Load makes of it. *)
Definition step_with (d : StepData) : Step :=
  mkStep 0 "" (d_nodeName d) (d_stepIndex d) (d_inputJson d) (d_outputJson d).

Definition edge_with (d : EdgeData) : Edge :=
  mkEdge 0 "" (d_sourceNode d) (d_targetNode d) (d_conditionKey d) (d_usedCount d).

(** ** What Load returns for a submitted entry *)

Definition field_or_null (v : value) (k : string) : value :=
  match assoc k (own_entries v) with
  | Some x => x
  | None => VNull
  end.

(** The [stepIndex] the store keeps for a submitted call: the integer
    part of the number submitted (1 for 1, for 1.0 and for 1.5). *)
Definition stored_index (call : value) : Z :=
  match as_Int (assoc "stepIndex" (own_entries call)) with
  | Some n => n
  | None => 0%Z
  end.

(** The count the store keeps for a submitted edge: the integer part of
    the number submitted, 0 for a missing or falsy one, and NULL for a
    number beyond the doubles. *)
Definition stored_count (ed : value) : option Z :=
  match as_Int_opt 0 (Some (or_else (assoc "used_count" (own_entries ed)) (VNum 0))) with
  | Some u => u
  | None => None
  end.

Definition stored_used_count (ed : value) : value :=
  match stored_count ed with
  | Some n => VNum n
  | None => VNull
  end.


(** The edge entry Load returns for a submitted edge. *)
Definition submitted_edge_view (ed : value) : value :=
  VObj ([("source", field_or_null ed "source"); ("target", field_or_null ed "target")]
        ++ (if truthy (assoc "conditionKey" (own_entries ed))
            then [("conditionKey", field_or_null ed "conditionKey")] else [])
        ++ [("used_count", stored_used_count ed)])%list.

(** The [used_count] of the edge is a number beyond the doubles. *)
Definition count_overflows (ed : value) : bool :=
  overflows (or_else (assoc "used_count" (own_entries ed)) (VNum 0)).

(** The call list submitted under [k]; empty when [k] is not a key of
    [nodesObj] or its value is not iterable. *)
Definition calls_under (nodesObj : value) (k : string) : list value :=
  match submitted_calls nodesObj k with
  | Some cs => cs
  | None => []
  end.

(** The submitted edge list. *)
Definition edges_under (edgesArr : value) : list value :=
  match iterate (Some edgesArr) with
  | Some es => es
  | None => []
  end.



(** ** The stated properties, as the specification words them *)













(** CreateGraph, as stated: a body without [graphId] is refused and
    nothing is persisted. *)
Definition rejects_missing_id (fresh : string) (now : Z) (req : value) (st : Store)
  : Prop :=
  get_prop req "graphId" = Some None ->
  status (snd (POST_start fresh now req st)) <> 200%Z /\
  graphs (fst (POST_start fresh now req st)) = graphs st.

(** Load, as stated: [used_count] is the stored [usedCount], or 0 for a
    stored NULL. *)
Definition used_count_defaults (st : Store) (g : string) : Prop :=
  forall nodes edgesArr,
    snd (GET_load (Some g) st) = json (load_body nodes edgesArr) ->
    Forall2 (fun e v =>
               assoc "used_count" (own_entries v)
               = Some (VNum (match usedCount e with Some n => n | None => 0%Z end)))
            (edges_of g st) edgesArr.

(** ** Sample data *)

(** A store that holds the graph [g1] and no rows. *)
Definition store_g1 : Store := mkStore [mkGraph "g1" "Untitled" 0] [] [] 1 1.

(** The example request of the specification. *)
Definition req_example : value :=
  VObj [("graphId", VStr "g1");
        ("nodes", VObj [("start", VArr [VObj [("stepIndex", VNum 0);
                                               ("input", VObj []);
                                               ("output", VObj [("msg", VStr "hi")])]])]);
        ("edges", VArr [VObj [("source", VStr "start"); ("target", VStr "end");
                              ("used_count", VNum 1)]])].

(** An earlier snapshot of the same graph, with a node and an edge the
    example request does not have. *)
Definition req_earlier : value :=
  VObj [("graphId", VStr "g1");
        ("nodes", VObj [("old", VArr [VObj [("stepIndex", VNum 7)]])]);
        ("edges", VArr [VObj [("source", VStr "old"); ("target", VStr "older");
                              ("conditionKey", VStr "end")]])].

(** A request whose call list is not in stepIndex order, with a falsy
    payload and a key without calls. *)
Definition req_unsorted : value :=
  VObj [("graphId", VStr "g1");
        ("nodes", VObj [("a", VArr [VObj [("stepIndex", VNum 1); ("input", VNum 0)];
                                    VObj [("stepIndex", VNum 0)]]);
                        ("b", VArr [])])].


(** A store whose only Edge row has a NULL [usedCount] and names two
    nodes that have no Step row. *)
Definition store_null_count : Store :=
  mkStore [mkGraph "g1" "Untitled" 0] []
          [mkEdge 1 "g1" "start" "end" None None] 1 2.

(** A request with numbers that are not written as integers: step
    indices 1.5 and 2.0, counts 3.0 and 0.5. *)
Definition req_fractional : value :=
  VObj [("graphId", VStr "g1");
        ("nodes", VObj [("a", VArr [VObj [("stepIndex", VDec "1.5");
                                          ("input", VObj [("q", VStr "x")])];
                                    VObj [("stepIndex", VNum 0);
                                          ("output", VStr "done")]]);
                        ("b", VArr [VObj [("stepIndex", VDec "2.0")]])]);
        ("edges", VArr [VObj [("source", VStr "a"); ("target", VStr "b");
                              ("used_count", VDec "3.0")];
                        VObj [("source", VStr "b"); ("target", VStr "a");
                              ("conditionKey", VStr "retry");
                              ("used_count", VDec "0.5")]])].

(** A body with calls and without an [edges] field. *)
Definition body_without_edges : list (string * value) :=
  [("graphId", VStr "g1");
   ("nodes", VObj [("a", VArr [VObj [("stepIndex", VDec "1.5")];
                               VObj [("stepIndex", VNum 0)]])])].

Definition empty_store : Store := mkStore [] [] [] 1 1.

(** The store after the example request was ingested into [store_g1]:
    one Step row for [start], one Edge row from [start] to [end], and no
    Step row for [end]. *)
Definition store_example : Store :=
  Eval vm_compute in fst (POST_ingest req_example store_g1).

(** ** Consistency of the store *)

(** The relation of Step and Edge rows to their Graph: every row names a
    graph that is there. *)
Definition referential (st : Store) : Prop :=
  Forall (fun s => graph_exists (step_graphId s) st = true) (steps st) /\
  Forall (fun e => graph_exists (edge_graphId e) st = true) (edges st).

(** The primary keys: no two rows of a table share their [id], and the
    counters are beyond the ids given out. *)
Definition keyed (st : Store) : Prop :=
  NoDup (map graph_id (graphs st)) /\
  NoDup (map step_id (steps st)) /\
  NoDup (map edge_id (edges st)) /\
  Forall (fun s => (step_id s < next_step_id st)%Z) (steps st) /\
  Forall (fun e => (edge_id e < next_edge_id st)%Z) (edges st).

Definition consistent (st : Store) : Prop := referential st /\ keyed st.

(** A computation that takes every store to one related to it by [R],
    whether it returns or throws. *)
Definition respects {A} (R : Store -> Store -> Prop) (m : M A) : Prop :=
  forall st, R st (fst (m st)).

Definition keeps (P : Store -> Prop) (st st' : Store) : Prop := P st -> P st'.

(** The effect of the two [deleteMany] with a filter that selects the
    rows whose graph satisfies [p]. *)
Definition deleted (p : string -> bool) (st : Store) : Store :=
  mkStore (graphs st)
          (filter (unselected step_graphId p) (steps st))
          (filter (unselected edge_graphId p) (edges st))
          (next_step_id st) (next_edge_id st).

(** A computation that leaves every store as it is and has the same
    outcome on every store, a value with [P] if it returns. *)
Definition inert {A} (P : A -> Prop) (m : M A) : Prop :=
  exists o, (forall st, m st = (st, o)) /\ forall a, o = Return a -> P a.

(** A store with two graphs that both have rows. *)
Definition req_second : value :=
  VObj [("graphId", VStr "g2");
        ("nodes", VObj [("x", VArr [VObj [("stepIndex", VNum 0)]])]);
        ("edges", VArr [VObj [("source", VStr "x"); ("target", VStr "y")]])].

Definition store_two_graphs : Store :=
  Eval vm_compute in
    fst (POST_ingest req_second
           (mkStore (graphs store_example ++ [mkGraph "g2" "Second" 1])
                    (steps store_example) (edges store_example)
                    (next_step_id store_example) (next_edge_id store_example))).

(** [st'] is [st] with more rows of graph [g], under ids that [st] had
    not given out. *)
Definition appended (g : string) (st st' : Store) : Prop :=
  graphs st' = graphs st /\
  (next_step_id st <= next_step_id st')%Z /\
  (next_edge_id st <= next_edge_id st')%Z /\
  exists ns ne,
    steps st' = (steps st ++ ns)%list /\
    edges st' = (edges st ++ ne)%list /\
    Forall (fun s => step_graphId s = g /\ (next_step_id st <= step_id s)%Z) ns /\
    Forall (fun e => edge_graphId e = g /\ (next_edge_id st <= edge_id e)%Z) ne.

(** ** Requests the store accepts *)

Definition is_some {A} (o : option A) : bool :=
  match o with
  | Some _ => true
  | None => false
  end.

(** A call the store takes: one with a number as [stepIndex] whose
    integer part is in the 32-bit range. *)
Definition call_ok (call : value) : bool :=
  match get_prop call "stepIndex" with
  | Some si => is_some (as_Int si)
  | None => false
  end.

Definition calls_ok (nodesObj : value) (k : string) : bool :=
  match submitted_calls nodesObj k with
  | Some cs => forallb call_ok cs
  | None => false
  end.

Definition edge_ok (ed : value) : bool :=
  match get_prop ed "source", get_prop ed "target",
        get_prop ed "conditionKey", get_prop ed "used_count" with
  | Some (Some (VStr _)), Some (Some (VStr _)), Some c, Some u =>
      match c with
      | None => true
      | Some VNull => true
      | Some (VStr _) => true
      | _ => false
      end
      && is_some (as_Int_opt 0 (Some (or_else u (VNum 0))))
  | _, _, _, _ => false
  end.

(** A well-formed request: a non-empty string [graphId]; under every key
    of [nodes] (of [{}] when [nodes] is missing or falsy) a list of calls
    whose [stepIndex] is a number with its integer part in the 32-bit
    range; in [edges] (in [[]] when it is missing or falsy) a list of edges
    whose [source] and [target] are strings, whose [conditionKey] is a
    string, [null] or absent and whose [used_count] is falsy, or a number
    with its integer part in the 32-bit range, or a number beyond the
    doubles.  (In place of a list, a string is run over by character: it
    passes when it is empty.) *)
Definition request_ok (req : value) : bool :=
  match get_prop req "graphId" with
  | Some (Some (VStr g)) =>
      negb (g =? "")
      && forallb (calls_ok (req_nodes req)) (Object_keys (req_nodes req))
      && match iterate (Some (req_edges req)) with
         | Some es => forallb edge_ok es
         | None => false
         end
  | _ => false
  end.

(** The row a submitted call is stored as, and the row a submitted edge
    is stored as. *)
Definition row_of_call (k : string) (call : value) : StepData :=
  mkStepData k (stored_index call)
    (JSON.stringify (or_else (assoc "input" (own_entries call)) empty_object))
    (JSON.stringify (or_else (assoc "output" (own_entries call)) empty_object)).

Definition string_or_empty (v : value) : string :=
  match v with
  | VStr s => s
  | _ => ""
  end.

Definition row_of_edge (ed : value) : EdgeData :=
  mkEdgeData (string_or_empty (field_or_null ed "source"))
             (string_or_empty (field_or_null ed "target"))
             (match assoc "conditionKey" (own_entries ed) with
              | Some (VStr k) => Some k
              | _ => None
              end)
             (stored_count ed).

(** ** Latest first *)

Definition latest_in (row : Graph) (l : list Graph) : Prop :=
  In row l /\ forall r, In r l -> (createdAt r <= createdAt row)%Z.

Definition created_failed : Response :=
  json_status (error_body "Failed to create graph") 500.

Definition graphId_response (id : value) : Response :=
  json (VObj [("graphId", id)]).

(** The number of calls in a nodes mapping. *)
Definition total (nodes : node_map) : nat :=
  List.length (List.concat (map snd nodes)).

(** ** What the page draws *)

Definition terminal (k : string) : bool := ((k =? "start") || (k =? "end"))%bool.

(** The text under a node that is neither [start] nor [end]. *)
Definition step_label (k : string) (indexes : list Z) : string :=
  "Node: " ++ k ++ Page.newline ++ "step: "
    ++ Page.join_with ", " (map JSON.string_of_Z indexes).

(** [n] is the node drawn for the Step rows [rows] of node name [k]: its
    steps are the calls of the rows, its label gives their [stepIndex],
    in their order; [start] and [end] are drawn as black discs with their
    name in capitals. *)
Definition node_drawn (k : string) (rows : list Step) (n : Page.RFNode) : Prop :=
  Page.n_id n = k /\
  map Some (Page.n_allSteps n) = map call_of_step rows /\
  Page.n_label n = (if k =? "start" then "START"
                    else if k =? "end" then "END"
                    else step_label k (map stepIndex rows)) /\
  (Page.width (Page.n_style n), Page.height (Page.n_style n))
  = (if terminal k then (60, 60) else (150, 50))%Z /\
  (Page.background (Page.n_style n), Page.borderRadius (Page.n_style n))
  = (if terminal k then (Some "black", Some "50%") else (None, None)).

Definition ends (e : Edge) : bool :=
  match conditionKey e with
  | Some k => k =? "end"
  | None => false
  end.

(** [r] is the edge drawn for the [i]-th Edge row [e]: red and dashed
    when the condition key is [end], black and solid otherwise, labelled
    with the condition key when there is a non-empty one. *)
Definition edge_drawn (i : nat) (e : Edge) (r : Page.RFEdge) : Prop :=
  Page.e_id r = "edge-" ++ string_of_index i /\
  Page.e_source r = Some (VStr (sourceNode e)) /\
  Page.e_target r = Some (VStr (targetNode e)) /\
  Page.e_label r = match conditionKey e with
                   | Some k => if k =? "" then None else Some ("condition: " ++ k)
                   | None => None
                   end /\
  (Page.e_stroke r, Page.e_strokeDasharray r)
  = (if ends e then ("red", Some "4 2") else ("black", None)) /\
  Page.e_marker_color r = Page.e_stroke r.

Fixpoint edges_drawn (i : nat) (es : list Edge) (rs : list Page.RFEdge) : Prop :=
  match es, rs with
  | [], [] => True
  | e :: es', r :: rs' => edge_drawn i e r /\ edges_drawn (S i) es' rs'
  | _, _ => False
  end.

(** ** Indented text *)

(** What can follow a value in indented text: nothing, a comma, or the
    line break before the closing bracket. *)
Definition follows (r : string) : bool :=
  match r with
  | EmptyString => true
  | String c _ => (Ascii.eqb c "," || Ascii.eqb c "010")%bool
  end.

Fixpoint blank (s : string) : bool :=
  match s with
  | EmptyString => true
  | String c r => JSON.is_ws c && blank r
  end.

(** A parser of values that reads back the indented text of [v]. *)
Definition reads_indented (pv : string -> option (value * string))
  (indent : string) (v : value) : Prop :=
  forall r, follows r = true -> pv (Page.stringify_indented indent v ++ r) = Some (v, r).

(** The text of one member of an object, indented. *)
Definition member_indented (indent : string) (kv : string * value) : string :=
  JSON.quote (fst kv) ++ ": " ++ Page.stringify_indented indent (snd kv).

(** A graph with two steps of node [a] and one step of node [b]. *)
Definition req_two_nodes : value :=
  VObj [("graphId", VStr "g1");
        ("nodes", VObj [("a", VArr [VObj [("stepIndex", VNum 0)];
                                    VObj [("stepIndex", VNum 2)]]);
                        ("b", VArr [VObj [("stepIndex", VNum 1)]])]);
        ("edges", VArr [VObj [("source", VStr "a"); ("target", VStr "b")]])].

Definition store_two_nodes : Store :=
  Eval vm_compute in fst (POST_ingest req_two_nodes store_g1).

(** [r] is drawn as the submitted edge [ed] asks: from its [source] to its
    [target], red and dashed when its [conditionKey] is the string [end]
    and black and solid otherwise, labelled with the condition key when
    that is a non-empty string. *)
Definition edge_as_submitted (ed : value) (r : Page.RFEdge) : Prop :=
  Page.e_source r = Some (VStr (string_or_empty (field_or_null ed "source"))) /\
  Page.e_target r = Some (VStr (string_or_empty (field_or_null ed "target"))) /\
  (Page.e_stroke r, Page.e_strokeDasharray r)
  = (match assoc "conditionKey" (own_entries ed) with
     | Some (VStr k) => if k =? "end" then ("red", Some "4 2") else ("black", None)
     | _ => ("black", None)
     end) /\
  Page.e_label r
  = match assoc "conditionKey" (own_entries ed) with
    | Some (VStr k) => if k =? "" then None else Some ("condition: " ++ k)
    | _ => None
    end.

(* ================================================================== *)
(** * JSON round trip *)
(* ================================================================== *)

Section ValueInduction.
Variable P : value -> Prop.
Hypothesis Hnull : P VNull.
Hypothesis Hbool : forall b, P (VBool b).
Hypothesis Hnum : forall n, P (VNum n).
Hypothesis Hdec : forall d, P (VDec d).
Hypothesis Hstr : forall s, P (VStr s).
Hypothesis Harr : forall l, Forall P l -> P (VArr l).
Hypothesis Hobj : forall fs, Forall (fun kv => P (snd kv)) fs -> P (VObj fs).

Fixpoint value_rect_nested (v : value) : P v :=
  match v with
  | VNull => Hnull
  | VBool b => Hbool b
  | VNum n => Hnum n
  | VDec d => Hdec d
  | VStr s => Hstr s
  | VArr l =>
      Harr l ((fix go (l : list value) : Forall P l :=
                 match l with
                 | [] => Forall_nil _
                 | x :: l' => Forall_cons x (value_rect_nested x) (go l')
                 end) l)
  | VObj fs =>
      Hobj fs ((fix go (fs : list (string * value)) : Forall (fun kv => P (snd kv)) fs :=
                  match fs with
                  | [] => Forall_nil _
                  | kv :: fs' => Forall_cons kv (value_rect_nested (snd kv)) (go fs')
                  end) fs)
  end.
End ValueInduction.

Lemma append_assoc (a b c : string) : (a ++ b) ++ c = a ++ (b ++ c).
Proof. induction a as [|x a IH]; simpl; [reflexivity | now rewrite IH]. Qed.

Lemma append_empty_r (a : string) : a ++ "" = a.
Proof. induction a as [|x a IH]; simpl; [reflexivity | now rewrite IH]. Qed.

Lemma length_append (a b : string) :
  String.length (a ++ b) = String.length a + String.length b.
Proof. induction a as [|x a IH]; simpl; [reflexivity | now rewrite IH]. Qed.

(** ** Strings *)

Lemma parse_chars_escape_char (c : ascii) (r : string) :
  JSON.parse_chars (JSON.escape_char c ++ r)
  = JSON.cons_item (item_of c) (JSON.parse_chars r).
Proof.
  destruct c as [[] [] [] [] [] [] [] []]; reflexivity.
Qed.

Lemma decode_item_of (c : ascii) (l : list JSON.item) :
  JSON.decode_items (item_of c :: l) = String c (JSON.decode_items l).
Proof.
  destruct c as [[] [] [] [] [] [] [] []]; try reflexivity;
    destruct l as [|[c'|u] l]; reflexivity.
Qed.

Lemma decode_items_of (s : string) : JSON.decode_items (items_of s) = s.
Proof.
  induction s as [|c s IH]; [reflexivity|].
  cbn [items_of]. rewrite decode_item_of, IH. reflexivity.
Qed.

Lemma parse_chars_escape (s r : string) :
  JSON.parse_chars (JSON.escape s ++ String JSON.dquote r) = Some (items_of s, r).
Proof.
  induction s as [|c s IH]; [reflexivity|].
  cbn [JSON.escape items_of]. rewrite append_assoc, parse_chars_escape_char, IH.
  reflexivity.
Qed.

Lemma quote_append (s r : string) :
  JSON.quote s ++ r = String JSON.dquote (JSON.escape s ++ String JSON.dquote r).
Proof. unfold JSON.quote. simpl. now rewrite append_assoc. Qed.

(** ** Numbers *)

Lemma to_uint_unorm (n : N) : Decimal.unorm (N.to_uint n) = N.to_uint n.
Proof.
  rewrite <- (DecimalN.Unsigned.to_of (N.to_uint n)).
  now rewrite DecimalN.Unsigned.of_to.
Qed.

Lemma to_uint_nonnil (n : N) : N.to_uint n <> Decimal.Nil.
Proof. rewrite <- to_uint_unorm. apply unorm_nonnil. Qed.

Lemma string_of_N_eq (n : N) :
  JSON.string_of_N n = NilEmpty.string_of_uint (N.to_uint n).
Proof.
  unfold JSON.string_of_N, NilZero.string_of_uint.
  destruct (N.to_uint n) eqn:E; try reflexivity.
  now apply to_uint_nonnil in E.
Qed.

Lemma span_digits_uint (d : Decimal.uint) (r : string) :
  head_is JSON.is_digit r = false ->
  JSON.span_digits (NilEmpty.string_of_uint d ++ r) = (NilEmpty.string_of_uint d, r).
Proof.
  intros Hr.
  induction d as [|d IH|d IH|d IH|d IH|d IH|d IH|d IH|d IH|d IH|d IH];
    try (cbn [NilEmpty.string_of_uint append JSON.span_digits];
         cbn [JSON.is_digit]; simpl JSON.code; simpl andb;
         rewrite IH; reflexivity).
  destruct r as [|c r]; [reflexivity|].
  simpl in *. now rewrite Hr.
Qed.

Lemma delimited_not_digit (r : string) :
  delimited r = true -> head_is JSON.is_digit r = false.
Proof.
  destruct r as [|c r]; [reflexivity|]. simpl.
  destruct c as [[] [] [] [] [] [] [] []]; simpl; intros H;
    try discriminate H; reflexivity.
Qed.

Lemma delimited_skip_ws (r : string) :
  delimited r = true -> JSON.skip_ws r = r.
Proof.
  destruct r as [|c r]; [reflexivity|]. simpl.
  destruct c as [[] [] [] [] [] [] [] []]; simpl; intros H;
    try discriminate H; reflexivity.
Qed.

Lemma scan_fraction_delimited (r : string) :
  delimited r = true -> JSON.scan_fraction r = Some ("", r).
Proof.
  destruct r as [|c r]; [reflexivity|]. simpl.
  destruct c as [[] [] [] [] [] [] [] []]; simpl; intros H;
    try discriminate H; reflexivity.
Qed.

Lemma scan_exponent_delimited (r : string) :
  delimited r = true -> JSON.scan_exponent r = Some ("", r).
Proof.
  destruct r as [|c r]; [reflexivity|]. simpl.
  destruct c as [[] [] [] [] [] [] [] []]; simpl; intros H;
    try discriminate H; reflexivity.
Qed.

Lemma parse_unsigned_string_of_N (minus : string) (sign : Z) (n : N) (r : string) :
  delimited r = true ->
  JSON.parse_unsigned minus sign (JSON.string_of_N n ++ r)
  = Some (VNum (sign * Z.of_N n), r).
Proof.
  intros Hr. unfold JSON.parse_unsigned.
  rewrite string_of_N_eq, span_digits_uint by now apply delimited_not_digit.
  rewrite <- string_of_N_eq. unfold JSON.string_of_N.
  rewrite NilZero.usu by apply to_uint_nonnil.
  rewrite to_uint_unorm, Decimal.internal_uint_dec_lb by reflexivity.
  rewrite scan_fraction_delimited, scan_exponent_delimited by assumption.
  cbn [append]. now rewrite DecimalN.Unsigned.of_to.
Qed.

Lemma string_of_N_head (n : N) :
  head_is JSON.is_digit (JSON.string_of_N n) = true.
Proof.
  rewrite string_of_N_eq.
  pose proof (to_uint_nonnil n) as H.
  destruct (N.to_uint n); try reflexivity. now destruct H.
Qed.

Lemma digit_not_minus (c : ascii) :
  JSON.is_digit c = true -> Ascii.eqb c "-" = false.
Proof.
  destruct c as [[] [] [] [] [] [] [] []]; simpl; intros H;
    try discriminate H; reflexivity.
Qed.

Lemma parse_number_string_of_Z (z : Z) (r : string) :
  delimited r = true ->
  JSON.parse_number (JSON.string_of_Z z ++ r) = Some (VNum z, r).
Proof.
  intros Hr. unfold JSON.string_of_Z.
  destruct (z <? 0)%Z eqn:Hz.
  - cbn [append JSON.parse_number]. simpl Ascii.eqb. cbv iota.
    rewrite parse_unsigned_string_of_N by assumption.
    f_equal. f_equal. f_equal. apply Z.ltb_lt in Hz. rewrite N2Z.inj_abs_N. lia.
  - pose proof (string_of_N_head (Z.abs_N z)) as Hh.
    pose proof (parse_unsigned_string_of_N "" 1 (Z.abs_N z) r Hr) as Hp.
    destruct (JSON.string_of_N (Z.abs_N z)) as [|c s]; [discriminate Hh|].
    simpl in Hh. cbn [append] in *. cbn [JSON.parse_number].
    rewrite (digit_not_minus c Hh), Hp.
    f_equal. f_equal. f_equal. apply Z.ltb_ge in Hz. rewrite N2Z.inj_abs_N. lia.
Qed.

Lemma string_of_Z_head (z : Z) :
  head_is (fun c => JSON.is_digit c || Ascii.eqb c "-")%bool (JSON.string_of_Z z) = true.
Proof.
  unfold JSON.string_of_Z. destruct (z <? 0)%Z; [reflexivity|].
  pose proof (string_of_N_head (Z.abs_N z)) as Hh.
  destruct (JSON.string_of_N (Z.abs_N z)); [discriminate|].
  simpl in *. now rewrite Hh.
Qed.

Lemma number_head_tests (c : ascii) :
  (JSON.is_digit c || Ascii.eqb c "-")%bool = true ->
  JSON.is_ws c = false /\ Ascii.eqb c "[" = false /\ Ascii.eqb c "{" = false /\
  Ascii.eqb c JSON.dquote = false /\ Ascii.eqb c "n" = false /\
  Ascii.eqb c "t" = false /\ Ascii.eqb c "f" = false.
Proof.
  destruct c as [[] [] [] [] [] [] [] []]; simpl; intros H;
    try discriminate H; repeat split; reflexivity.
Qed.

Lemma parse_value_number (fuel : nat) (s : string) :
  head_is (fun c => JSON.is_digit c || Ascii.eqb c "-")%bool s = true ->
  JSON.parse_value (S fuel) s = JSON.parse_number s.
Proof.
  destruct s as [|c s]; [discriminate|]. cbn [head_is]. intros Hc.
  destruct (number_head_tests c Hc) as (H1 & H2 & H3 & H4 & H5 & H6 & H7).
  cbn [JSON.parse_value JSON.skip_ws].
  now rewrite H1, H2, H3, H4, H5, H6, H7.
Qed.

(** *** Literals with a fraction or an exponent *)

Lemma span_digits_app (x ds x' r : string) :
  JSON.span_digits x = (ds, x') -> delimited r = true ->
  JSON.span_digits (x ++ r) = (ds, x' ++ r).
Proof.
  intros H Hr. revert ds x' H. induction x as [|c x IH]; intros ds x'.
  - cbn [JSON.span_digits append]. intros [= <- <-].
    apply delimited_not_digit in Hr. destruct r as [|c r]; [reflexivity|].
    cbn [JSON.span_digits head_is] in *. now rewrite Hr.
  - cbn [JSON.span_digits append]. destruct (JSON.is_digit c).
    + destruct (JSON.span_digits x) as [d y] eqn:E. intros [= <- <-].
      now rewrite (IH d y eq_refl).
    + intros [= <- <-]. reflexivity.
Qed.

Lemma scan_fraction_app (x fr x' r : string) :
  JSON.scan_fraction x = Some (fr, x') -> delimited r = true ->
  JSON.scan_fraction (x ++ r) = Some (fr, x' ++ r).
Proof.
  intros H Hr. destruct x as [|c x].
  - cbn [JSON.scan_fraction] in H. injection H as <- <-.
    cbn [append]. now apply scan_fraction_delimited.
  - cbn [JSON.scan_fraction append] in *. destruct (Ascii.eqb c ".").
    + destruct (JSON.span_digits x) as [ds y] eqn:E.
      rewrite (span_digits_app x ds y r E Hr).
      destruct ds; [discriminate|]. now injection H as <- <-.
    + now injection H as <- <-.
Qed.

Lemma scan_exponent_app (x ex x' r : string) :
  JSON.scan_exponent x = Some (ex, x') -> delimited r = true ->
  JSON.scan_exponent (x ++ r) = Some (ex, x' ++ r).
Proof.
  intros H Hr. destruct x as [|c x].
  - cbn [JSON.scan_exponent] in H. injection H as <- <-.
    cbn [append]. now apply scan_exponent_delimited.
  - cbn [JSON.scan_exponent append] in *.
    destruct (Ascii.eqb c "e" || Ascii.eqb c "E")%bool; [|now injection H as <- <-].
    destruct x as [|g x]; [discriminate|]. cbn [append].
    destruct (Ascii.eqb g "+" || Ascii.eqb g "-")%bool.
    + destruct (JSON.span_digits x) as [ds y] eqn:E.
      rewrite (span_digits_app x ds y r E Hr).
      destruct ds; [discriminate|]. now injection H as <- <-.
    + destruct (JSON.span_digits (String g x)) as [ds y] eqn:E.
      change (String g (x ++ r)) with (String g x ++ r).
      rewrite (span_digits_app (String g x) ds y r E Hr).
      destruct ds; [discriminate|]. now injection H as <- <-.
Qed.

Lemma parse_unsigned_app (minus : string) (sign : Z) (x : string) (v : value)
  (x' r : string) :
  JSON.parse_unsigned minus sign x = Some (v, x') -> delimited r = true ->
  JSON.parse_unsigned minus sign (x ++ r) = Some (v, x' ++ r).
Proof.
  unfold JSON.parse_unsigned. intros H Hr.
  destruct (JSON.span_digits x) as [ds y] eqn:E.
  rewrite (span_digits_app x ds y r E Hr).
  destruct (NilZero.uint_of_string ds) as [d|]; [|discriminate].
  destruct (Decimal.uint_beq (Decimal.unorm d) d); [|discriminate].
  destruct (JSON.scan_fraction y) as [[fr y1]|] eqn:E1; [|discriminate].
  rewrite (scan_fraction_app y fr y1 r E1 Hr).
  destruct (JSON.scan_exponent y1) as [[ex y2]|] eqn:E2; [|discriminate].
  rewrite (scan_exponent_app y1 ex y2 r E2 Hr).
  destruct (fr ++ ex); now injection H as <- <-.
Qed.

Lemma parse_number_app (x : string) (v : value) (x' r : string) :
  JSON.parse_number x = Some (v, x') -> delimited r = true ->
  JSON.parse_number (x ++ r) = Some (v, x' ++ r).
Proof.
  destruct x as [|c x]; [discriminate|]. cbn [JSON.parse_number append].
  destruct (Ascii.eqb c "-"); intros H Hr.
  - now apply parse_unsigned_app.
  - change (String c (x ++ r)) with (String c x ++ r). now apply parse_unsigned_app.
Qed.

Lemma parse_unsigned_head (minus : string) (sign : Z) (x : string) (v : value)
  (x' : string) :
  JSON.parse_unsigned minus sign x = Some (v, x') ->
  head_is JSON.is_digit x = true.
Proof.
  unfold JSON.parse_unsigned. destruct x as [|c x]; [discriminate|].
  cbn [JSON.span_digits head_is]. destruct (JSON.is_digit c); [reflexivity|].
  discriminate.
Qed.

Lemma parse_number_head (x : string) (v : value) (x' : string) :
  JSON.parse_number x = Some (v, x') ->
  head_is (fun c => JSON.is_digit c || Ascii.eqb c "-")%bool x = true.
Proof.
  destruct x as [|c x]; [discriminate|]. cbn [JSON.parse_number head_is].
  destruct (Ascii.eqb c "-"); [intros _; apply orb_true_r|].
  intros H. apply parse_unsigned_head in H. cbn [head_is] in H. now rewrite H.
Qed.

(** ** Values *)

Lemma head_is_append (p : ascii -> bool) (a r : string) :
  head_is p a = true -> head_is p (a ++ r) = true.
Proof. destruct a; [discriminate | trivial]. Qed.

Lemma number_head_starter (s : string) :
  head_is (fun c => JSON.is_digit c || Ascii.eqb c "-")%bool s = true ->
  head_is starter s = true.
Proof.
  destruct s as [|c s]; [discriminate|]. cbn [head_is]. unfold starter. intros H.
  apply orb_true_iff in H. destruct H as [H|H]; rewrite H; [reflexivity|].
  now rewrite orb_true_r.
Qed.

Lemma stringify_head (v : value) : wf v -> head_is starter (JSON.stringify v) = true.
Proof.
  destruct v as [|[]|n|d|s|l|fs]; try reflexivity; intros Hwf.
  - apply number_head_starter, string_of_Z_head.
  - cbn [wf] in Hwf. cbn [JSON.stringify].
    eapply number_head_starter, parse_number_head, Hwf.
Qed.

Lemma starter_tests (c : ascii) :
  starter c = true ->
  JSON.is_ws c = false /\ Ascii.eqb c "]" = false /\ Ascii.eqb c "}" = false.
Proof.
  destruct c as [[] [] [] [] [] [] [] []]; simpl; intros H;
    try discriminate H; repeat split; reflexivity.
Qed.

Lemma parse_value_literals (fuel : nat) (r : string) :
  JSON.parse_value (S fuel) ("null" ++ r) = Some (VNull, r) /\
  JSON.parse_value (S fuel) ("true" ++ r) = Some (VBool true, r) /\
  JSON.parse_value (S fuel) ("false" ++ r) = Some (VBool false, r).
Proof. repeat split; reflexivity. Qed.

Lemma parse_value_string (fuel : nat) (r : string) :
  JSON.parse_value (S fuel) (String JSON.dquote r)
  = match JSON.parse_chars r with
    | Some (l, r') => Some (VStr (JSON.decode_items l), r')
    | None => None
    end.
Proof. reflexivity. Qed.

Lemma parse_value_array (fuel : nat) (r : string) :
  JSON.parse_value (S fuel) (String "[" r)
  = match JSON.skip_ws r with
    | String c' r' =>
        if Ascii.eqb c' "]" then Some (VArr [], r')
        else match JSON.parse_elements (JSON.parse_value fuel) fuel r with
             | Some (vs, r'') => Some (VArr vs, r'')
             | None => None
             end
    | EmptyString => None
    end.
Proof. reflexivity. Qed.

Lemma parse_value_object (fuel : nat) (r : string) :
  JSON.parse_value (S fuel) (String "{" r)
  = match JSON.skip_ws r with
    | String c' r' =>
        if Ascii.eqb c' "}" then Some (VObj [], r')
        else match JSON.parse_members (JSON.parse_value fuel) fuel r with
             | Some (ms, r'') => Some (JSON.build_object ms, r'')
             | None => None
             end
    | EmptyString => None
    end.
Proof. reflexivity. Qed.

Lemma parse_elements_join (pv : string -> option (value * string)) :
  forall (l : list value) (x : value) (n : nat) (r : string),
    List.length (x :: l) <= n ->
    Forall (reads_back pv) (x :: l) ->
    JSON.parse_elements pv n (JSON.join (map JSON.stringify (x :: l)) ++ String "]" r)
    = Some (x :: l, r).
Proof.
  induction l as [|y l IH]; intros x n r Hn Hall.
  - destruct n as [|n]; [simpl in Hn; lia|].
    inversion Hall as [|? ? Hx _]; subst.
    cbn [map JSON.join JSON.parse_elements].
    rewrite (Hx (String "]" r)) by reflexivity. reflexivity.
  - destruct n as [|n]; [simpl in Hn; lia|].
    inversion Hall as [|? ? Hx Hl]; subst.
    change (JSON.join (map JSON.stringify (x :: y :: l)))
      with (JSON.stringify x ++ String "," (JSON.join (map JSON.stringify (y :: l)))).
    rewrite append_assoc. cbn [append JSON.parse_elements].
    rewrite (Hx (String "," _)) by reflexivity.
    cbn [JSON.skip_ws]. change (JSON.is_ws ",") with false. cbv iota.
    change (Ascii.eqb "," ",") with true. cbv iota.
    rewrite IH; [reflexivity | simpl in *; lia | assumption].
Qed.

Lemma parse_members_join (pv : string -> option (value * string)) :
  forall (fs : list (string * value)) (kv : string * value) (n : nat) (r : string),
    List.length (kv :: fs) <= n ->
    Forall (fun kv => reads_back pv (snd kv)) (kv :: fs) ->
    JSON.parse_members pv n (JSON.join (map member (kv :: fs)) ++ String "}" r)
    = Some (kv :: fs, r).
Proof.
  induction fs as [|kv' fs IH]; intros [k v] n r Hn Hall.
  - destruct n as [|n]; [simpl in Hn; lia|].
    inversion Hall as [|? ? Hx _]; subst. cbn [snd] in Hx.
    cbn [map JSON.join]. unfold member. cbn [fst snd].
    rewrite append_assoc, quote_append. cbn [append].
    cbn [JSON.parse_members JSON.skip_ws].
    change (JSON.is_ws JSON.dquote) with false. cbv iota.
    change (Ascii.eqb JSON.dquote JSON.dquote) with true. cbv iota.
    rewrite parse_chars_escape, decode_items_of.
    cbn [JSON.skip_ws]. change (JSON.is_ws ":") with false. cbv iota.
    change (Ascii.eqb ":" ":") with true. cbv iota.
    rewrite (Hx (String "}" r)) by reflexivity. reflexivity.
  - destruct n as [|n]; [simpl in Hn; lia|].
    inversion Hall as [|? ? Hx Hl]; subst. cbn [snd] in Hx.
    change (JSON.join (map member ((k, v) :: kv' :: fs)))
      with (member (k, v) ++ String "," (JSON.join (map member (kv' :: fs)))).
    unfold member at 1. cbn [fst snd].
    rewrite !append_assoc, quote_append. cbn [append].
    cbn [JSON.parse_members JSON.skip_ws].
    change (JSON.is_ws JSON.dquote) with false. cbv iota.
    change (Ascii.eqb JSON.dquote JSON.dquote) with true. cbv iota.
    rewrite parse_chars_escape, decode_items_of.
    cbn [JSON.skip_ws]. change (JSON.is_ws ":") with false. cbv iota.
    change (Ascii.eqb ":" ":") with true. cbv iota.
    rewrite (Hx (String "," _)) by reflexivity.
    cbn [JSON.skip_ws]. change (JSON.is_ws ",") with false. cbv iota.
    change (Ascii.eqb "," ",") with true. cbv iota.
    rewrite IH; [reflexivity | simpl in *; lia | assumption].
Qed.

Lemma obj_set_fresh (k : string) (v : value) (acc : list (string * value)) :
  ~ In k (map fst acc) -> JSON.obj_set k v acc = (acc ++ [(k, v)])%list.
Proof.
  induction acc as [|[k' v'] acc IH]; intros Hk; [reflexivity|].
  cbn [JSON.obj_set]. simpl in Hk.
  destruct (String.eqb_spec k' k) as [->|Hne]; [tauto|].
  rewrite IH by tauto. reflexivity.
Qed.

Lemma fold_obj_set_nodup (fs acc : list (string * value)) :
  NoDup (map fst (acc ++ fs)%list) ->
  fold_left (fun a kv => JSON.obj_set (fst kv) (snd kv) a) fs acc = (acc ++ fs)%list.
Proof.
  revert acc. induction fs as [|[k v] fs IH]; intros acc Hnd.
  - now rewrite List.app_nil_r.
  - cbn [fold_left fst snd]. rewrite obj_set_fresh.
    + rewrite IH; rewrite <- List.app_assoc; [reflexivity | exact Hnd].
    + rewrite map_app in Hnd. cbn [map fst] in Hnd.
      apply NoDup_remove_2 in Hnd. intros Hin. apply Hnd.
      apply in_or_app. now left.
Qed.

Lemma build_object_nodup (fs : list (string * value)) :
  NoDup (map fst fs) -> JSON.build_object fs = VObj fs.
Proof.
  intros H. unfold JSON.build_object. now rewrite fold_obj_set_nodup.
Qed.

Lemma wf_VArr (l : list value) : wf (VArr l) <-> Forall wf l.
Proof.
  induction l as [|x l IH].
  - split; [constructor | intros _; exact I].
  - split.
    + intros [Hx Hl]. constructor; [exact Hx | now apply IH].
    + intros H. inversion H; subst. split; [assumption | now apply IH].
Qed.

Lemma wf_VObj (fs : list (string * value)) :
  wf (VObj fs) <-> NoDup (map fst fs) /\ Forall (fun kv => wf (snd kv)) fs.
Proof.
  cbn [wf]. apply and_iff_compat_l.
  induction fs as [|[k x] fs IH].
  - split; [constructor | intros _; exact I].
  - split.
    + intros [Hx Hl]. constructor; [exact Hx | now apply IH].
    + intros H. inversion H; subst. split; [assumption | now apply IH].
Qed.

Lemma size_pos (v : value) : 1 <= size v.
Proof. destruct v; simpl; lia. Qed.

Lemma size_items (l : list value) :
  List.length l <= fold_right (fun x n => size x + n) 0 l /\
  Forall (fun x => size x <= fold_right (fun x n => size x + n) 0 l) l.
Proof.
  induction l as [|x l [IH1 IH2]]; [split; [simpl; lia | constructor]|].
  pose proof (size_pos x). cbn [fold_right List.length]. split; [lia|].
  constructor; [lia|]. eapply Forall_impl; [|exact IH2]. simpl. intros; lia.
Qed.

Lemma size_fields (fs : list (string * value)) :
  List.length fs <= fold_right (fun kx n => size (snd kx) + n) 0 fs /\
  Forall (fun kx => size (snd kx) <= fold_right (fun kx n => size (snd kx) + n) 0 fs) fs.
Proof.
  induction fs as [|x l [IH1 IH2]]; [split; [simpl; lia | constructor]|].
  pose proof (size_pos (snd x)). cbn [fold_right List.length]. split; [lia|].
  constructor; [lia|]. eapply Forall_impl; [|exact IH2]. simpl. intros; lia.
Qed.

Lemma head_starter_skip (a r : string) :
  head_is starter a = true ->
  exists c s, a ++ r = String c s /\ JSON.skip_ws (a ++ r) = String c s /\
              Ascii.eqb c "]" = false /\ Ascii.eqb c "}" = false.
Proof.
  destruct a as [|c a]; [discriminate|]. cbn [head_is]. intros H.
  destruct (starter_tests c H) as (H1 & H2 & H3).
  exists c, (a ++ r). cbn [append JSON.skip_ws]. rewrite H1. auto.
Qed.

Lemma join_head {A} (f : A -> string) (x : A) (l : list A) :
  head_is starter (f x) = true ->
  head_is starter (JSON.join (map f (x :: l))) = true.
Proof.
  intros H. destruct l as [|y l]; [exact H|].
  change (JSON.join (map f (x :: y :: l)))
    with (f x ++ String "," (JSON.join (map f (y :: l)))).
  now apply head_is_append.
Qed.

Lemma parse_value_stringify (v : value) :
  wf v ->
  forall (fuel : nat) (r : string),
    size v <= fuel -> delimited r = true ->
    JSON.parse_value fuel (JSON.stringify v ++ r) = Some (v, r).
Proof.
  induction v as [|b|n|d|s|l IH|fs IH] using value_rect_nested;
    intros Hwf fuel r Hfuel Hr;
    (destruct fuel as [|fuel]; [pose proof (size_pos VNull); simpl in Hfuel; lia|]).
  - apply parse_value_literals.
  - destruct b; apply parse_value_literals.
  - rewrite parse_value_number by apply head_is_append, string_of_Z_head.
    now apply parse_number_string_of_Z.
  - cbn [wf] in Hwf. cbn [JSON.stringify].
    rewrite parse_value_number by (eapply head_is_append, parse_number_head, Hwf).
    now rewrite (parse_number_app d (VDec d) "" r Hwf Hr).
  - cbn [JSON.stringify]. rewrite quote_append, parse_value_string.
    now rewrite parse_chars_escape, decode_items_of.
  - cbn [JSON.stringify append]. rewrite append_assoc. cbn [append].
    rewrite parse_value_array.
    destruct l as [|x l]; [reflexivity|].
    destruct (head_starter_skip (JSON.join (map JSON.stringify (x :: l))) (String "]" r))
      as (c & s & _ & -> & Hc & _).
    { apply join_head, stringify_head.
      apply wf_VArr in Hwf. now inversion Hwf. }
    rewrite Hc, parse_elements_join; [reflexivity | |].
    + pose proof (proj1 (size_items (x :: l))).
      change (size (VArr (x :: l)))
        with (S (fold_right (fun x n => size x + n) 0 (x :: l))) in Hfuel. lia.
    + apply wf_VArr in Hwf.
      pose proof (proj2 (size_items (x :: l))) as Hs.
      change (size (VArr (x :: l)))
        with (S (fold_right (fun x n => size x + n) 0 (x :: l))) in Hfuel.
      rewrite Forall_forall in IH, Hwf, Hs. apply Forall_forall.
      intros y Hy r' Hr'.
      apply IH; auto. specialize (Hs y Hy). lia.
  - cbn [JSON.stringify append]. rewrite append_assoc. cbn [append].
    rewrite parse_value_object.
    destruct fs as [|kv fs]; [reflexivity|].
    apply wf_VObj in Hwf. destruct Hwf as [Hnd Hwf].
    destruct (head_starter_skip (JSON.join (map member (kv :: fs))) (String "}" r))
      as (c & s & _ & Hsk & _ & Hc).
    { apply (join_head member). reflexivity. }
    change (fun kv : string * value =>
              JSON.quote (fst kv) ++ String ":" (JSON.stringify (snd kv))) with member.
    rewrite Hsk, Hc, parse_members_join.
    + now rewrite build_object_nodup.
    + pose proof (proj1 (size_fields (kv :: fs))).
      change (size (VObj (kv :: fs)))
        with (S (fold_right (fun kx n => size (snd kx) + n) 0 (kv :: fs))) in Hfuel. lia.
    + pose proof (proj2 (size_fields (kv :: fs))) as Hs.
      change (size (VObj (kv :: fs)))
        with (S (fold_right (fun kx n => size (snd kx) + n) 0 (kv :: fs))) in Hfuel.
      rewrite Forall_forall in IH, Hwf, Hs. apply Forall_forall.
      intros y Hy r' Hr'.
      apply IH; auto. specialize (Hs y Hy). lia.
Qed.

Lemma join_length_ge {A} (f : A -> string) (g : A -> nat) (l : list A) :
  Forall (fun x => g x <= String.length (f x)) l ->
  fold_right (fun x n => g x + n) 0 l <= String.length (JSON.join (map f l)).
Proof.
  induction l as [|x l IH]; intros H; [simpl; lia|].
  inversion H as [|? ? Hx Hl]; subst. specialize (IH Hl).
  destruct l as [|y l]; [simpl in *; lia|].
  change (JSON.join (map f (x :: y :: l)))
    with (f x ++ String "," (JSON.join (map f (y :: l)))).
  rewrite length_append. cbn [fold_right String.length] in *. lia.
Qed.

Lemma size_le_length (v : value) :
  wf v -> size v <= String.length (JSON.stringify v).
Proof.
  induction v as [|b|n|d|s|l IH|fs IH] using value_rect_nested; intros Hwf.
  - simpl; lia.
  - destruct b; simpl; lia.
  - pose proof (string_of_Z_head n). cbn [JSON.stringify size].
    destruct (JSON.string_of_Z n); [discriminate | simpl; lia].
  - pose proof (stringify_head (VDec d) Hwf). cbn [JSON.stringify size] in *.
    destruct d; [discriminate | simpl; lia].
  - simpl; lia.
  - cbn [JSON.stringify size String.length]. rewrite length_append.
    apply wf_VArr in Hwf.
    assert (Forall (fun x => size x <= String.length (JSON.stringify x)) l) as Hl.
    { rewrite Forall_forall in *. auto. }
    pose proof (join_length_ge JSON.stringify size l Hl). simpl String.length. lia.
  - cbn [JSON.stringify size String.length]. rewrite length_append.
    pose proof (join_length_ge member (fun kv => size (snd kv)) fs) as H.
    change (fun kv : string * value =>
              JSON.quote (fst kv) ++ String ":" (JSON.stringify (snd kv))) with member.
    simpl String.length. apply wf_VObj in Hwf. destruct Hwf as [_ Hwf].
    assert (Forall (fun x => size (snd x) <= String.length (member x)) fs) as Hm.
    { rewrite Forall_forall in *. intros [k x] Hx. unfold member.
      specialize (IH _ Hx (Hwf _ Hx)).
      cbn [fst snd] in *. rewrite length_append. cbn [String.length]. lia. }
    specialize (H Hm). lia.
Qed.

(** [JSON.parse(JSON.stringify(v))] is [v]. *)
Lemma parse_stringify (v : value) : wf v -> JSON.parse (JSON.stringify v) = Some v.
Proof.
  intros Hwf. unfold JSON.parse.
  pose proof (parse_value_stringify v Hwf
                (S (String.length (JSON.stringify v))) "") as H.
  rewrite append_empty_r in H. rewrite H; [reflexivity | | reflexivity].
  pose proof (size_le_length v Hwf). lia.
Qed.

Example parse_numbers :
  JSON.parse " [1, 2.5, -3e5, 0, -0, true, null, []] "
  = Some (VArr [VNum 1; VDec "2.5"; VDec "-3e5"; VNum 0; VNum 0; VBool true; VNull;
                VArr []]).
Proof. vm_compute. reflexivity. Qed.

Example parse_refuses :
  map JSON.parse ["{"; "1."; "1e"; "01"; ".5"; "[1,]"; "[1 2]"; "nul"; "{}x"; ""]
  = [None; None; None; None; None; None; None; None; None; None].
Proof. vm_compute. reflexivity. Qed.

Example stringify_example :
  JSON.parse (JSON.stringify (VObj [("temperature", VDec "0.7");
                                    ("stop", VArr [VStr "a b"; VNull]);
                                    ("n", VNum (-12))]))
  = Some (VObj [("temperature", VDec "0.7"); ("stop", VArr [VStr "a b"; VNull]);
                ("n", VNum (-12))]).
Proof. vm_compute. reflexivity. Qed.

(** ** The fuel of the parser is never used up *)

Lemma skip_ws_length (s : string) : String.length (JSON.skip_ws s) <= String.length s.
Proof.
  induction s as [|c s IH]; [reflexivity|].
  cbn [JSON.skip_ws]. destruct (JSON.is_ws c); cbn [String.length]; lia.
Qed.

Lemma strip_prefix_length (p s r : string) :
  JSON.strip_prefix p s = Some r -> String.length r <= String.length s.
Proof.
  revert s. induction p as [|a p IH]; intros s; cbn [JSON.strip_prefix].
  - intros [= <-]. lia.
  - destruct s as [|b s]; [discriminate|]. destruct (Ascii.eqb a b); [|discriminate].
    intros H. apply IH in H. cbn [String.length]. lia.
Qed.

Lemma cons_item_length (i : JSON.item) (x : option (list JSON.item * string))
  (l : list JSON.item) (r : string) (n : nat) :
  JSON.cons_item i x = Some (l, r) ->
  (forall l' r', x = Some (l', r') -> String.length r' < n) ->
  String.length r < n.
Proof.
  destruct x as [[l' r']|]; [|discriminate]. cbn [JSON.cons_item].
  intros [= _ <-] H. now apply (H l').
Qed.

Lemma parse_chars_length (s : string) :
  forall l r, JSON.parse_chars s = Some (l, r) -> String.length r < String.length s.
Proof.
  induction s as [s IH] using (well_founded_induction
                                 (Wf_nat.well_founded_ltof _ String.length)).
  unfold Wf_nat.ltof in IH.
  destruct s as [|c s]; [discriminate|]. intros l r. cbn [JSON.parse_chars String.length].
  destruct (Ascii.eqb c JSON.dquote); [intros [= _ <-]; lia|].
  destruct (Ascii.eqb c JSON.bslash).
  - destruct s as [|e r1]; [discriminate|].
    destruct (Ascii.eqb e "u").
    + destruct r1 as [|h1 [|h2 [|h3 [|h4 r2]]]]; try discriminate.
      destruct (JSON.hex4 h1 h2 h3 h4); [|discriminate].
      intros H. cbn [String.length].
      apply (cons_item_length _ _ _ _ (S (String.length r2))) in H; [lia|].
      intros l' r' H'. apply IH in H'; cbn [String.length]; lia.
    + destruct (JSON.unescape e); [|discriminate].
      intros H. cbn [String.length].
      apply (cons_item_length _ _ _ _ (S (String.length r1))) in H; [lia|].
      intros l' r' H'. apply IH in H'; cbn [String.length]; lia.
  - destruct (JSON.code c <? 32)%N; [discriminate|].
    intros H. apply (cons_item_length _ _ _ _ (S (String.length s))) in H; [lia|].
    intros l' r' H'. apply IH in H'; cbn [String.length]; lia.
Qed.

Lemma span_digits_length (s ds r : string) :
  JSON.span_digits s = (ds, r) ->
  String.length s = String.length ds + String.length r.
Proof.
  revert ds r. induction s as [|c s IH]; intros ds r; cbn [JSON.span_digits].
  - intros [= <- <-]. reflexivity.
  - destruct (JSON.is_digit c).
    + destruct (JSON.span_digits s) as [d r'] eqn:E. intros [= <- <-].
      cbn [String.length]. rewrite (IH d r' eq_refl). reflexivity.
    + intros [= <- <-]. reflexivity.
Qed.

Lemma scan_fraction_length (s fr r : string) :
  JSON.scan_fraction s = Some (fr, r) -> String.length r <= String.length s.
Proof.
  destruct s as [|c s]; cbn [JSON.scan_fraction]; [intros [= _ <-]; lia|].
  destruct (Ascii.eqb c "."); [|intros [= _ <-]; lia].
  destruct (JSON.span_digits s) as [ds r'] eqn:E. apply span_digits_length in E.
  destruct ds; [discriminate|]. intros [= _ <-]. cbn [String.length] in *. lia.
Qed.

Lemma scan_exponent_length (s ex r : string) :
  JSON.scan_exponent s = Some (ex, r) -> String.length r <= String.length s.
Proof.
  destruct s as [|c s]; cbn [JSON.scan_exponent]; [intros [= _ <-]; lia|].
  destruct (Ascii.eqb c "e" || Ascii.eqb c "E")%bool; [|intros [= _ <-]; lia].
  destruct s as [|g s]; [discriminate|].
  destruct (Ascii.eqb g "+" || Ascii.eqb g "-")%bool.
  - destruct (JSON.span_digits s) as [ds r'] eqn:E. apply span_digits_length in E.
    destruct ds; [discriminate|]. intros [= _ <-]. cbn [String.length] in *. lia.
  - destruct (JSON.span_digits (String g s)) as [ds r'] eqn:E.
    apply span_digits_length in E.
    destruct ds; [discriminate|]. intros [= _ <-]. cbn [String.length] in *. lia.
Qed.

Lemma parse_unsigned_length (minus : string) (sign : Z) (s : string) (v : value)
  (r : string) :
  JSON.parse_unsigned minus sign s = Some (v, r) -> String.length r < String.length s.
Proof.
  unfold JSON.parse_unsigned. destruct (JSON.span_digits s) as [ds r'] eqn:E.
  apply span_digits_length in E.
  destruct ds as [|c ds]; [discriminate|].
  destruct (NilZero.uint_of_string (String c ds)); [|discriminate].
  destruct (Decimal.uint_beq _ _); [|discriminate].
  destruct (JSON.scan_fraction r') as [[fr r1]|] eqn:E1; [|discriminate].
  apply scan_fraction_length in E1.
  destruct (JSON.scan_exponent r1) as [[ex r2]|] eqn:E2; [|discriminate].
  apply scan_exponent_length in E2.
  cbn [String.length] in E.
  destruct (fr ++ ex); intros [= _ <-]; lia.
Qed.

Lemma parse_number_length (s : string) (v : value) (r : string) :
  JSON.parse_number s = Some (v, r) -> String.length r < String.length s.
Proof.
  destruct s as [|c s]; [discriminate|]. cbn [JSON.parse_number].
  destruct (Ascii.eqb c "-"); intros H; apply parse_unsigned_length in H.
  - cbn [String.length]. lia.
  - exact H.
Qed.

Lemma skip_ws_cons_length (s : string) (c : ascii) (r : string) :
  JSON.skip_ws s = String c r -> String.length r < String.length s.
Proof.
  intros H. pose proof (skip_ws_length s) as L. rewrite H in L.
  cbn [String.length] in L. lia.
Qed.

Section LoopLengths.
Variable pv : string -> option (value * string).

Hypothesis pv_consumes :
  forall t v r, pv t = Some (v, r) -> String.length r < String.length t.

Lemma parse_elements_length (n : nat) :
  forall s vs r,
    JSON.parse_elements pv n s = Some (vs, r) -> String.length r < String.length s.
Proof.
  induction n as [|n IH]; intros s vs r; [discriminate|].
  cbn [JSON.parse_elements].
  destruct (pv s) as [[v r1]|] eqn:E1; [|discriminate]. apply pv_consumes in E1.
  destruct (JSON.skip_ws r1) as [|c r2] eqn:E2; [discriminate|].
  apply skip_ws_cons_length in E2.
  destruct (Ascii.eqb c ",").
  - destruct (JSON.parse_elements pv n r2) as [[vs' r3]|] eqn:E3; [|discriminate].
    intros [= _ <-]. apply IH in E3. lia.
  - destruct (Ascii.eqb c "]"); [|discriminate]. intros [= _ <-]. lia.
Qed.

Lemma parse_members_length (n : nat) :
  forall s ms r,
    JSON.parse_members pv n s = Some (ms, r) -> String.length r < String.length s.
Proof.
  induction n as [|n IH]; intros s ms r; [discriminate|].
  cbn [JSON.parse_members].
  destruct (JSON.skip_ws s) as [|q r0] eqn:E0; [discriminate|].
  apply skip_ws_cons_length in E0.
  destruct (Ascii.eqb q JSON.dquote); [|discriminate].
  destruct (JSON.parse_chars r0) as [[l r1]|] eqn:E1; [|discriminate].
  apply parse_chars_length in E1.
  destruct (JSON.skip_ws r1) as [|c1 r2] eqn:E2; [discriminate|].
  apply skip_ws_cons_length in E2.
  destruct (Ascii.eqb c1 ":"); [|discriminate].
  destruct (pv r2) as [[v r3]|] eqn:E3; [|discriminate]. apply pv_consumes in E3.
  destruct (JSON.skip_ws r3) as [|c3 r4] eqn:E4; [discriminate|].
  apply skip_ws_cons_length in E4.
  destruct (Ascii.eqb c3 ",").
  - destruct (JSON.parse_members pv n r4) as [[ms' r5]|] eqn:E5; [|discriminate].
    intros [= _ <-]. apply IH in E5. lia.
  - destruct (Ascii.eqb c3 "}"); [|discriminate]. intros [= _ <-]. lia.
Qed.
End LoopLengths.

Lemma parse_value_length (fuel : nat) :
  forall s v r,
    JSON.parse_value fuel s = Some (v, r) -> String.length r < String.length s.
Proof.
  induction fuel as [|fuel IH]; intros s v r; [discriminate|].
  cbn [JSON.parse_value].
  destruct (JSON.skip_ws s) as [|c r0] eqn:E0; [discriminate|].
  pose proof (skip_ws_length s) as L0. rewrite E0 in L0. cbn [String.length] in L0.
  destruct (Ascii.eqb c "[").
  { destruct (JSON.skip_ws r0) as [|c' r'] eqn:E1; [discriminate|].
    apply skip_ws_cons_length in E1.
    destruct (Ascii.eqb c' "]"); [intros [= _ <-]; lia|].
    destruct (JSON.parse_elements _ fuel r0) as [[vs r1]|] eqn:E2; [|discriminate].
    intros [= _ <-]. apply (parse_elements_length _ IH) in E2. lia. }
  destruct (Ascii.eqb c "{").
  { destruct (JSON.skip_ws r0) as [|c' r'] eqn:E1; [discriminate|].
    apply skip_ws_cons_length in E1.
    destruct (Ascii.eqb c' "}"); [intros [= _ <-]; lia|].
    destruct (JSON.parse_members _ fuel r0) as [[ms r1]|] eqn:E2; [|discriminate].
    intros [= _ <-]. apply (parse_members_length _ IH) in E2. lia. }
  destruct (Ascii.eqb c JSON.dquote).
  { destruct (JSON.parse_chars r0) as [[l r1]|] eqn:E1; [|discriminate].
    intros [= _ <-]. apply parse_chars_length in E1. lia. }
  destruct (Ascii.eqb c "n").
  { destruct (JSON.strip_prefix "ull" r0) as [r1|] eqn:E1; [|discriminate].
    intros [= _ <-]. apply strip_prefix_length in E1. lia. }
  destruct (Ascii.eqb c "t").
  { destruct (JSON.strip_prefix "rue" r0) as [r1|] eqn:E1; [|discriminate].
    intros [= _ <-]. apply strip_prefix_length in E1. lia. }
  destruct (Ascii.eqb c "f").
  { destruct (JSON.strip_prefix "alse" r0) as [r1|] eqn:E1; [|discriminate].
    intros [= _ <-]. apply strip_prefix_length in E1. lia. }
  intros H. apply parse_number_length in H. cbn [String.length] in H. lia.
Qed.

Section LoopFuel.
Variables pv pv' : string -> option (value * string).
Variable m : nat.

Hypothesis pv_agree : forall t, String.length t <= m -> pv' t = pv t.
Hypothesis pv_consumes :
  forall t v r, pv t = Some (v, r) -> String.length r < String.length t.

Lemma parse_elements_fuel (n : nat) :
  forall n' s,
    String.length s <= m -> String.length s < n -> String.length s < n' ->
    JSON.parse_elements pv' n' s = JSON.parse_elements pv n s.
Proof.
  induction n as [|n IH]; intros n' s Hm Hn Hn'; [lia|].
  destruct n' as [|n']; [lia|]. cbn [JSON.parse_elements].
  rewrite pv_agree by exact Hm.
  destruct (pv s) as [[v r1]|] eqn:E1; [|reflexivity]. apply pv_consumes in E1.
  destruct (JSON.skip_ws r1) as [|c r2] eqn:E2; [reflexivity|].
  apply skip_ws_cons_length in E2.
  destruct (Ascii.eqb c ","); [|reflexivity].
  rewrite (IH n' r2); [reflexivity | lia | lia | lia].
Qed.

Lemma parse_members_fuel (n : nat) :
  forall n' s,
    String.length s <= m -> String.length s < n -> String.length s < n' ->
    JSON.parse_members pv' n' s = JSON.parse_members pv n s.
Proof.
  induction n as [|n IH]; intros n' s Hm Hn Hn'; [lia|].
  destruct n' as [|n']; [lia|]. cbn [JSON.parse_members].
  destruct (JSON.skip_ws s) as [|q r0] eqn:E0; [reflexivity|].
  apply skip_ws_cons_length in E0.
  destruct (Ascii.eqb q JSON.dquote); [|reflexivity].
  destruct (JSON.parse_chars r0) as [[l r1]|] eqn:E1; [|reflexivity].
  apply parse_chars_length in E1.
  destruct (JSON.skip_ws r1) as [|c1 r2] eqn:E2; [reflexivity|].
  apply skip_ws_cons_length in E2.
  destruct (Ascii.eqb c1 ":"); [|reflexivity].
  rewrite pv_agree by lia.
  destruct (pv r2) as [[v r3]|] eqn:E3; [|reflexivity]. apply pv_consumes in E3.
  destruct (JSON.skip_ws r3) as [|c3 r4] eqn:E4; [reflexivity|].
  apply skip_ws_cons_length in E4.
  destruct (Ascii.eqb c3 ","); [|reflexivity].
  rewrite (IH n' r4); [reflexivity | lia | lia | lia].
Qed.
End LoopFuel.

Lemma parse_value_stable (fuel : nat) :
  forall fuel' s,
    String.length s < fuel -> fuel <= fuel' ->
    JSON.parse_value fuel' s = JSON.parse_value fuel s.
Proof.
  induction fuel as [|fuel IH]; intros fuel' s Hs Hf; [lia|].
  destruct fuel' as [|fuel']; [lia|]. cbn [JSON.parse_value].
  destruct (JSON.skip_ws s) as [|c r0] eqn:E0; [reflexivity|].
  apply skip_ws_cons_length in E0.
  destruct (Ascii.eqb c "[").
  { destruct (JSON.skip_ws r0) as [|c' r'] eqn:E1; [reflexivity|].
    destruct (Ascii.eqb c' "]"); [reflexivity|].
    rewrite (parse_elements_fuel (JSON.parse_value fuel) (JSON.parse_value fuel')
               (String.length r0)) with (n := fuel);
      [reflexivity | | | | |]; try lia.
    - intros t Ht. apply IH; lia.
    - apply parse_value_length. }
  destruct (Ascii.eqb c "{"); [|reflexivity].
  destruct (JSON.skip_ws r0) as [|c' r'] eqn:E1; [reflexivity|].
  destruct (Ascii.eqb c' "}"); [reflexivity|].
  rewrite (parse_members_fuel (JSON.parse_value fuel) (JSON.parse_value fuel')
             (String.length r0)) with (n := fuel);
    [reflexivity | | | | |]; try lia.
  - intros t Ht. apply IH; lia.
  - apply parse_value_length.
Qed.

(** With any fuel above the length of the text the parser gives the
    result [JSON.parse] is defined by: a text it refuses is refused for
    its syntax. *)
Lemma parse_fuel_adequate (s : string) (fuel : nat) :
  String.length s < fuel ->
  JSON.parse_value fuel s = JSON.parse_value (S (String.length s)) s.
Proof. intros H. apply parse_value_stable; lia. Qed.

(* ================================================================== *)
(** * Ingestion as a plan *)
(* ================================================================== *)

(** A loop of creates, against the rows it is to insert. *)
Section LoopOfCreates.
Context {A D : Type}.
Variable g : string.
Variable body : A -> M unit.
Variable rows : A -> option (list D).
Variable insert : Store -> D -> Store.

Hypothesis insert_graphs : forall st d, graphs (insert st d) = graphs st.

Hypothesis body_spec :
  forall x st st',
    body x st = (st', Return tt) <->
    exists ds, rows x = Some ds /\ accepts g st ds /\ st' = fold_left insert ds st.

Lemma fold_insert_graphs (ds : list D) (st : Store) :
  graphs (fold_left insert ds st) = graphs st.
Proof.
  revert st. induction ds as [|d ds IH]; intros st; [reflexivity|].
  cbn [fold_left]. now rewrite IH, insert_graphs.
Qed.

Lemma fold_insert_exists (ds : list D) (st : Store) :
  graph_exists g (fold_left insert ds st) = graph_exists g st.
Proof. unfold graph_exists. now rewrite fold_insert_graphs. Qed.

Lemma for_of_spec (l : list A) :
  forall st st',
    for_of l body st = (st', Return tt) <->
    exists ds, collect rows l = Some ds /\ accepts g st ds /\ st' = fold_left insert ds st.
Proof.
  unfold accepts in *.
  induction l as [|x l IH]; intros st st'.
  - cbn [for_of collect]. unfold ret. split.
    + intros [= <-]. exists []. repeat split. intros H; now destruct H.
    + intros (ds & [= <-] & _ & ->). reflexivity.
  - cbn [for_of collect]. unfold bind. split.
    + destruct (body x st) as [st1 [[]|e]] eqn:Hx; [|intros [=]].
      intros Hl. apply body_spec in Hx. destruct Hx as (ds1 & Hr1 & Ha1 & ->).
      apply IH in Hl. destruct Hl as (ds2 & Hr2 & Ha2 & ->).
      exists (ds1 ++ ds2)%list. rewrite Hr1, Hr2. split; [reflexivity|]. split.
      * intros Hne. destruct ds1 as [|d ds1]; [|apply Ha1; discriminate].
        cbn [fold_left] in Ha2. apply Ha2. exact Hne.
      * now rewrite fold_left_app.
    + intros (ds & Hc & Ha & ->).
      destruct (rows x) as [ds1|] eqn:Hr1; [|discriminate].
      destruct (collect rows l) as [ds2|] eqn:Hr2; [|discriminate].
      injection Hc as <-.
      assert (body x st = (fold_left insert ds1 st, Return tt)) as ->.
      { apply body_spec. exists ds1. split; [exact Hr1|]. split; [|reflexivity].
        intros Hne. apply Ha. destruct ds1; [now destruct Hne | discriminate]. }
      apply IH. exists ds2. split; [reflexivity|]. split.
      * intros Hne. rewrite fold_insert_exists. apply Ha.
        destruct ds2; [now destruct Hne|]. now destruct ds1.
      * now rewrite fold_left_app.
Qed.
End LoopOfCreates.

Lemma insert_step_graphs (g : string) (st : Store) (d : StepData) :
  graphs (insert_step g st d) = graphs st.
Proof. reflexivity. Qed.

Lemma insert_edge_graphs (g : string) (st : Store) (d : EdgeData) :
  graphs (insert_edge g st d) = graphs st.
Proof. reflexivity. Qed.

Lemma get_prop_some (v : value) (k k' : string) (x : jsval) :
  get_prop v k = Some x -> get_prop v k' = Some (assoc k' (own_entries v)).
Proof. destruct v; [discriminate | reflexivity ..]. Qed.

Lemma ingest_call_spec (g k : string) (call : value) (st st' : Store) :
  ingest_call (VStr g) k call st = (st', Return tt) <->
  exists ds, call_rows k call = Some ds /\ accepts g st ds /\
             st' = fold_left (insert_step g) ds st.
Proof.
  unfold ingest_call, call_rows, prop, accepts, bind, lift, step_create.
  destruct (get_prop call "stepIndex") as [si|] eqn:Hsi;
    [|split; [discriminate | intros (ds & [=] & _)]].
  rewrite !(get_prop_some call "stepIndex" _ si Hsi). unfold ret.
  cbn [as_String].
  destruct (as_Int si) as [n|]; [|split; [discriminate | intros (ds & [=] & _)]].
  destruct (graph_exists g st) eqn:Hg.
  - split.
    + intros [= <-]. eexists. split; [reflexivity|]. split; [reflexivity|]. reflexivity.
    + intros (ds & [= <-] & _ & ->). reflexivity.
  - split; [discriminate|].
    intros (ds & [= <-] & Ha & _). discriminate Ha. discriminate.
Qed.

Lemma ingest_node_spec (g : string) (nodesObj : value) (k : string) (st st' : Store) :
  ingest_node (VStr g) nodesObj k st = (st', Return tt) <->
  exists ds, node_rows nodesObj k = Some ds /\ accepts g st ds /\
             st' = fold_left (insert_step g) ds st.
Proof.
  unfold ingest_node, node_rows, submitted_calls, prop, bind, lift.
  destruct (get_prop nodesObj k) as [calls|];
    [|split; [discriminate | intros (ds & [=] & _)]].
  unfold ret. destruct (iterate calls) as [cs|];
    [|split; [discriminate | intros (ds & [=] & _)]].
  apply (for_of_spec g (ingest_call (VStr g) k) (call_rows k) (insert_step g)).
  - apply insert_step_graphs.
  - intros x s s'. apply ingest_call_spec.
Qed.

Lemma ingest_edge_spec (g : string) (ed : value) (st st' : Store) :
  ingest_edge (VStr g) ed st = (st', Return tt) <->
  exists ds, edge_rows ed = Some ds /\ accepts g st ds /\
             st' = fold_left (insert_edge g) ds st.
Proof.
  unfold ingest_edge, edge_rows, prop, accepts, bind, lift, edge_create.
  destruct (get_prop ed "source") as [s|] eqn:Hs;
    [|split; [discriminate | intros (ds & [=] & _)]].
  rewrite !(get_prop_some ed "source" _ s Hs). unfold ret.
  cbn [as_String].
  destruct (as_String s) as [s'|]; [|split; [discriminate | intros (ds & [=] & _)]].
  destruct (as_String (assoc "target" (own_entries ed))) as [t'|];
    [|split; [discriminate | intros (ds & [=] & _)]].
  destruct (as_String_opt (assoc "conditionKey" (own_entries ed))) as [c'|];
    [|split; [discriminate | intros (ds & [=] & _)]].
  destruct (as_Int_opt 0 (Some (or_else (assoc "used_count" (own_entries ed)) (VNum 0))))
    as [u'|]; [|split; [discriminate | intros (ds & [=] & _)]].
  destruct (graph_exists g st) eqn:Hg.
  - split.
    + intros [= <-]. eexists. split; [reflexivity|]. split; [reflexivity|]. reflexivity.
    + intros (ds & [= <-] & _ & ->). reflexivity.
  - split; [discriminate|].
    intros (ds & [= <-] & Ha & _). discriminate Ha. discriminate.
Qed.

Lemma nodes_loop_spec (g : string) (nodesObj : value) (st st' : Store) :
  for_of (Object_keys nodesObj) (ingest_node (VStr g) nodesObj) st = (st', Return tt) <->
  exists ds, nodes_data nodesObj = Some ds /\ accepts g st ds /\
             st' = fold_left (insert_step g) ds st.
Proof.
  apply (for_of_spec g _ (node_rows nodesObj) (insert_step g)).
  - apply insert_step_graphs.
  - intros x s s'. apply ingest_node_spec.
Qed.

Lemma edges_loop_spec (g : string) (es : list value) (st st' : Store) :
  for_of es (ingest_edge (VStr g)) st = (st', Return tt) <->
  exists ds, collect edge_rows es = Some ds /\ accepts g st ds /\
             st' = fold_left (insert_edge g) ds st.
Proof.
  apply (for_of_spec g _ edge_rows (insert_edge g)).
  - apply insert_edge_graphs.
  - intros x s s'. apply ingest_edge_spec.
Qed.

Lemma clear_exists (g g' : string) (st : Store) :
  graph_exists g' (clear g st) = graph_exists g' st.
Proof. reflexivity. Qed.

Lemma step_deleteMany_refused (v : value) (st : Store) :
  string_filter v = None -> (forall g, v <> VStr g) ->
  step_deleteMany v st = (st, Throw PrismaValidationError).
Proof.
  intros Hf Hs. destruct v; try reflexivity.
  - now destruct (Hs s).
  - unfold step_deleteMany. now rewrite Hf.
Qed.

Lemma no_filter_string (req : value) (g : string) :
  get_prop req "graphId" = Some (Some (VStr g)) -> no_filter req.
Proof. intros Hg v Hv. rewrite Hg in Hv. now injection Hv as <-. Qed.

Lemma ingest_try_spec (req : value) (st st' : Store) (r : Response) :
  no_filter req ->
  ingest_try req st = (st', Return r) <->
  exists g sds eds,
    ingest_plan req = Some (g, sds, eds) /\
    accepts g st sds /\ accepts g st eds /\
    st' = ingested g sds eds st /\ r = ok_response.
Proof.
  intros Hnf. unfold no_filter in Hnf.
  unfold ingest_try, ingest_plan, prop, lift, bind.
  destruct (get_prop req "graphId") as [gid|] eqn:Hgid;
    [|split; [discriminate | intros (g & sds & eds & [=] & _)]].
  rewrite (get_prop_some req "graphId" "nodes" gid Hgid),
          (get_prop_some req "graphId" "edges" gid Hgid).
  unfold ret. fold (req_nodes req). fold (req_edges req).
  destruct gid as [[|b|n|d|g|l|fs]|];
    try (cbn [truthy negb];
         rewrite (step_deleteMany_refused (VObj fs) st (Hnf _ eq_refl)) by discriminate;
         split; [discriminate | intros (g0 & sds & eds & [=] & _)]);
    try (split; [discriminate | intros (g0 & sds & eds & [=] & _)]);
    try (cbn [truthy negb]; destruct b;
         split; (discriminate || intros (g0 & sds & eds & [=] & _)));
    try (cbn [truthy negb]; destruct (n =? 0)%Z;
         split; (discriminate || intros (g0 & sds & eds & [=] & _)));
    try (cbn [truthy negb]; destruct (mantissa_nonzero d);
         split; (discriminate || intros (g0 & sds & eds & [=] & _))).
  cbn [truthy]. rewrite negb_involutive.
  destruct (g =? "") eqn:Hg;
    [split; [discriminate | intros (g0 & sds & eds & [=] & _)]|].
  cbn [step_deleteMany edge_deleteMany graphs steps edges next_step_id next_edge_id].
  change (mkStore (graphs st) (filter (other_graph step_graphId g) (steps st))
                  (filter (other_graph edge_graphId g) (edges st))
                  (next_step_id st) (next_edge_id st)) with (clear g st).
  unfold edges_data.
  split.
  - destruct (for_of (Object_keys (req_nodes req)) (ingest_node (VStr g) (req_nodes req))
                (clear g st)) as [st1 [[]|e]] eqn:Hn; [|discriminate].
    apply nodes_loop_spec in Hn. destruct Hn as (sds & Hsds & Has & ->).
    destruct (iterate (Some (req_edges req))) as [es|]; [|discriminate].
    destruct (for_of es (ingest_edge (VStr g)) _) as [st2 [[]|e]] eqn:He; [|discriminate].
    apply edges_loop_spec in He. destruct He as (eds & Heds & Hae & ->).
    intros [= <- <-]. exists g, sds, eds. rewrite Hsds, Heds.
    split; [reflexivity|]. split; [exact Has|]. split; [|split; reflexivity].
    intros Hne. specialize (Hae Hne).
    now rewrite (fold_insert_exists g (insert_step g) (insert_step_graphs g)) in Hae.
  - intros (g0 & sds & eds & Hplan & Has & Hae & -> & ->).
    destruct (nodes_data (req_nodes req)) as [sds'|] eqn:Hsds; [|discriminate].
    destruct (iterate (Some (req_edges req))) as [es|]; [|discriminate].
    destruct (collect edge_rows es) as [eds'|] eqn:Heds; [|discriminate].
    injection Hplan as <- <- <-.
    assert (for_of (Object_keys (req_nodes req)) (ingest_node (VStr g) (req_nodes req))
              (clear g st) = (fold_left (insert_step g) sds' (clear g st), Return tt)) as ->.
    { apply nodes_loop_spec. exists sds'. repeat split; auto. }
    assert (for_of es (ingest_edge (VStr g)) (fold_left (insert_step g) sds' (clear g st))
            = (ingested g sds' eds' st, Return tt)) as ->.
    { apply edges_loop_spec. exists eds'. split; [exact Heds|]. split; [|reflexivity].
      intros Hne.
      rewrite (fold_insert_exists g (insert_step g) (insert_step_graphs g)).
      now apply Hae. }
    reflexivity.
Qed.

Lemma POST_ingest_ok (req : value) (st st' : Store) (r : Response) :
  no_filter req ->
  POST_ingest req st = (st', r) -> status r = 200%Z ->
  exists g sds eds,
    ingest_plan req = Some (g, sds, eds) /\
    accepts g st sds /\ accepts g st eds /\
    st' = ingested g sds eds st /\ r = ok_response.
Proof.
  unfold POST_ingest, try_catch. intros Hnf H Hs.
  destruct (ingest_try req st) as [st1 [r1|e]] eqn:Ht.
  - injection H as <- <-. now apply ingest_try_spec.
  - injection H as <- <-. discriminate Hs.
Qed.

Lemma ingest_plan_string (req : value) g sds eds :
  ingest_plan req = Some (g, sds, eds) ->
  get_prop req "graphId" = Some (Some (VStr g)).
Proof.
  unfold ingest_plan.
  destruct (get_prop req "graphId") as [[[| | | |g'| |]|]|]; try discriminate.
  destruct (g' =? ""); [discriminate|].
  destruct (nodes_data (req_nodes req)); [|discriminate].
  destruct (edges_data (req_edges req)); [|discriminate].
  now intros [= -> _ _].
Qed.

Lemma POST_ingest_plan (req : value) (st : Store) g sds eds :
  ingest_plan req = Some (g, sds, eds) ->
  accepts g st sds -> accepts g st eds ->
  POST_ingest req st = (ingested g sds eds st, ok_response).
Proof.
  intros Hp Hs He. unfold POST_ingest, try_catch.
  assert (ingest_try req st = (ingested g sds eds st, Return ok_response)) as ->;
    [|reflexivity].
  apply ingest_try_spec; [|exists g, sds, eds; auto].
  apply (no_filter_string req g). now apply (ingest_plan_string req g sds eds).
Qed.

(* ================================================================== *)
(** * The rows of a graph after an ingestion *)
(* ================================================================== *)

Lemma fold_insert_step (g : string) (sds : list StepData) (st : Store) :
  exists new,
    steps (fold_left (insert_step g) sds st) = (steps st ++ new)%list /\
    Forall (fun s => step_graphId s = g) new /\ map step_data new = sds /\
    edges (fold_left (insert_step g) sds st) = edges st.
Proof.
  revert st. induction sds as [|d sds IH]; intros st.
  - exists []. cbn [fold_left]. rewrite List.app_nil_r. repeat split; constructor.
  - cbn [fold_left]. destruct (IH (insert_step g st d)) as (new & H1 & H2 & H3 & H4).
    eexists (_ :: new). rewrite H1, H4. cbn [insert_step steps edges].
    rewrite <- List.app_assoc. split; [reflexivity|]. split; [|split].
    + constructor; [reflexivity | exact H2].
    + cbn [map]. rewrite H3. now destruct d.
    + reflexivity.
Qed.

Lemma fold_insert_edge (g : string) (eds : list EdgeData) (st : Store) :
  exists new,
    edges (fold_left (insert_edge g) eds st) = (edges st ++ new)%list /\
    Forall (fun e => edge_graphId e = g) new /\ map edge_data new = eds /\
    steps (fold_left (insert_edge g) eds st) = steps st.
Proof.
  revert st. induction eds as [|d eds IH]; intros st.
  - exists []. cbn [fold_left]. rewrite List.app_nil_r. repeat split; constructor.
  - cbn [fold_left]. destruct (IH (insert_edge g st d)) as (new & H1 & H2 & H3 & H4).
    eexists (_ :: new). rewrite H1, H4. cbn [insert_edge steps edges].
    rewrite <- List.app_assoc. split; [reflexivity|]. split; [|split].
    + constructor; [reflexivity | exact H2].
    + cbn [map]. rewrite H3. now destruct d.
    + reflexivity.
Qed.

Lemma filter_other_graph {R} (graphId : R -> string) (g : string) (l : list R) :
  filter (fun r => graphId r =? g) (filter (other_graph graphId g) l) = [].
Proof.
  induction l as [|r l IH]; [reflexivity|].
  cbn [filter]. unfold other_graph at 1.
  destruct (graphId r =? g) eqn:E; cbn [negb filter]; [exact IH|].
  now rewrite E.
Qed.

Lemma filter_same_graph {R} (graphId : R -> string) (g : string) (l : list R) :
  Forall (fun r => graphId r = g) l ->
  filter (fun r => graphId r =? g) l = l.
Proof.
  induction 1 as [|r l Hr _ IH]; [reflexivity|].
  cbn [filter]. rewrite Hr, String.eqb_refl. now rewrite IH.
Qed.

Lemma steps_of_ingested (g : string) sds eds (st : Store) :
  map step_data (steps_of g (ingested g sds eds st)) = sds.
Proof.
  unfold steps_of, ingested.
  destruct (fold_insert_edge g eds (fold_left (insert_step g) sds (clear g st)))
    as (_ & _ & _ & _ & ->).
  destruct (fold_insert_step g sds (clear g st)) as (new & -> & Hg & Hd & _).
  cbn [clear steps]. rewrite filter_app, filter_other_graph.
  now rewrite filter_same_graph.
Qed.

Lemma edges_of_ingested (g : string) sds eds (st : Store) :
  map edge_data (edges_of g (ingested g sds eds st)) = eds.
Proof.
  unfold edges_of, ingested.
  destruct (fold_insert_edge g eds (fold_left (insert_step g) sds (clear g st)))
    as (new & -> & Hg & Hd & _).
  destruct (fold_insert_step g sds (clear g st)) as (_ & _ & _ & _ & ->).
  cbn [clear edges]. rewrite filter_app, filter_other_graph.
  now rewrite filter_same_graph.
Qed.

(* ================================================================== *)
(** * Load as a function of the rows *)
(* ================================================================== *)

Lemma GET_load_eq (g : string) (st : Store) :
  g <> "" ->
  GET_load (Some g) st = (st, load_response (steps_of g st) (edges_of g st)).
Proof.
  intros Hg. unfold GET_load. apply String.eqb_neq in Hg. rewrite Hg.
  unfold try_catch, load_try, bind, step_findMany, edge_findMany, ret, load_response.
  fold (steps_of g st). fold (edges_of g st).
  destruct (group_steps [] (steps_of g st)); reflexivity.
Qed.

Lemma add_step_data (nodes : node_map) (s : Step) :
  add_step nodes s = add_step nodes (step_with (step_data s)).
Proof. reflexivity. Qed.

Lemma group_steps_data (l : list Step) (nodes : node_map) :
  group_steps nodes l = group_steps nodes (map step_with (map step_data l)).
Proof.
  revert nodes. induction l as [|s l IH]; intros nodes; [reflexivity|].
  cbn [group_steps map]. rewrite <- add_step_data.
  destruct (add_step nodes s); [apply IH | reflexivity].
Qed.

Lemma edge_view_data (l : list Edge) :
  map edge_view l = map edge_view (map edge_with (map edge_data l)).
Proof. rewrite !map_map. apply map_ext. reflexivity. Qed.

Lemma load_response_data (ss : list Step) (es : list Edge) :
  load_response ss es
  = load_response (map step_with (map step_data ss)) (map edge_with (map edge_data es)).
Proof.
  unfold load_response. now rewrite <- group_steps_data, <- edge_view_data.
Qed.

(** ** Grouping *)

Lemma own_None_iff (k : string) (nodes : node_map) :
  own k nodes = None <-> ~ In k (map fst nodes).
Proof.
  induction nodes as [|[k' l] nodes IH]; [simpl; tauto|].
  cbn [own map fst In]. destruct (String.eqb_spec k' k) as [->|Hne].
  - split; [discriminate | tauto].
  - rewrite IH. tauto.
Qed.

Lemma keys_push (k : string) (c : value) (nodes : node_map) :
  map fst (push k c nodes) = map fst nodes.
Proof.
  induction nodes as [|[k' l] nodes IH]; [reflexivity|].
  cbn [push]. destruct (k' =? k); cbn [map fst]; [reflexivity | now rewrite IH].
Qed.

Lemma own_push (k k' : string) (c : value) (nodes : node_map) :
  own k (push k' c nodes)
  = if k' =? k then option_map (fun l => l ++ [c])%list (own k nodes) else own k nodes.
Proof.
  induction nodes as [|[k0 l] nodes IH].
  - cbn [push own]. now destruct (k' =? k).
  - cbn [push]. destruct (String.eqb_spec k0 k') as [->|Hne].
    + cbn [own]. destruct (String.eqb_spec k' k) as [->|Hne']; reflexivity.
    + cbn [own]. rewrite IH.
      destruct (String.eqb_spec k0 k) as [->|Hne'']; [|reflexivity].
      destruct (String.eqb_spec k' k) as [->|]; [now destruct Hne | reflexivity].
Qed.

Lemma own_app_new (k k' : string) (l' : list value) (nodes : node_map) :
  own k' nodes = None ->
  own k (nodes ++ [(k', l')])%list = if k' =? k then Some l' else own k nodes.
Proof.
  induction nodes as [|[k0 l] nodes IH]; intros Hn.
  - cbn [app own]. reflexivity.
  - cbn [app own] in *. destruct (String.eqb_spec k0 k') as [->|Hne]; [discriminate|].
    rewrite (IH Hn). destruct (String.eqb_spec k0 k) as [->|Hne'']; [|reflexivity].
    destruct (String.eqb_spec k' k) as [->|]; [now destruct Hne | reflexivity].
Qed.

Lemma merge_merge (o : option (list value)) (a b : list value) :
  merge (merge o a) b = merge o (a ++ b)%list.
Proof.
  destruct o as [cs|]; cbn [merge].
  - now rewrite List.app_assoc.
  - destruct a as [|x a]; [reflexivity|]. reflexivity.
Qed.

Lemma merge_nil (o : option (list value)) : merge o [] = o.
Proof. destruct o; cbn [merge]; [now rewrite List.app_nil_r | reflexivity]. Qed.

(** What one turn of the grouping loop does when it does not throw. *)
Lemma add_step_inv (nodes nodes' : node_map) (s : Step) :
  add_step nodes s = Return nodes' ->
  exists c, call_of_step s = Some c /\
            (forall k, own k nodes' = merge (own k nodes)
                                            (if nodeName s =? k then [c] else [])) /\
            (NoDup (map fst nodes) -> NoDup (map fst nodes')) /\
            (own (nodeName s) nodes = None -> inherited (nodeName s) = false).
Proof.
  unfold add_step. destruct (own (nodeName s) nodes) as [l|] eqn:Ho.
  - destruct (call_of_step s) as [c|]; [|discriminate]. intros [= <-].
    exists c. split; [reflexivity|]. split; [|split; [|discriminate]].
    + intros k. rewrite own_push.
      destruct (String.eqb_spec (nodeName s) k) as [<-|]; [|now rewrite merge_nil].
      now rewrite Ho.
    + now rewrite keys_push.
  - destruct (inherited (nodeName s)); [destruct (call_of_step s); discriminate|].
    destruct (call_of_step s) as [c|]; [|discriminate]. intros [= <-].
    exists c. split; [reflexivity|]. split; [|split; [|reflexivity]].
    + intros k. rewrite own_app_new by assumption.
      destruct (String.eqb_spec (nodeName s) k) as [<-|]; [|now rewrite merge_nil].
      now rewrite Ho.
    + intros Hnd. rewrite map_app. cbn [map fst].
      apply NoDup_app; [exact Hnd | repeat constructor; simpl; tauto |].
      intros x Hx [<-|[]]. now apply own_None_iff in Ho.
Qed.

Lemma group_steps_inv (l : list Step) :
  forall nodes0 nodes,
    group_steps nodes0 l = Return nodes ->
    (forall k, own k nodes = merge (own k nodes0) (views_of k l)) /\
    (NoDup (map fst nodes0) -> NoDup (map fst nodes)) /\
    Forall (fun s => call_of_step s <> None) l.
Proof.
  induction l as [|s l IH]; intros nodes0 nodes.
  - cbn [group_steps views_of flat_map]. intros [= <-].
    split; [intros k; now rewrite merge_nil|]. split; [trivial | constructor].
  - cbn [group_steps]. destruct (add_step nodes0 s) as [nodes1|e] eqn:Ha; [|discriminate].
    intros Hg. apply add_step_inv in Ha. destruct Ha as (c & Hc & Ho & Hnd & _).
    apply IH in Hg. destruct Hg as (Ho' & Hnd' & Hall).
    split; [|split].
    + intros k. rewrite Ho', Ho, merge_merge. unfold views_of. cbn [flat_map].
      now rewrite Hc.
    + auto.
    + constructor; [now rewrite Hc | exact Hall].
Qed.

Lemma views_of_nonempty (k : string) (l : list Step) :
  Forall (fun s => call_of_step s <> None) l ->
  (views_of k l <> [] <-> exists s, In s l /\ nodeName s = k).
Proof.
  induction 1 as [|s l Hs _ IH].
  - simpl. split; [tauto | intros (s & [] & _)].
  - unfold views_of in *. cbn [flat_map].
    destruct (String.eqb_spec (nodeName s) k) as [Hk|Hk].
    + destruct (call_of_step s) as [c|]; [|now destruct Hs].
      split; [|discriminate]. intros _. exists s. split; [now left | exact Hk].
    + cbn [app]. rewrite IH. split.
      * intros (s' & Hin & Hn). exists s'. split; [now right | exact Hn].
      * intros (s' & [<-|Hin] & Hn); [contradiction|]. now exists s'.
Qed.

(** Grouping goes through when every row parses and no new key is an
    inherited property name. *)
Lemma group_steps_ok (l : list Step) :
  forall nodes0,
    Forall (fun s => call_of_step s <> None /\ inherited (nodeName s) = false) l ->
    exists nodes, group_steps nodes0 l = Return nodes.
Proof.
  induction l as [|s l IH]; intros nodes0 Hall.
  - now exists nodes0.
  - inversion Hall as [|? ? [Hc Hi] Hl]; subst. cbn [group_steps].
    assert (exists nodes1, add_step nodes0 s = Return nodes1) as (nodes1 & ->).
    { unfold add_step. rewrite Hi.
      destruct (call_of_step s) as [c|]; [|now destruct Hc].
      destruct (own (nodeName s) nodes0); eauto. }
    now apply IH.
Qed.


(* ================================================================== *)
(** * Well-formed values *)
(* ================================================================== *)





Lemma indexed_values {A} (P : A -> Prop) (l : list A) (i : nat) :
  Forall P l -> Forall (fun kv => P (snd kv)) (indexed i l).
Proof.
  intros H. revert i. induction H as [|x l Hx _ IH]; intros i; [constructor|].
  cbn [indexed]. constructor; [exact Hx | apply IH].
Qed.

Lemma chars_wf (s : string) : Forall wf (chars s).
Proof.
  unfold chars. induction (list_ascii_of_string s) as [|c l IH]; constructor.
  - exact I.
  - exact IH.
Qed.


Lemma wf_own_entries (v : value) :
  wf v -> Forall (fun kv => wf (snd kv)) (own_entries v).
Proof.
  destruct v as [|b|n|d|s|l|fs]; cbn [own_entries]; try (intros _; constructor).
  - intros _. apply indexed_values, chars_wf.
  - intros H. apply indexed_values. now apply wf_VArr.
  - intros H. now apply wf_VObj in H.
Qed.

Lemma wf_assoc (v : value) (k : string) (x : value) :
  wf v -> assoc k (own_entries v) = Some x -> wf x.
Proof.
  intros H. apply wf_own_entries in H.
  induction H as [|[k' y] l Hy _ IH]; [discriminate|].
  cbn [assoc]. destruct (k' =? k); [intros [= <-]; exact Hy | exact IH].
Qed.

Lemma wf_or_else (x : jsval) (d : value) :
  (forall v, x = Some v -> wf v) -> wf d -> wf (or_else x d).
Proof.
  intros Hx Hd. unfold or_else. destruct x as [v|]; [|exact Hd].
  destruct (truthy (Some v)); [now apply Hx | exact Hd].
Qed.



Lemma wf_req_edges (req : value) : wf req -> wf (req_edges req).
Proof.
  intros H. apply wf_or_else; [|exact I].
  intros v Hv. now apply (wf_assoc req "edges").
Qed.



(* ================================================================== *)
(** * What Load makes of an ingested request *)
(* ================================================================== *)

Lemma collect_map {A D B} (f : A -> option (list D)) (t : D -> B) (h : A -> list B)
  (l : list A) (ds : list D) :
  (forall x dx, In x l -> f x = Some dx -> map t dx = h x) ->
  collect f l = Some ds -> map t ds = flat_map h l.
Proof.
  revert ds. induction l as [|x l IH]; intros ds Hh.
  - intros [= <-]. reflexivity.
  - cbn [collect flat_map].
    destruct (f x) as [dx|] eqn:Hx; [|discriminate].
    destruct (collect f l) as [dl|]; [|discriminate]. intros [= <-].
    rewrite map_app, (Hh x dx (or_introl eq_refl) Hx).
    rewrite (IH dl); [reflexivity | | reflexivity].
    intros y dy Hy. apply Hh. now right.
Qed.

Lemma call_rows_inv (k : string) (call : value) (ds : list StepData) :
  call_rows k call = Some ds ->
  exists n, as_Int (assoc "stepIndex" (own_entries call)) = Some n /\
            ds = [mkStepData k n
                    (JSON.stringify (or_else (assoc "input" (own_entries call)) empty_object))
                    (JSON.stringify (or_else (assoc "output" (own_entries call)) empty_object))].
Proof.
  unfold call_rows.
  destruct (get_prop call "stepIndex") as [si|] eqn:Hsi; [|discriminate].
  rewrite (get_prop_some call "stepIndex" "input" si Hsi),
          (get_prop_some call "stepIndex" "output" si Hsi).
  rewrite (get_prop_some call "stepIndex" "stepIndex" si Hsi) in Hsi.
  injection Hsi as <-.
  destruct (as_Int (assoc "stepIndex" (own_entries call))) as [n|]; [|discriminate].
  intros [= <-]. now exists n.
Qed.





Lemma flat_map_flat_map {A B C} (f : A -> list B) (h : B -> list C) (l : list A) :
  flat_map h (flat_map f l) = flat_map (fun x => flat_map h (f x)) l.
Proof.
  induction l as [|x l IH]; [reflexivity|].
  cbn [flat_map]. now rewrite flat_map_app, IH.
Qed.

Lemma flat_map_key {B} (F : string -> list B) (k : string) (keys : list string) :
  NoDup keys ->
  flat_map (fun k' => if k' =? k then F k' else []) keys
  = if existsb (String.eqb k) keys then F k else [].
Proof.
  induction 1 as [|k0 keys Hn Hnd IH]; [reflexivity|].
  cbn [flat_map existsb]. rewrite IH. rewrite (String.eqb_sym k k0).
  destruct (String.eqb_spec k0 k) as [->|Hne]; [|reflexivity].
  cbn [orb]. destruct (existsb (String.eqb k) keys) eqn:E; [|now rewrite List.app_nil_r].
  apply existsb_exists in E. destruct E as (x & Hx & Hk).
  apply String.eqb_eq in Hk. subst x. contradiction.
Qed.

Lemma assoc_not_key (k : string) (fs : list (string * value)) :
  existsb (String.eqb k) (map fst fs) = false -> assoc k fs = None.
Proof.
  induction fs as [|[k' v] fs IH]; [reflexivity|].
  cbn [map fst existsb assoc]. rewrite (String.eqb_sym k k').
  destruct (k' =? k); [discriminate | exact IH].
Qed.

Lemma calls_under_not_key (nodesObj : value) (k : string) :
  existsb (String.eqb k) (Object_keys nodesObj) = false -> calls_under nodesObj k = [].
Proof.
  intros H. unfold calls_under, submitted_calls, get_prop.
  destruct nodesObj; try reflexivity;
    (rewrite assoc_not_key by exact H; reflexivity).
Qed.



Lemma as_String_inv (x : jsval) (s : string) :
  as_String x = Some s -> x = Some (VStr s).
Proof. destruct x as [[| | | |s'| |]|]; try discriminate. now intros [= ->]. Qed.

Lemma as_String_opt_inv (c : jsval) (c' : option string) :
  as_String_opt c = Some c' ->
  (c' = None /\ truthy c = false) \/ (exists x, c = Some (VStr x) /\ c' = Some x).
Proof.
  destruct c as [[| | | |x| |]|]; cbn [as_String_opt]; try discriminate;
    intros [= <-]; [left; now split | right; now exists x | left; now split].
Qed.

(** What is written for a [used_count] is NULL only for [null], which
    [|| 0] replaces, or for a number beyond the doubles. *)
Lemma used_count_inv (u : jsval) (u' : option Z) :
  as_Int_opt 0 (Some (or_else u (VNum 0))) = Some u' ->
  overflows (or_else u (VNum 0)) = false -> u' <> None.
Proof.
  unfold as_Int_opt. intros H Hf. rewrite Hf in H.
  destruct (or_else u (VNum 0)) as [| |n|d| | |] eqn:E.
  - unfold or_else in E. destruct u as [v|]; [|discriminate].
    destruct (truthy (Some v)) eqn:T; [|discriminate]. subst v. discriminate.
  - discriminate.
  - destruct (Int_value (VNum n)); [|discriminate]. now injection H as <-.
  - destruct (Int_value (VDec d)); [|discriminate]. now injection H as <-.
  - discriminate.
  - discriminate.
  - discriminate.
Qed.

Lemma edge_rows_view (ed : value) (ds : list EdgeData) :
  edge_rows ed = Some ds ->
  map (fun d => edge_view (edge_with d)) ds = [submitted_edge_view ed] /\
  (count_overflows ed = false -> Forall (fun d => d_usedCount d <> None) ds).
Proof.
  unfold edge_rows, submitted_edge_view, stored_used_count, stored_count,
    count_overflows, field_or_null.
  destruct (get_prop ed "source") as [s|] eqn:Hs; [|discriminate].
  rewrite (get_prop_some ed "source" "target" s Hs),
          (get_prop_some ed "source" "conditionKey" s Hs),
          (get_prop_some ed "source" "used_count" s Hs).
  rewrite (get_prop_some ed "source" "source" s Hs) in Hs. injection Hs as <-.
  destruct (as_String (assoc "source" (own_entries ed))) as [s'|] eqn:H1; [|discriminate].
  destruct (as_String (assoc "target" (own_entries ed))) as [t'|] eqn:H2; [|discriminate].
  destruct (as_String_opt (assoc "conditionKey" (own_entries ed))) as [c'|] eqn:H3;
    [|discriminate].
  destruct (as_Int_opt 0 (Some (or_else (assoc "used_count" (own_entries ed)) (VNum 0))))
    as [u'|] eqn:H4; [|discriminate].
  intros [= <-].
  apply as_String_inv in H1, H2. rewrite H1, H2.
  split; [|intros Hf; repeat constructor; now apply (used_count_inv _ _ H4)].
  cbn [map]. unfold edge_view, edge_with.
  cbn [sourceNode targetNode conditionKey usedCount
       d_sourceNode d_targetNode d_conditionKey d_usedCount].
  apply as_String_opt_inv in H3. destruct H3 as [[-> H3]|(x & H3 & ->)].
  - now rewrite H3.
  - rewrite H3. cbn [truthy]. destruct (x =? ""); reflexivity.
Qed.

Lemma plan_edges (edgesArr : value) (eds : list EdgeData) :
  edges_data edgesArr = Some eds ->
  map edge_view (map edge_with eds) = map submitted_edge_view (edges_under edgesArr) /\
  (Forall (fun ed => count_overflows ed = false) (edges_under edgesArr) ->
   Forall (fun d => d_usedCount d <> None) eds).
Proof.
  unfold edges_data, edges_under.
  destruct (iterate (Some edgesArr)) as [es|]; [|discriminate].
  revert eds. induction es as [|ed es IH]; intros eds.
  - intros [= <-]. split; [reflexivity | constructor].
  - cbn [collect]. destruct (edge_rows ed) as [d1|] eqn:H1; [|discriminate].
    destruct (collect edge_rows es) as [d2|]; [|discriminate]. intros [= <-].
    apply edge_rows_view in H1. destruct H1 as [H1 H1'].
    destruct (IH d2 eq_refl) as [H2 H2'].
    rewrite map_map in *. rewrite map_app, H1, H2. split; [reflexivity|].
    intros Hf. inversion Hf; subst. apply Forall_app. split; auto.
Qed.

Lemma ingest_plan_inv (req : value) g sds eds :
  ingest_plan req = Some (g, sds, eds) ->
  get_prop req "graphId" = Some (Some (VStr g)) /\ g <> "" /\
  nodes_data (req_nodes req) = Some sds /\ edges_data (req_edges req) = Some eds.
Proof.
  unfold ingest_plan.
  destruct (get_prop req "graphId") as [[[|b|n|d|g'|l|fs]|]|]; try discriminate.
  destruct (String.eqb_spec g' ""); [discriminate|].
  destruct (nodes_data (req_nodes req)); [|discriminate].
  destruct (edges_data (req_edges req)); [|discriminate].
  intros [= -> -> ->]. auto.
Qed.

Lemma nodes_value_inj (a b : node_map) : nodes_value a = nodes_value b -> a = b.
Proof.
  unfold nodes_value. intros [= H]. revert b H.
  induction a as [|[k l] a IH]; intros [|[k' l'] b]; cbn [map fst snd];
    try discriminate; [reflexivity|].
  intros [= -> -> H]. f_equal. now apply IH.
Qed.

(** A Load that answers with nodes and edges grouped without throwing. *)
Lemma load_response_inv (ss : list Step) (es : list Edge) nodes edgesArr :
  load_response ss es = json (load_body nodes edgesArr) ->
  group_steps [] ss = Return nodes /\ edgesArr = map edge_view es.
Proof.
  unfold load_response. destruct (group_steps [] ss) as [nodes'|e]; [|discriminate].
  unfold json, load_body. intros [= H1 H2].
  assert (nodes_value nodes' = nodes_value nodes) as H by (unfold nodes_value; now f_equal).
  apply nodes_value_inj in H. now subst.
Qed.

Lemma GET_load_inv (g : string) (st : Store) nodes edgesArr :
  snd (GET_load (Some g) st) = json (load_body nodes edgesArr) ->
  g <> "" /\ group_steps [] (steps_of g st) = Return nodes /\
  edgesArr = map edge_view (edges_of g st).
Proof.
  destruct (String.eqb_spec g "") as [->|Hg]; [discriminate|].
  rewrite GET_load_eq by assumption. cbn [snd]. intros H.
  apply load_response_inv in H. tauto.
Qed.


(* ================================================================== *)
(** * Properties of the handlers *)
(* ================================================================== *)






Lemma wf_req_example : wf req_example.
Proof.
  cbn [wf req_example map fst].
  repeat split; repeat constructor; cbn [In]; intuition discriminate.
Qed.



(** What Load returns after [req_fractional] replaced the rows of the
    example: the step indices 1.5 and 2.0 come back as 1 and 2, the counts
    3.0 and 0.5 as 3 and 0, and the list under [a] in the submitted
    order. *)
Example load_fractional :
  GET_load (Some "g1") (fst (POST_ingest req_fractional store_example))
  = (fst (POST_ingest req_fractional store_example),
     json (load_body
             [("a", [VObj [("stepIndex", VNum 1); ("input", VObj [("q", VStr "x")]);
                           ("output", VObj [])];
                     VObj [("stepIndex", VNum 0); ("input", VObj []);
                           ("output", VStr "done")]]);
              ("b", [VObj [("stepIndex", VNum 2); ("input", VObj []);
                           ("output", VObj [])]])]
             [VObj [("source", VStr "a"); ("target", VStr "b"); ("used_count", VNum 3)];
              VObj [("source", VStr "b"); ("target", VStr "a");
                    ("conditionKey", VStr "retry"); ("used_count", VNum 0)]])).
Proof. vm_compute. reflexivity. Qed.


(** What Load returns for [req_unsorted]: the key without calls is
    gone, the calls are in the submitted order, and the falsy payload came
    back as the empty object. *)
Example load_unsorted :
  snd (GET_load (Some "g1") (fst (POST_ingest req_unsorted store_g1)))
  = json (load_body
            [("a", [VObj [("stepIndex", VNum 1); ("input", VObj []); ("output", VObj [])];
                    VObj [("stepIndex", VNum 0); ("input", VObj []); ("output", VObj [])]])]
            []).
Proof. vm_compute. reflexivity. Qed.

(** The example of the specification. *)
Example load_example :
  snd (GET_load (Some "g1") (fst (POST_ingest req_example store_g1)))
  = json (VObj [("nodes", VObj [("start", VArr [VObj [("stepIndex", VNum 0);
                                                       ("input", VObj []);
                                                       ("output", VObj [("msg", VStr "hi")])]])]);
                ("edges", VArr [VObj [("source", VStr "start"); ("target", VStr "end");
                                      ("used_count", VNum 1)]])]).
Proof. vm_compute. reflexivity. Qed.



Lemma ingested_graphs (g : string) sds eds (st : Store) :
  graphs (ingested g sds eds st) = graphs st.
Proof.
  unfold ingested.
  rewrite (fold_insert_graphs (insert_edge g) (insert_edge_graphs g)).
  now rewrite (fold_insert_graphs (insert_step g) (insert_step_graphs g)).
Qed.




(** C4 as stated fails: a body without [graphId] creates a Graph row
    under the identifier the store generates. *)
Lemma rejects_missing_id_fails :
  POST_start "3f0c7a52-8a1e-4d53-9a57-0e1d2c3b4a59" 0 (VObj []) empty_store
  = (mkStore [mkGraph "3f0c7a52-8a1e-4d53-9a57-0e1d2c3b4a59" "Untitled" 0] [] [] 1 1,
     json (VObj [("graphId", VStr "3f0c7a52-8a1e-4d53-9a57-0e1d2c3b4a59")])) /\
  ~ rejects_missing_id "3f0c7a52-8a1e-4d53-9a57-0e1d2c3b4a59" 0 (VObj []) empty_store.
Proof.
  split; [reflexivity|].
  intros H. destruct (H eq_refl) as [Hs _]. apply Hs. reflexivity.
Qed.

(** C4, amended. CreateGraph does not check for an identifier: when the
    body has no [graphId], the store fills in its default (a fresh uuid),
    the Graph row is persisted under it with the given name ("Untitled"
    when the body has none), and that identifier is returned with a
    success response. *)
Theorem create_without_id (fresh : string) (now : Z) (req : value) (st : Store)
  (name : string) :
  get_prop req "graphId" = Some None ->
  or_else (assoc "name" (own_entries req)) (VStr "Untitled") = VStr name ->
  graph_exists fresh st = false ->
  POST_start fresh now req st
  = (mkStore (graphs st ++ [mkGraph fresh name now]) (steps st) (edges st)
             (next_step_id st) (next_edge_id st),
     json (VObj [("graphId", VStr fresh)])).
Proof.
  intros Hg Hn Hf. unfold POST_start, try_catch, start_try, prop, lift, bind.
  rewrite Hg, (get_prop_some req "graphId" "name" _ Hg). unfold ret.
  rewrite Hn. unfold graph_create. cbn [as_String]. now rewrite Hf.
Qed.

Lemma create_without_id_witness :
  POST_start "3f0c7a52-8a1e-4d53-9a57-0e1d2c3b4a59" 0 (VObj []) empty_store
  = (mkStore [mkGraph "3f0c7a52-8a1e-4d53-9a57-0e1d2c3b4a59" "Untitled" 0] [] [] 1 1,
     json (VObj [("graphId", VStr "3f0c7a52-8a1e-4d53-9a57-0e1d2c3b4a59")])).
Proof.
  apply (create_without_id "3f0c7a52-8a1e-4d53-9a57-0e1d2c3b4a59" 0 (VObj [])
           empty_store "Untitled"); reflexivity.
Defined.

Lemma edge_view_used_count (e : Edge) :
  assoc "used_count" (own_entries (edge_view e))
  = Some (match usedCount e with Some n => VNum n | None => VNull end).
Proof.
  unfold edge_view. destruct (conditionKey e) as [k|]; [destruct (k =? "")|];
    reflexivity.
Qed.

Lemma Forall2_map_r {A B} (P : A -> B -> Prop) (f : A -> B) (l : list A) :
  (forall x, In x l -> P x (f x)) -> Forall2 P l (map f l).
Proof.
  induction l as [|x l IH]; intros H; [constructor|].
  cbn [map]. constructor; [apply H; now left | apply IH; intros y Hy; apply H; now right].
Qed.

(** C6 as stated fails: a stored NULL [usedCount] is returned as null. *)
Lemma used_count_defaults_fails :
  snd (GET_load (Some "g1") store_null_count)
  = json (load_body [] [VObj [("source", VStr "start"); ("target", VStr "end");
                              ("used_count", VNull)]]) /\
  ~ used_count_defaults store_null_count "g1".
Proof.
  split; [reflexivity|].
  intros H.
  specialize (H [] [VObj [("source", VStr "start"); ("target", VStr "end");
                          ("used_count", VNull)]] eq_refl).
  vm_compute in H. inversion H as [|? ? ? ? Hx _]; subst. discriminate Hx.
Qed.

(** C6, amended. In every edge entry of a Load response, [used_count]
    is the stored [usedCount] as it is: a stored integer is returned as
    that integer and a stored NULL as null. *)
Theorem used_count_passed_through (st : Store) (g : string)
  (nodes : node_map) (edgesArr : list value) :
  snd (GET_load (Some g) st) = json (load_body nodes edgesArr) ->
  Forall2 (fun e v =>
             assoc "used_count" (own_entries v)
             = Some (match usedCount e with Some n => VNum n | None => VNull end))
          (edges_of g st) edgesArr.
Proof.
  intros H. apply GET_load_inv in H. destruct H as (_ & _ & ->).
  apply Forall2_map_r. intros e _. apply edge_view_used_count.
Qed.

(** The default of 0 is applied when the edge is written: no Edge row of
    the graph has a NULL [usedCount] after an accepted ingestion. *)
Lemma ingest_writes_used_count (req : value) (st st' : Store) (r : Response)
  (g : string) :
  POST_ingest req st = (st', r) -> status r = 200%Z ->
  get_prop req "graphId" = Some (Some (VStr g)) ->
  Forall (fun ed => count_overflows ed = false) (edges_under (req_edges req)) ->
  Forall (fun e => usedCount e <> None) (edges_of g st').
Proof.
  intros Hi Hs Hg Hfin.
  destruct (POST_ingest_ok _ _ _ _ (no_filter_string _ _ Hg) Hi Hs)
    as (g' & sds & eds & Hplan & _ & _ & -> & _).
  destruct (ingest_plan_inv _ _ _ _ Hplan) as (Hg' & _ & _ & He).
  rewrite Hg in Hg'. injection Hg' as <-.
  pose proof (proj2 (plan_edges _ _ He) Hfin) as Hall.
  rewrite <- (edges_of_ingested g sds eds st) in Hall.
  now rewrite Forall_map in Hall.
Qed.

(** The one number Ingest writes as NULL: a [used_count] beyond the
    doubles. *)
Example ingest_writes_null_count :
  map usedCount
      (edges_of "g1"
         (fst (POST_ingest
                 (VObj [("graphId", VStr "g1");
                        ("edges", VArr [VObj [("source", VStr "a"); ("target", VStr "b");
                                              ("used_count", VDec "1e400")]])])
                 store_g1)))
  = [None].
Proof. vm_compute. reflexivity. Qed.

Lemma used_count_passed_through_witness :
  Forall2 (fun e v =>
             assoc "used_count" (own_entries v)
             = Some (match usedCount e with Some n => VNum n | None => VNull end))
          (edges_of "g1" store_null_count)
          [VObj [("source", VStr "start"); ("target", VStr "end"); ("used_count", VNull)]].
Proof.
  apply (used_count_passed_through store_null_count "g1" []). reflexivity.
Defined.

Lemma submitted_edge_view_no_key (ed : value) :
  assoc "conditionKey" (own_entries ed) = None ->
  assoc "conditionKey" (own_entries (submitted_edge_view ed)) = None.
Proof. intros H. unfold submitted_edge_view. rewrite H. reflexivity. Qed.

(** C7. After an accepted ingestion, the edge entries Load returns for
    the graph correspond one to one, in order, to the submitted edges, and
    the entry of an edge submitted without [conditionKey] has no
    [conditionKey] field at all. *)
Theorem absent_conditionKey_omitted (req : value) (st st' : Store) (r : Response)
  (g : string) (nodes : node_map) (edgesArr : list value) :
  POST_ingest req st = (st', r) -> status r = 200%Z ->
  get_prop req "graphId" = Some (Some (VStr g)) ->
  snd (GET_load (Some g) st') = json (load_body nodes edgesArr) ->
  Forall2 (fun ed e =>
             assoc "conditionKey" (own_entries ed) = None ->
             assoc "conditionKey" (own_entries e) = None)
          (edges_under (req_edges req)) edgesArr.
Proof.
  intros Hi Hs Hg Hl.
  destruct (POST_ingest_ok _ _ _ _ (no_filter_string _ _ Hg) Hi Hs)
    as (g' & sds & eds & Hplan & _ & _ & -> & _).
  destruct (ingest_plan_inv _ _ _ _ Hplan) as (Hg' & _ & _ & He).
  rewrite Hg in Hg'. injection Hg' as <-.
  apply GET_load_inv in Hl. destruct Hl as (_ & _ & ->).
  rewrite edge_view_data, edges_of_ingested, (proj1 (plan_edges _ _ He)).
  apply Forall2_map_r. intros ed _. apply submitted_edge_view_no_key.
Qed.

Lemma absent_conditionKey_omitted_witness :
  Forall2 (fun ed e =>
             assoc "conditionKey" (own_entries ed) = None ->
             assoc "conditionKey" (own_entries e) = None)
          (edges_under (req_edges req_example))
          [VObj [("source", VStr "start"); ("target", VStr "end"); ("used_count", VNum 1)]].
Proof.
  apply (absent_conditionKey_omitted req_example store_g1
           (fst (POST_ingest req_example store_g1)) ok_response "g1"
           [("start", [VObj [("stepIndex", VNum 0); ("input", VObj []);
                             ("output", VObj [("msg", VStr "hi")])]])]).
  - vm_compute. reflexivity.
  - reflexivity.
  - reflexivity.
  - vm_compute. reflexivity.
Defined.

(** C8. For a graph identifier (a non-empty string) that has no Step row
    and no Edge row in the store, Load succeeds and returns an empty nodes
    mapping and an empty edges list, and leaves the store as it is. *)
Theorem load_without_rows (st : Store) (g : string) :
  g <> "" -> steps_of g st = [] -> edges_of g st = [] ->
  GET_load (Some g) st
  = (st, json (VObj [("nodes", VObj []); ("edges", VArr [])])).
Proof.
  intros Hg Hs He. rewrite GET_load_eq by exact Hg. now rewrite Hs, He.
Qed.

Lemma load_without_rows_witness :
  GET_load (Some "g1") store_g1
  = (store_g1, json (VObj [("nodes", VObj []); ("edges", VArr [])])).
Proof.
  apply (load_without_rows store_g1 "g1"); [discriminate | reflexivity | reflexivity].
Defined.

(** C10. Whenever Load returns a nodes mapping, its keys are distinct
    and are exactly the nodeName values of the Step rows of the graph,
    and its edges list is the list of the Edge rows of the graph; so an
    edge whose endpoint has no Step row is returned in the edges list
    while that endpoint is not a key of the nodes mapping. *)
Theorem load_keys_are_step_names (st : Store) (g : string)
  (nodes : node_map) (edgesArr : list value) :
  snd (GET_load (Some g) st) = json (load_body nodes edgesArr) ->
  NoDup (map fst nodes) /\
  (forall k, In k (map fst nodes) <->
             exists s, In s (steps st) /\ step_graphId s = g /\ nodeName s = k) /\
  edgesArr = map edge_view (edges_of g st) /\
  (forall e, In e (edges_of g st) ->
             In (edge_view e) edgesArr /\
             ((forall s, In s (steps_of g st) -> nodeName s <> sourceNode e) ->
              ~ In (sourceNode e) (map fst nodes)) /\
             ((forall s, In s (steps_of g st) -> nodeName s <> targetNode e) ->
              ~ In (targetNode e) (map fst nodes))).
Proof.
  intros H. apply GET_load_inv in H. destruct H as (_ & Hgrp & ->).
  apply group_steps_inv in Hgrp. destruct Hgrp as (Hown & Hnd & Hall).
  assert (forall k, In k (map fst nodes) <->
                    exists s, In s (steps_of g st) /\ nodeName s = k) as Hkeys.
  { intros k. rewrite <- (views_of_nonempty k _ Hall). split.
    - intros Hin E. apply (proj1 (own_None_iff k nodes)); [|exact Hin].
      now rewrite Hown, E.
    - intros Hne. destruct (in_dec string_dec k (map fst nodes)) as [|Hn]; [assumption|].
      apply own_None_iff in Hn. rewrite Hown in Hn. cbn [own] in Hn.
      destruct (views_of k (steps_of g st)); [now destruct Hne | discriminate]. }
  split; [apply Hnd; constructor|]. split; [|split; [reflexivity|]].
  - intros k. rewrite Hkeys. unfold steps_of. split.
    + intros (s & Hin & Hk). apply filter_In in Hin. destruct Hin as [Hin Hg].
      apply String.eqb_eq in Hg. now exists s.
    + intros (s & Hin & Hg & Hk). exists s. split; [|exact Hk].
      apply filter_In. split; [exact Hin | now apply String.eqb_eq].
  - intros e He. split; [now apply in_map|]. split.
    + intros Hno Hin. apply Hkeys in Hin. destruct Hin as (s & Hs & Hk).
      now apply (Hno s Hs).
    + intros Hno Hin. apply Hkeys in Hin. destruct Hin as (s & Hs & Hk).
      now apply (Hno s Hs).
Qed.

Lemma load_keys_are_step_names_witness :
  NoDup ["start"] /\
  (forall k, In k ["start"] <->
             exists s, In s (steps store_example) /\ step_graphId s = "g1" /\
                       nodeName s = k) /\
  [VObj [("source", VStr "start"); ("target", VStr "end"); ("used_count", VNum 1)]]
  = map edge_view (edges_of "g1" store_example) /\
  (forall e, In e (edges_of "g1" store_example) ->
             In (edge_view e)
                [VObj [("source", VStr "start"); ("target", VStr "end");
                       ("used_count", VNum 1)]] /\
             ((forall s, In s (steps_of "g1" store_example) ->
                         nodeName s <> sourceNode e) ->
              ~ In (sourceNode e) ["start"]) /\
             ((forall s, In s (steps_of "g1" store_example) ->
                         nodeName s <> targetNode e) ->
              ~ In (targetNode e) ["start"])).
Proof.
  apply (load_keys_are_step_names store_example "g1"
           [("start", [VObj [("stepIndex", VNum 0); ("input", VObj []);
                             ("output", VObj [("msg", VStr "hi")])]])]).
  vm_compute. reflexivity.
Defined.

(** In [store_example] the edge from [start] to [end] is returned while
    [end], which has no Step row, is not a key of the nodes mapping. *)
Example load_dangling_endpoint :
  snd (GET_load (Some "g1") store_example)
  = json (load_body
            [("start", [VObj [("stepIndex", VNum 0); ("input", VObj []);
                              ("output", VObj [("msg", VStr "hi")])]])]
            [VObj [("source", VStr "start"); ("target", VStr "end");
                   ("used_count", VNum 1)]]).
Proof. vm_compute. reflexivity. Qed.





(** A body with only a [graphId] empties the graph: Load afterwards
    returns no node and no edge. *)
Example ingest_only_graphId :
  snd (GET_load (Some "g1")
         (fst (POST_ingest (VObj [("graphId", VStr "g1")]) store_example)))
  = json (VObj [("nodes", VObj []); ("edges", VArr [])]).
Proof. vm_compute. reflexivity. Qed.

(** A node named after an inherited property of plain objects is
    ingested, and Load then fails on it. *)
Example load_inherited_name :
  let req := VObj [("graphId", VStr "g1");
                   ("nodes", VObj [("constructor", VArr [VObj [("stepIndex", VNum 0)]])])] in
  snd (POST_ingest req store_g1) = ok_response /\
  snd (GET_load (Some "g1") (fst (POST_ingest req store_g1))) = failed_response.
Proof. vm_compute. split; reflexivity. Qed.
(* ================================================================== *)
(** * What every outcome of a handler keeps *)
(* ================================================================== *)

Section Respects.
Variable R : Store -> Store -> Prop.
Hypothesis R_refl : forall st, R st st.
Hypothesis R_trans : forall a b c, R a b -> R b c -> R a c.

Lemma respects_ret {A} (a : A) : respects R (ret a).
Proof. intro st. apply R_refl. Qed.

Lemma respects_throw {A} (e : error) : respects R (@throw A e).
Proof. intro st. apply R_refl. Qed.

Lemma respects_lift {A} (e : error) (x : option A) : respects R (lift e x).
Proof. destruct x; [apply respects_ret | apply respects_throw]. Qed.

Lemma respects_prop (v : value) (k : string) : respects R (prop v k).
Proof. apply respects_lift. Qed.

Lemma respects_bind {A B} (m : M A) (k : A -> M B) :
  respects R m -> (forall a, respects R (k a)) -> respects R (bind m k).
Proof.
  intros Hm Hk st. unfold bind. specialize (Hm st).
  destruct (m st) as [st1 [a|e]]; simpl in *.
  - eapply R_trans; [exact Hm | apply Hk].
  - exact Hm.
Qed.

Lemma respects_for_of {A} (body : A -> M unit) (l : list A) :
  (forall x, respects R (body x)) -> respects R (for_of l body).
Proof.
  intros Hb. induction l as [|x l IH]; simpl.
  - apply respects_ret.
  - apply respects_bind; [apply Hb | intros _; exact IH].
Qed.

Lemma respects_try_catch (m : M Response) (r : Response) :
  respects R m -> forall st, R st (fst (try_catch m r st)).
Proof.
  intros Hm st. unfold try_catch. specialize (Hm st).
  destruct (m st) as [st1 [a|e]]; exact Hm.
Qed.

(** The two loops of Ingest, for a relation the two [create] respect. *)
Variable graphId : value.
Hypothesis step_create_respects :
  forall n i a b, respects R (step_create (Some graphId) n i a b).
Hypothesis edge_create_respects :
  forall s t c u, respects R (edge_create (Some graphId) s t c u).

Lemma ingest_call_respects (k : string) (call : value) :
  respects R (ingest_call graphId k call).
Proof.
  unfold ingest_call.
  repeat (apply respects_bind; [try apply respects_prop | intros ?]).
  - apply step_create_respects.
  - apply respects_ret.
Qed.

Lemma ingest_node_respects (nodesObj : value) (k : string) :
  respects R (ingest_node graphId nodesObj k).
Proof.
  unfold ingest_node.
  apply respects_bind; [apply respects_prop | intros calls].
  apply respects_bind; [apply respects_lift | intros cs].
  apply respects_for_of. intros call. apply ingest_call_respects.
Qed.

Lemma ingest_edge_respects (ed : value) : respects R (ingest_edge graphId ed).
Proof.
  unfold ingest_edge.
  repeat (apply respects_bind; [try apply respects_prop | intros ?]).
  - apply edge_create_respects.
  - apply respects_ret.
Qed.

Lemma ingest_loops_respect (req : value) :
  respects R
    (bind (prop req "nodes") (fun nodes =>
     bind (for_of (Object_keys (or_else nodes empty_object))
                  (ingest_node graphId (or_else nodes empty_object))) (fun _ =>
     bind (prop req "edges") (fun edges0 =>
     bind (lift TypeError (iterate (Some (or_else edges0 (VArr []))))) (fun es =>
     bind (for_of es (ingest_edge graphId)) (fun _ =>
     ret (json (VObj [("status", VStr "ok")])))))))).
Proof.
  apply respects_bind; [apply respects_prop | intros nodes].
  apply respects_bind;
    [apply respects_for_of; intros k; apply ingest_node_respects | intros _].
  apply respects_bind; [apply respects_prop | intros edges0].
  apply respects_bind; [apply respects_lift | intros es].
  apply respects_bind;
    [apply respects_for_of; intros ed; apply ingest_edge_respects | intros _].
  apply respects_ret.
Qed.

End Respects.

Lemma graph_exists_graphs (g : string) (st st' : Store) :
  graphs st' = graphs st -> graph_exists g st' = graph_exists g st.
Proof. unfold graph_exists. intros ->. reflexivity. Qed.

Lemma graph_exists_In (g : string) (st : Store) :
  graph_exists g st = true <-> In g (map graph_id (graphs st)).
Proof.
  unfold graph_exists. rewrite existsb_exists, in_map_iff. split.
  - intros [r [Hr He]]. apply String.eqb_eq in He. exists r. auto.
  - intros [r [He Hr]]. exists r. split; [exact Hr|]. apply String.eqb_eq. exact He.
Qed.

Lemma keys_of_kept_rows {R K} (key : R -> K) (keep : R -> bool) (rows : list R) :
  NoDup (map key rows) -> NoDup (map key (filter keep rows)).
Proof.
  induction rows as [|r rows IH]; simpl; intros H; [constructor|].
  inversion H as [|? ? Hn Hd]; subst.
  destruct (keep r); simpl; [constructor|]; auto.
  intros Hin. apply Hn. apply in_map_iff in Hin. destruct Hin as [y [Hy Hin]].
  apply filter_In in Hin. apply in_map_iff. exists y. tauto.
Qed.

Lemma Forall_filter {A} (P : A -> Prop) (p : A -> bool) (l : list A) :
  Forall P l -> Forall P (filter p l).
Proof.
  rewrite !Forall_forall. intros H x Hx. apply filter_In in Hx. apply H, Hx.
Qed.

Lemma NoDup_app_fresh (l : list Z) (n : Z) :
  NoDup l -> Forall (fun x => (x < n)%Z) l -> NoDup (l ++ [n]).
Proof.
  intros Hd Hl. induction l as [|x l IH]; simpl.
  - constructor; [intros []|constructor].
  - inversion Hd; inversion Hl; subst. constructor; auto.
    rewrite in_app_iff. intros [Hin|[Hin|[]]]; [contradiction|]. lia.
Qed.

Lemma step_create_consistent (g n i a b : jsval) :
  respects (keeps consistent) (step_create g n i a b).
Proof.
  intros st Hc. unfold step_create.
  destruct (as_String g) as [g'|]; [|exact Hc].
  destruct (as_String n) as [n'|]; [|exact Hc].
  destruct (as_Int i) as [i'|]; [|exact Hc].
  destruct (as_String a) as [a'|]; [|exact Hc].
  destruct (as_String b) as [b'|]; [|exact Hc].
  destruct (graph_exists g' st) eqn:Hg; [|exact Hc].
  destruct Hc as [[Hs He] [Hgs [Hds [Hde [Hls Hle]]]]]. simpl.
  split; [split|repeat split]; simpl.
  - apply Forall_app. split; [exact Hs|]. constructor; [exact Hg|constructor].
  - exact He.
  - exact Hgs.
  - rewrite map_app. simpl. apply NoDup_app_fresh; [exact Hds|].
    rewrite Forall_forall in *. intros x Hx. apply in_map_iff in Hx.
    destruct Hx as [s [<- Hs']]. apply Hls, Hs'.
  - exact Hde.
  - apply Forall_app. split.
    + eapply Forall_impl; [|exact Hls]. simpl. intros; lia.
    + constructor; [simpl; lia|constructor].
  - exact Hle.
Qed.

Lemma edge_create_consistent (g s t c u : jsval) :
  respects (keeps consistent) (edge_create g s t c u).
Proof.
  intros st Hc. unfold edge_create.
  destruct (as_String g) as [g'|]; [|exact Hc].
  destruct (as_String s) as [s'|]; [|exact Hc].
  destruct (as_String t) as [t'|]; [|exact Hc].
  destruct (as_String_opt c) as [c'|]; [|exact Hc].
  destruct (as_Int_opt 0 u) as [u'|]; [|exact Hc].
  destruct (graph_exists g' st) eqn:Hg; [|exact Hc].
  destruct Hc as [[Hs He] [Hgs [Hds [Hde [Hls Hle]]]]]. simpl.
  split; [split|repeat split]; simpl.
  - exact Hs.
  - apply Forall_app. split; [exact He|]. constructor; [exact Hg|constructor].
  - exact Hgs.
  - exact Hds.
  - rewrite map_app. simpl. apply NoDup_app_fresh; [exact Hde|].
    rewrite Forall_forall in *. intros x Hx. apply in_map_iff in Hx.
    destruct Hx as [e [<- He']]. apply Hle, He'.
  - exact Hls.
  - apply Forall_app. split.
    + eapply Forall_impl; [|exact Hle]. simpl. intros; lia.
    + constructor; [simpl; lia|constructor].
Qed.

Lemma step_deleteMany_consistent (g : value) :
  respects (keeps consistent) (step_deleteMany g).
Proof.
  intros st Hc. unfold step_deleteMany.
  destruct g; try exact Hc; try (destruct (string_filter _); [|exact Hc]);
    destruct Hc as [[Hs He] [Hgs [Hds [Hde [Hls Hle]]]]];
    (split; [split|repeat split]); simpl; auto using Forall_filter, keys_of_kept_rows.
Qed.

Lemma edge_deleteMany_consistent (g : value) :
  respects (keeps consistent) (edge_deleteMany g).
Proof.
  intros st Hc. unfold edge_deleteMany.
  destruct g; try exact Hc; try (destruct (string_filter _); [|exact Hc]);
    destruct Hc as [[Hs He] [Hgs [Hds [Hde [Hls Hle]]]]];
    (split; [split|repeat split]); simpl; auto using Forall_filter, keys_of_kept_rows.
Qed.

Lemma graph_create_consistent (fresh : string) (now : Z) (id name : jsval) :
  respects (keeps consistent) (graph_create fresh now id name).
Proof.
  intros st Hc. unfold graph_create.
  destruct (match id with None => Some fresh | Some _ => as_String id end) as [i|];
    [|exact Hc].
  destruct (as_String name) as [n|]; [|exact Hc].
  destruct (graph_exists i st) eqn:Hg; [exact Hc|].
  destruct Hc as [[Hs He] [Hgs [Hds [Hde [Hls Hle]]]]].
  assert (Hmono : forall x, graph_exists x st = true ->
            graph_exists x (mkStore (graphs st ++ [mkGraph i n now]) (steps st)
                              (edges st) (next_step_id st) (next_edge_id st)) = true).
  { intros x. unfold graph_exists. simpl. rewrite existsb_app. intros ->. reflexivity. }
  split; [split|repeat split]; simpl; auto.
  - eapply Forall_impl; [|exact Hs]. intros s. apply Hmono.
  - eapply Forall_impl; [|exact He]. intros e. apply Hmono.
  - rewrite map_app. simpl.
    assert (Hn : ~ In i (map graph_id (graphs st))).
    { intros Hin. apply graph_exists_In in Hin. congruence. }
    revert Hgs Hn. generalize (map graph_id (graphs st)). intros l.
    induction l as [|x l IH]; simpl; intros Hd Hn.
    + constructor; [intros []|constructor].
    + inversion Hd; subst. constructor.
      * rewrite in_app_iff. intros [H|[H|[]]]; [contradiction|]. apply Hn. auto.
      * apply IH; auto.
Qed.

Lemma keeps_refl (P : Store -> Prop) (st : Store) : keeps P st st.
Proof. intros H; exact H. Qed.

Lemma keeps_trans (P : Store -> Prop) (a b c : Store) :
  keeps P a b -> keeps P b c -> keeps P a c.
Proof. unfold keeps. auto. Qed.

Lemma ingest_try_consistent (req : value) :
  respects (keeps consistent) (ingest_try req).
Proof.
  pose proof (keeps_refl consistent) as Hr.
  pose proof (keeps_trans consistent) as Ht.
  unfold ingest_try.
  apply (respects_bind _ Ht); [apply respects_prop, Hr|]. intros [g|].
  2: apply respects_throw, Hr.
  destruct (negb (truthy (Some g))); [apply respects_throw, Hr|].
  apply (respects_bind _ Ht); [apply step_deleteMany_consistent|intros _].
  apply (respects_bind _ Ht); [apply edge_deleteMany_consistent|intros _].
  apply (ingest_loops_respect (keeps consistent) Hr Ht g).
  - intros. apply step_create_consistent.
  - intros. apply edge_create_consistent.
Qed.

Lemma start_try_consistent (fresh : string) (now : Z) (req : value) :
  respects (keeps consistent) (start_try fresh now req).
Proof.
  pose proof (keeps_refl consistent) as Hr.
  pose proof (keeps_trans consistent) as Ht.
  unfold start_try.
  apply (respects_bind _ Ht); [apply respects_prop, Hr|]. intros g.
  apply (respects_bind _ Ht); [apply respects_prop, Hr|]. intros n.
  apply (respects_bind _ Ht); [apply graph_create_consistent|]. intros row.
  apply respects_ret, Hr.
Qed.

Lemma GET_load_store (graphId : option string) (st : Store) :
  fst (GET_load graphId st) = st.
Proof.
  destruct graphId as [g|]; simpl; [|reflexivity].
  destruct (g =? ""); [reflexivity|].
  unfold try_catch, load_try, bind, step_findMany, edge_findMany, ret. simpl.
  destruct (group_steps _ _); reflexivity.
Qed.

Lemma GET_last_store (st : Store) : fst (GET_last st) = st.
Proof.
  unfold GET_last, try_catch, last_try, bind, graph_findFirst_desc.
  destruct (hd_error _); reflexivity.
Qed.

Lemma GET_list_store (st : Store) : fst (GET_list st) = st.
Proof. reflexivity. Qed.

(** X1.  Every handler keeps the store consistent, whatever the request
    and whether it answers with success or with an error: afterwards every
    Step and Edge row still names a Graph row that is there, no two rows
    of a table share their id, and the counters are beyond every id. *)
Theorem handlers_keep_consistent :
  forall (st : Store),
    consistent st ->
    forall (fresh : string) (now : Z) (start_body ingest_body : value)
           (graphId : option string),
      consistent (fst (POST_start fresh now start_body st)) /\
      consistent (fst (POST_ingest ingest_body st)) /\
      consistent (fst (GET_load graphId st)) /\
      consistent (fst (GET_last st)) /\
      consistent (fst (GET_list st)).
Proof.
  intros st Hc fresh now start_body ingest_body graphId.
  split; [|split; [|split; [|split]]].
  - apply (respects_try_catch (keeps consistent) _ _
             (start_try_consistent fresh now start_body) st Hc).
  - apply (respects_try_catch (keeps consistent) _ _
             (ingest_try_consistent ingest_body) st Hc).
  - rewrite GET_load_store. exact Hc.
  - rewrite GET_last_store. exact Hc.
  - rewrite GET_list_store. exact Hc.
Qed.

Lemma consistent_store_example : consistent store_example.
Proof.
  unfold consistent, referential, keyed. simpl.
  repeat split; repeat constructor; simpl; try lia; intuition congruence.
Qed.

Lemma handlers_keep_consistent_witness :
  consistent store_example /\
  consistent (fst (POST_start "g2" 5 (VObj [("name", VStr "run")]) store_example)) /\
  consistent (fst (POST_ingest req_earlier store_example)) /\
  consistent (fst (GET_load (Some "g1") store_example)) /\
  consistent (fst (GET_last store_example)) /\
  consistent (fst (GET_list store_example)).
Proof.
  split; [exact consistent_store_example|].
  apply (handlers_keep_consistent store_example consistent_store_example
           "g2" 5%Z (VObj [("name", VStr "run")]) req_earlier (Some "g1")).
Defined.

(* ================================================================== *)
(** * Ingest: what a request can touch *)
(* ================================================================== *)

Lemma appended_refl (g : string) (st : Store) : appended g st st.
Proof.
  split; [reflexivity|]. split; [lia|]. split; [lia|].
  exists [], []. rewrite !List.app_nil_r. repeat split; constructor.
Qed.

Lemma appended_trans (g : string) (a b c : Store) :
  appended g a b -> appended g b c -> appended g a c.
Proof.
  intros [Hg [Hs [He [ns [ne [H1 [H2 [H3 H4]]]]]]]]
         [Hg' [Hs' [He' [ns' [ne' [H1' [H2' [H3' H4']]]]]]]].
  split; [congruence|]. split; [lia|]. split; [lia|].
  exists (ns ++ ns')%list, (ne ++ ne')%list.
  rewrite H1', H1, H2', H2, !List.app_assoc.
  split; [reflexivity|]. split; [reflexivity|]. split.
  - apply Forall_app. split; [exact H3|].
    eapply Forall_impl; [|exact H3']. simpl. intros s [? ?]. split; [assumption|lia].
  - apply Forall_app. split; [exact H4|].
    eapply Forall_impl; [|exact H4']. simpl. intros s [? ?]. split; [assumption|lia].
Qed.

Lemma step_create_appended (g : string) (n i a b : jsval) :
  respects (appended g) (step_create (Some (VStr g)) n i a b).
Proof.
  intros st. unfold step_create. simpl as_String.
  destruct (as_String n) as [n'|]; [|apply appended_refl].
  destruct (as_Int i) as [i'|]; [|apply appended_refl].
  destruct (as_String a) as [a'|]; [|apply appended_refl].
  destruct (as_String b) as [b'|]; [|apply appended_refl].
  destruct (graph_exists g st); [|apply appended_refl].
  simpl. split; [reflexivity|]. simpl. split; [lia|]. split; [lia|].
  eexists _, [].
  split; [reflexivity|]. split; [symmetry; apply List.app_nil_r|].
  split; repeat constructor. simpl. lia.
Qed.

Lemma edge_create_appended (g : string) (s t c u : jsval) :
  respects (appended g) (edge_create (Some (VStr g)) s t c u).
Proof.
  intros st. unfold edge_create. simpl as_String.
  destruct (as_String s) as [s'|]; [|apply appended_refl].
  destruct (as_String t) as [t'|]; [|apply appended_refl].
  destruct (as_String_opt c) as [c'|]; [|apply appended_refl].
  destruct (as_Int_opt 0 u) as [u'|]; [|apply appended_refl].
  destruct (graph_exists g st); [|apply appended_refl].
  simpl. split; [reflexivity|]. simpl. split; [lia|]. split; [lia|].
  eexists [], _.
  split; [symmetry; apply List.app_nil_r|]. split; [reflexivity|].
  split; repeat constructor. simpl. lia.
Qed.

Lemma POST_ingest_appended (req : value) (g : string) (st : Store) :
  get_prop req "graphId" = Some (Some (VStr g)) ->
  g <> "" ->
  appended g (clear g st) (fst (POST_ingest req st)).
Proof.
  intros Hg Hne.
  unfold POST_ingest.
  assert (Hrest : exists rest, respects (appended g) rest /\
                    ingest_try req st = rest (clear g st)).
  { eexists. split.
    - apply (ingest_loops_respect (appended g) (appended_refl g) (appended_trans g)
               (VStr g) (step_create_appended g) (edge_create_appended g) req).
    - unfold ingest_try, prop at 1. rewrite Hg. unfold lift, bind at 1, ret.
      assert (Ht : negb (truthy (Some (VStr g))) = false).
      { simpl. apply String.eqb_neq in Hne. rewrite Hne. reflexivity. }
      rewrite Ht. reflexivity. }
  destruct Hrest as [rest [Hr Heq]].
  unfold try_catch. rewrite Heq. specialize (Hr (clear g st)).
  destruct (rest (clear g st)) as [st' [r|e]]; exact Hr.
Qed.

(** X2.  Ingest is not rolled back: once the request names a graph, the
    rows that graph had are deleted whatever the response is.  Afterwards
    the store holds the Graph rows as they were, the rows of the other
    graphs as they were, and after them rows of this graph under ids the
    store had not given out before. *)
Theorem ingest_deletes_first :
  forall (req : value) (g : string) (st : Store),
    get_prop req "graphId" = Some (Some (VStr g)) ->
    g <> "" ->
    appended g (clear g st) (fst (POST_ingest req st)).
Proof. exact POST_ingest_appended. Qed.

Lemma ingest_deletes_first_witness :
  appended "g1" (clear "g1" store_example)
    (fst (POST_ingest
            (VObj [("graphId", VStr "g1");
                   ("nodes", VObj [("a", VArr [VObj [("stepIndex", VNum 1)];
                                               VObj [("stepIndex", VStr "2")]])])])
            store_example)).
Proof.
  apply ingest_deletes_first; [reflexivity | intros H; discriminate H].
Defined.

Lemma POST_ingest_refused (req : value) (st : Store) :
  no_filter req ->
  (forall g, get_prop req "graphId" = Some (Some (VStr g)) -> g = "") ->
  POST_ingest req st = (st, failed_response).
Proof.
  intros Hnf H. unfold POST_ingest, try_catch, ingest_try, prop.
  destruct (get_prop req "graphId") as [[v|]|] eqn:Hg; unfold lift, bind, ret, throw;
    try reflexivity.
  destruct (truthy (Some v)) eqn:Ht; cbn [negb]; [|reflexivity].
  rewrite (step_deleteMany_refused v st (Hnf v Hg)); [reflexivity|].
  intros g ->. specialize (H g eq_refl). subst g. discriminate Ht.
Qed.

(** X3.  A request without a usable [graphId] (none, [null], the empty
    string, or anything that is neither a string nor a filter on the
    column, such as a number) is answered with status 500 and body
    [{error: "Failed"}], and the store is left as it was: nothing is
    deleted. *)
Theorem ingest_without_graphId :
  forall (req : value) (st : Store),
    no_filter req ->
    (forall g, get_prop req "graphId" = Some (Some (VStr g)) -> g = "") ->
    POST_ingest req st = (st, failed_response).
Proof. exact POST_ingest_refused. Qed.

Lemma ingest_without_graphId_witness :
  POST_ingest (VObj [("graphId", VNum 123);
                     ("nodes", VObj [("a", VArr [VObj [("stepIndex", VNum 1)]])])])
              store_example
  = (store_example, failed_response).
Proof.
  apply ingest_without_graphId.
  - intros v H. vm_compute in H. injection H as <-. reflexivity.
  - intros g H. vm_compute in H. discriminate.
Defined.

(* ================================================================== *)
(** * A filter in the place of the graph *)
(* ================================================================== *)

Lemma inert_ret {A} (P : A -> Prop) (a : A) : P a -> inert P (ret a).
Proof. intros H. exists (Return a). split; [reflexivity|]. now intros a' [= <-]. Qed.

Lemma inert_throw {A} (P : A -> Prop) (e : error) : inert P (@throw A e).
Proof. exists (Throw e). split; [reflexivity | discriminate]. Qed.

Lemma inert_lift {A} (e : error) (x : option A) : inert (fun _ => True) (lift e x).
Proof. destruct x; [now apply inert_ret | apply inert_throw]. Qed.

Lemma inert_bind {A B} (P : A -> Prop) (Q : B -> Prop) (m : M A) (k : A -> M B) :
  inert P m -> (forall a, inert Q (k a)) -> inert Q (bind m k).
Proof.
  intros [[a|e] [Hm _]] Hk.
  - destruct (Hk a) as [o [Ho Hq]]. exists o. split; [|exact Hq].
    intros st. unfold bind. now rewrite Hm.
  - exists (Throw e). split; [|discriminate].
    intros st. unfold bind. now rewrite Hm.
Qed.

Lemma inert_for_of {A} (body : A -> M unit) (l : list A) :
  (forall x, inert (fun _ => True) (body x)) ->
  inert (fun _ => True) (for_of l body).
Proof.
  intros Hb. induction l as [|x l IH]; cbn [for_of]; [now apply inert_ret|].
  apply (inert_bind (fun _ => True)); [apply Hb | intros _; exact IH].
Qed.

Section Inert.

Variable graphId : value.
Hypothesis no_string : as_String (Some graphId) = None.

Lemma step_create_inert (n i a b : jsval) :
  inert (fun _ => True) (step_create (Some graphId) n i a b).
Proof.
  exists (Throw PrismaValidationError). split; [|discriminate].
  intros st. unfold step_create. now rewrite no_string.
Qed.

Lemma edge_create_inert (s t c u : jsval) :
  inert (fun _ => True) (edge_create (Some graphId) s t c u).
Proof.
  exists (Throw PrismaValidationError). split; [|discriminate].
  intros st. unfold edge_create. now rewrite no_string.
Qed.

Lemma ingest_node_inert (nodesObj : value) (k : string) :
  inert (fun _ => True) (ingest_node graphId nodesObj k).
Proof.
  unfold ingest_node, prop.
  apply (inert_bind (fun _ => True)); [apply inert_lift | intros calls].
  apply (inert_bind (fun _ => True)); [apply inert_lift | intros cs].
  apply inert_for_of. intros call. unfold ingest_call, prop.
  apply (inert_bind (fun _ => True)); [apply inert_lift | intros si].
  apply (inert_bind (fun _ => True)); [apply inert_lift | intros i].
  apply (inert_bind (fun _ => True)); [apply inert_lift | intros o].
  apply (inert_bind (fun _ => True)); [apply step_create_inert | intros _].
  now apply inert_ret.
Qed.

Lemma ingest_edge_inert (ed : value) :
  inert (fun _ => True) (ingest_edge graphId ed).
Proof.
  unfold ingest_edge, prop.
  apply (inert_bind (fun _ => True)); [apply inert_lift | intros s].
  apply (inert_bind (fun _ => True)); [apply inert_lift | intros t].
  apply (inert_bind (fun _ => True)); [apply inert_lift | intros c].
  apply (inert_bind (fun _ => True)); [apply inert_lift | intros u].
  apply (inert_bind (fun _ => True)); [apply edge_create_inert | intros _].
  now apply inert_ret.
Qed.

End Inert.

Lemma string_filter_object (v : value) (p : string -> bool) :
  string_filter v = Some p -> exists fs, v = VObj fs.
Proof. destruct v; try discriminate. intros _. now eexists. Qed.

Lemma deleteMany_filter (fs : list (string * value)) (p : string -> bool) (st : Store) :
  string_filter (VObj fs) = Some p ->
  bind (step_deleteMany (VObj fs)) (fun _ => edge_deleteMany (VObj fs)) st
  = (deleted p st, Return tt).
Proof.
  intros Hf. unfold bind, step_deleteMany, edge_deleteMany. now rewrite Hf.
Qed.

(** With a filter in the place of the graph, Ingest deletes the rows the
    filter selects, of whatever graph; no row can be inserted, so that the
    response, the same on every store, is the acknowledgement when the
    request has no call and no edge, and the failure otherwise. *)
Lemma POST_ingest_filter (req v : value) (p : string -> bool) :
  get_prop req "graphId" = Some (Some v) ->
  string_filter v = Some p ->
  (forall st, POST_ingest req st = (deleted p st, ok_response)) \/
  (forall st, POST_ingest req st = (deleted p st, failed_response)).
Proof.
  intros Hg Hf. destruct (string_filter_object v p Hf) as [fs ->].
  assert (Hrest : exists rest : M Response,
             inert (fun r => r = ok_response) rest /\
             forall st, ingest_try req st = rest (deleted p st)).
  { eexists. split.
    2:{ intros st. unfold ingest_try, prop at 1. rewrite Hg.
        unfold lift, bind at 1, ret. cbn [truthy negb].
        unfold bind at 1. unfold step_deleteMany. rewrite Hf.
        unfold bind at 1. unfold edge_deleteMany. rewrite Hf.
        cbn [graphs steps edges next_step_id next_edge_id]. reflexivity. }
    unfold prop.
    apply (inert_bind (fun _ => True)); [apply inert_lift | intros nodes].
    apply (inert_bind (fun _ => True));
      [apply inert_for_of; intros k; now apply ingest_node_inert | intros _].
    apply (inert_bind (fun _ => True)); [apply inert_lift | intros edges0].
    apply (inert_bind (fun _ => True)); [apply inert_lift | intros es].
    apply (inert_bind (fun _ => True));
      [apply inert_for_of; intros ed; now apply ingest_edge_inert | intros _].
    now apply inert_ret. }
  destruct Hrest as (rest & ([r|e] & Ho & Hr) & Heq).
  - left. intros st. unfold POST_ingest, try_catch.
    rewrite Heq, Ho. now rewrite (Hr r eq_refl).
  - right. intros st. unfold POST_ingest, try_catch. now rewrite Heq, Ho.
Qed.



(** The body [{ graphId: {} }] is acknowledged and leaves no Step and no
    Edge row, of any graph. *)
Example ingest_empty_filter :
  POST_ingest (VObj [("graphId", VObj [])]) store_two_graphs
  = (mkStore (graphs store_two_graphs) [] []
             (next_step_id store_two_graphs) (next_edge_id store_two_graphs),
     ok_response).
Proof. vm_compute. reflexivity. Qed.

(** A filter that names two graphs and comes with a call: the rows of
    both graphs are deleted, and the request fails at the first insert. *)
Example ingest_in_filter :
  POST_ingest (VObj [("graphId", VObj [("in", VArr [VStr "g1"; VStr "g2"])]);
                     ("nodes", VObj [("a", VArr [VObj [("stepIndex", VNum 0)]])])])
              store_two_graphs
  = (mkStore (graphs store_two_graphs) [] []
             (next_step_id store_two_graphs) (next_edge_id store_two_graphs),
     failed_response).
Proof. vm_compute. reflexivity. Qed.

(* ================================================================== *)
(** * One graph and the others *)
(* ================================================================== *)

Lemma filter_filter_other {R} (graphId : R -> string) (g g' : string) (l : list R) :
  g <> g' ->
  filter (fun r => graphId r =? g') (filter (other_graph graphId g) l)
  = filter (fun r => graphId r =? g') l.
Proof.
  intros Hne. induction l as [|x l IH]; simpl; [reflexivity|].
  unfold other_graph at 1. destruct (graphId x =? g) eqn:E; simpl.
  - apply String.eqb_eq in E.
    assert (E' : (graphId x =? g') = false) by (apply String.eqb_neq; congruence).
    rewrite E'. exact IH.
  - destruct (graphId x =? g'); [f_equal|]; exact IH.
Qed.

Lemma filter_none {R} (graphId : R -> string) (P : R -> Prop) (g g' : string)
  (l : list R) :
  g <> g' ->
  Forall (fun r => graphId r = g /\ P r) l ->
  filter (fun r => graphId r =? g') l = [].
Proof.
  intros Hne H. induction H as [|x l [Hx _] _ IH]; simpl; [reflexivity|].
  assert (E : (graphId x =? g') = false) by (apply String.eqb_neq; congruence).
  rewrite E. exact IH.
Qed.

(** What an ingestion does to the rows of a graph it does not name. *)
Lemma POST_ingest_others (req : value) (st : Store) (g' : string) :
  no_filter req ->
  get_prop req "graphId" <> Some (Some (VStr g')) ->
  steps_of g' (fst (POST_ingest req st)) = steps_of g' st /\
  edges_of g' (fst (POST_ingest req st)) = edges_of g' st.
Proof.
  intros Hnf Hne.
  destruct (get_prop req "graphId") as [[v|]|] eqn:Hg.
  2,3: rewrite POST_ingest_refused;
       [split; reflexivity | exact Hnf | intros g; congruence].
  assert (Hcases : (exists g, v = VStr g /\ g <> "" /\ g <> g') \/
                   (forall g, v = VStr g -> g = "")).
  { destruct v as [|b|n|d|s|l|fs]; try (right; intros; discriminate).
    destruct (String.eqb_spec s "") as [->|Hs].
    - right. intros g [= <-]. reflexivity.
    - left. exists s. repeat split; auto. intros ->. apply Hne. reflexivity. }
  destruct Hcases as [[g [-> [Hg1 Hg2]]]|Hno].
  - destruct (POST_ingest_appended req g st Hg Hg1)
      as [_ [_ [_ [ns [ne [H1 [H2 [H3 H4]]]]]]]].
    unfold steps_of, edges_of. rewrite H1, H2. simpl.
    rewrite !filter_app, !filter_filter_other by exact Hg2.
    rewrite (filter_none step_graphId _ g g' ns Hg2 H3).
    rewrite (filter_none edge_graphId _ g g' ne Hg2 H4).
    rewrite !List.app_nil_r. split; reflexivity.
  - rewrite POST_ingest_refused; [split; reflexivity | exact Hnf |].
    intros g Hg'. rewrite Hg in Hg'. injection Hg' as ->. apply Hno. reflexivity.
Qed.

(** Load reads the rows of its graph only. *)
Lemma GET_load_rows (g : string) (st st' : Store) :
  steps_of g st' = steps_of g st -> edges_of g st' = edges_of g st ->
  snd (GET_load (Some g) st') = snd (GET_load (Some g) st).
Proof.
  intros Hs He. destruct (String.eqb_spec g "") as [->|Hg].
  - reflexivity.
  - rewrite !GET_load_eq by exact Hg. simpl. rewrite Hs, He. reflexivity.
Qed.

(** X4.  Graphs are isolated from each other: whatever a request that
    names one graph (and not, by a filter, several) is and however it is
    answered, the Step and Edge rows of every other graph are as before,
    and so is what Load returns for it. *)
Theorem ingest_isolated :
  forall (req : value) (st : Store) (g' : string),
    no_filter req ->
    get_prop req "graphId" <> Some (Some (VStr g')) ->
    steps_of g' (fst (POST_ingest req st)) = steps_of g' st /\
    edges_of g' (fst (POST_ingest req st)) = edges_of g' st /\
    snd (GET_load (Some g') (fst (POST_ingest req st))) = snd (GET_load (Some g') st).
Proof.
  intros req st g' Hnf Hne.
  destruct (POST_ingest_others req st g' Hnf Hne) as [Hs He].
  split; [exact Hs|]. split; [exact He|]. now apply GET_load_rows.
Qed.

Lemma ingest_isolated_witness :
  steps_of "g2" (fst (POST_ingest req_fractional store_two_graphs))
  = steps_of "g2" store_two_graphs /\
  edges_of "g2" (fst (POST_ingest req_fractional store_two_graphs))
  = edges_of "g2" store_two_graphs /\
  snd (GET_load (Some "g2") (fst (POST_ingest req_fractional store_two_graphs)))
  = snd (GET_load (Some "g2") store_two_graphs).
Proof.
  apply ingest_isolated.
  - intros v H. vm_compute in H. injection H as <-. reflexivity.
  - intros H. vm_compute in H. discriminate H.
Defined.

(** The request of the witness replaces the rows of its own graph, and
    the other graph has rows. *)
Example ingest_isolated_example :
  map step_id (steps_of "g1" store_two_graphs) = [1%Z] /\
  map step_id (steps_of "g1" (fst (POST_ingest req_fractional store_two_graphs)))
  = [3; 4; 5]%Z /\
  map step_id (steps_of "g2" (fst (POST_ingest req_fractional store_two_graphs)))
  = [2%Z] /\
  map edge_id (edges_of "g2" (fst (POST_ingest req_fractional store_two_graphs)))
  = [2%Z] /\
  status (snd (POST_ingest req_fractional store_two_graphs)) = 200%Z.
Proof. vm_compute. repeat split; reflexivity. Qed.

(* ================================================================== *)
(** * The same request again *)
(* ================================================================== *)

Lemma filter_again {R} (keep : R -> bool) (rows : list R) :
  filter keep (filter keep rows) = filter keep rows.
Proof.
  induction rows as [|r rows IH]; simpl; [reflexivity|].
  destruct (keep r) eqn:E; simpl; [rewrite E, IH|]; auto.
Qed.

Lemma deleted_again (p : string -> bool) (st : Store) :
  deleted p (deleted p st) = deleted p st.
Proof. unfold deleted. simpl. now rewrite !filter_again. Qed.

(** Load answers by the data of the rows of its graph. *)
Lemma GET_load_data (g : string) (st st' : Store) :
  map step_data (steps_of g st') = map step_data (steps_of g st) ->
  map edge_data (edges_of g st') = map edge_data (edges_of g st) ->
  snd (GET_load (Some g) st') = snd (GET_load (Some g) st).
Proof.
  intros Hs He. destruct (String.eqb_spec g "") as [->|Hg].
  - reflexivity.
  - rewrite !GET_load_eq by exact Hg. cbn [snd].
    rewrite load_response_data, (load_response_data (steps_of g st)).
    now rewrite Hs, He.
Qed.

(** C5. When Ingest accepted a request, Load of any graph leaves the
    store as it is, Ingest accepts the same request again, and then, for
    every graph, Load returns the same response as before and the graph
    holds the same Step and Edge rows as before up to their store-assigned
    ids: none is duplicated. *)
Theorem reingest_idempotent (req : value) (st st1 : Store) (r1 : Response) :
  POST_ingest req st = (st1, r1) -> status r1 = 200%Z ->
  exists st2,
    forall g,
      fst (GET_load (Some g) st1) = st1 /\
      POST_ingest req (fst (GET_load (Some g) st1)) = (st2, ok_response) /\
      snd (GET_load (Some g) st2) = snd (GET_load (Some g) st1) /\
      map step_data (steps_of g st2) = map step_data (steps_of g st1) /\
      map edge_data (edges_of g st2) = map edge_data (edges_of g st1).
Proof.
  intros Hi Hs.
  assert (Hagain : exists st2,
             POST_ingest req st1 = (st2, ok_response) /\
             forall g,
               map step_data (steps_of g st2) = map step_data (steps_of g st1) /\
               map edge_data (edges_of g st2) = map edge_data (edges_of g st1)).
  { assert (Hcases : no_filter req \/
                     exists v p, get_prop req "graphId" = Some (Some v) /\
                                 string_filter v = Some p).
    { unfold no_filter. destruct (get_prop req "graphId") as [[v|]|];
        try (left; intros; discriminate).
      destruct (string_filter v) as [p|] eqn:Hf.
      - right. now exists v, p.
      - left. now intros v' [= <-]. }
    destruct Hcases as [Hnf|(v & p & Hg & Hf)].
    - destruct (POST_ingest_ok _ _ _ _ Hnf Hi Hs)
        as (g0 & sds & eds & Hplan & Has & Hae & -> & _).
      destruct (ingest_plan_inv _ _ _ _ Hplan) as (Hg & _).
      exists (ingested g0 sds eds (ingested g0 sds eds st)).
      assert (Hp : POST_ingest req (ingested g0 sds eds st)
                   = (ingested g0 sds eds (ingested g0 sds eds st), ok_response)).
      { apply POST_ingest_plan; [exact Hplan | |]; unfold accepts, graph_exists in *;
          now rewrite ingested_graphs. }
      split; [exact Hp|]. intros g.
      destruct (String.eqb_spec g g0) as [->|Hne].
      + now rewrite !steps_of_ingested, !edges_of_ingested.
      + destruct (POST_ingest_others req (ingested g0 sds eds st) g Hnf) as [H1 H2].
        * rewrite Hg. intros [= E]. now apply Hne.
        * rewrite Hp in H1, H2. cbn [fst] in H1, H2. now rewrite H1, H2.
    - destruct (POST_ingest_filter req v p Hg Hf) as [H|H]; rewrite H in Hi;
        injection Hi as <- <-; [|discriminate Hs].
      exists (deleted p st). rewrite H, deleted_again. now split. }
  destruct Hagain as (st2 & Hp & Hrows). exists st2. intros g.
  rewrite GET_load_store. destruct (Hrows g) as [H1 H2].
  split; [reflexivity|]. split; [exact Hp|].
  split; [now apply GET_load_data|]. now split.
Qed.

Lemma reingest_idempotent_witness :
  exists st2,
    forall g,
      fst (GET_load (Some g) (fst (POST_ingest req_fractional store_example)))
      = fst (POST_ingest req_fractional store_example) /\
      POST_ingest req_fractional
        (fst (GET_load (Some g) (fst (POST_ingest req_fractional store_example))))
      = (st2, ok_response) /\
      snd (GET_load (Some g) st2)
      = snd (GET_load (Some g) (fst (POST_ingest req_fractional store_example))) /\
      map step_data (steps_of g st2)
      = map step_data (steps_of g (fst (POST_ingest req_fractional store_example))) /\
      map edge_data (edges_of g st2)
      = map edge_data (edges_of g (fst (POST_ingest req_fractional store_example))).
Proof.
  apply (reingest_idempotent req_fractional store_example _ ok_response).
  - vm_compute. reflexivity.
  - reflexivity.
Defined.

(* ================================================================== *)
(** * Creating graphs and finding the latest *)
(* ================================================================== *)

Lemma POST_start_cases (fresh : string) (now : Z) (req : value) (st : Store) :
  POST_start fresh now req st = (st, created_failed) \/
  exists row,
    graph_exists (graph_id row) st = false /\
    graph_id row = match get_prop req "graphId" with
                   | Some (Some (VStr i)) => i
                   | _ => fresh
                   end /\
    (forall name0, get_prop req "name" = Some name0 ->
                   VStr (graph_name row) = or_else name0 (VStr "Untitled")) /\
    createdAt row = now /\
    POST_start fresh now req st
    = (mkStore (graphs st ++ [row]) (steps st) (edges st)
               (next_step_id st) (next_edge_id st),
       graphId_response (VStr (graph_id row))).
Proof.
  unfold POST_start, try_catch, start_try, prop.
  destruct (get_prop req "graphId") as [id|] eqn:Hid; [|left; reflexivity].
  destruct (get_prop req "name") as [name0|] eqn:Hname; [|left; reflexivity].
  unfold lift, bind, ret, graph_create.
  destruct (match id with None => Some fresh | Some _ => as_String id end)
    as [i|] eqn:Hi; [|left; reflexivity].
  simpl as_String.
  destruct (or_else name0 (VStr "Untitled")) as [| | | |n| |] eqn:Hn;
    try (left; reflexivity).
  destruct (graph_exists i st) eqn:Hex; [left; reflexivity|].
  right. exists (mkGraph i n now). simpl.
  split; [exact Hex|]. split.
  - destruct id as [[| | | |s| |]|]; simpl in Hi; congruence.
  - split; [|split; reflexivity]. intros name1 [= <-]. symmetry. exact Hn.
Qed.


Lemma graph_exists_added (row : Graph) (st : Store) :
  graph_exists (graph_id row)
    (mkStore (graphs st ++ [row]) (steps st) (edges st)
             (next_step_id st) (next_edge_id st)) = true.
Proof.
  unfold graph_exists. simpl. rewrite existsb_app. simpl.
  rewrite String.eqb_refl. apply orb_true_iff. right. reflexivity.
Qed.

(** X6.  Create is not idempotent: once a request that names its
    [graphId] has succeeded, the same request is answered with status 500
    (whatever id the store would generate and whatever the time), and the
    store stays as the first request left it. *)
Theorem start_twice_fails :
  forall (fresh fresh' : string) (now now' : Z) (req : value) (st : Store) (i : string),
    get_prop req "graphId" = Some (Some (VStr i)) ->
    status (snd (POST_start fresh now req st)) = 200%Z ->
    POST_start fresh' now' req (fst (POST_start fresh now req st))
    = (fst (POST_start fresh now req st), created_failed).
Proof.
  intros fresh fresh' now now' req st i Hid Hok.
  destruct (POST_start_cases fresh now req st) as [Hf|[row [_ [Hrow [_ [_ Heq]]]]]].
  - rewrite Hf in Hok. discriminate Hok.
  - rewrite Heq. simpl fst. rewrite Hid in Hrow.
    pose proof (graph_exists_added row st) as Hex. rewrite Hrow in Hex.
    destruct (POST_start_cases fresh' now' req
                (mkStore (graphs st ++ [row]) (steps st) (edges st)
                         (next_step_id st) (next_edge_id st)))
      as [Hf'|[row' [Hnew [Hrow' _]]]]; [exact Hf'|].
    rewrite Hid in Hrow'. rewrite Hrow' in Hnew. congruence.
Qed.

Lemma start_twice_fails_witness :
  POST_start "u2" 9 (VObj [("graphId", VStr "g7")])
    (fst (POST_start "u1" 8 (VObj [("graphId", VStr "g7")]) store_example))
  = (fst (POST_start "u1" 8 (VObj [("graphId", VStr "g7")]) store_example),
     created_failed).
Proof.
  apply (start_twice_fails "u1" "u2" 8%Z 9%Z (VObj [("graphId", VStr "g7")])
           store_example "g7"); reflexivity.
Defined.

Lemma insert_desc_perm (r : Graph) (l : list Graph) :
  Permutation (insert_desc r l) (r :: l).
Proof.
  induction l as [|x l IH]; simpl; [reflexivity|].
  destruct (createdAt x <? createdAt r)%Z; [reflexivity|].
  rewrite IH. apply perm_swap.
Qed.

Lemma order_desc_perm (l : list Graph) : Permutation (order_desc l) l.
Proof.
  induction l as [|x l IH]; simpl; [reflexivity|].
  rewrite insert_desc_perm. constructor. exact IH.
Qed.

Lemma insert_desc_sorted (r : Graph) (l : list Graph) :
  StronglySorted (fun a b => (createdAt b <= createdAt a)%Z) l ->
  StronglySorted (fun a b => (createdAt b <= createdAt a)%Z) (insert_desc r l).
Proof.
  induction l as [|x l IH]; simpl; intros Hs.
  - constructor; constructor.
  - inversion Hs as [|? ? Hl Hx]; subst.
    destruct (createdAt x <? createdAt r)%Z eqn:E.
    + apply Z.ltb_lt in E. constructor; [exact Hs|].
      constructor; [lia|]. eapply Forall_impl; [|exact Hx]. simpl. intros; lia.
    + apply Z.ltb_ge in E. constructor; [apply IH, Hl|].
      rewrite Forall_forall. intros y Hy.
      apply (Permutation_in _ (insert_desc_perm r l)) in Hy.
      destruct Hy as [<-|Hy]; [exact E|].
      rewrite Forall_forall in Hx. apply Hx, Hy.
Qed.

Lemma order_desc_sorted (l : list Graph) :
  StronglySorted (fun a b => (createdAt b <= createdAt a)%Z) (order_desc l).
Proof.
  induction l as [|x l IH]; simpl; [constructor|]. apply insert_desc_sorted, IH.
Qed.

Lemma order_desc_head (l : list Graph) :
  match hd_error (order_desc l) with
  | None => l = []
  | Some row => latest_in row l
  end.
Proof.
  pose proof (order_desc_perm l) as Hp. pose proof (order_desc_sorted l) as Hs.
  destruct (order_desc l) as [|row rest]; simpl.
  - apply Permutation_nil. exact Hp.
  - inversion Hs as [|? ? _ Hx]; subst. split.
    + apply (Permutation_in _ Hp). left. reflexivity.
    + intros r Hr. apply (Permutation_in _ (Permutation_sym Hp)) in Hr.
      destruct Hr as [<-|Hr]; [lia|]. rewrite Forall_forall in Hx. apply Hx, Hr.
Qed.

Lemma GET_last_eq (st : Store) :
  GET_last st
  = (st, graphId_response (match hd_error (order_desc (graphs st)) with
                           | Some row => VStr (graph_id row)
                           | None => VNull
                           end)).
Proof.
  unfold GET_last, try_catch, last_try, bind, graph_findFirst_desc.
  destruct (hd_error _); reflexivity.
Qed.

(** X7.  The latest graph: when the store holds no graph the answer is
    [{graphId: null}] with status 200, not an error; otherwise it is the id
    of a graph that no other graph was created after.  The store is left
    as it was. *)
Theorem last_is_latest :
  forall (st : Store),
    (graphs st = [] /\ GET_last st = (st, graphId_response VNull)) \/
    (exists row,
       latest_in row (graphs st) /\
       GET_last st = (st, graphId_response (VStr (graph_id row)))).
Proof.
  intros st. rewrite GET_last_eq.
  pose proof (order_desc_head (graphs st)) as H.
  destruct (hd_error (order_desc (graphs st))) as [row|].
  - right. exists row. split; [exact H|reflexivity].
  - left. split; [exact H|reflexivity].
Qed.

(** X8.  The list of graphs holds every Graph row exactly once, ordered
    by creation time with the latest first, each as its [id], [name] and
    [createdAt]; the store is left as it was. *)
Theorem list_is_sorted :
  forall (st : Store),
    exists rows,
      Permutation rows (graphs st) /\
      StronglySorted (fun a b => (createdAt b <= createdAt a)%Z) rows /\
      GET_list st = (st, json (VArr (map graph_json rows))).
Proof.
  intros st. exists (order_desc (graphs st)).
  split; [apply order_desc_perm|]. split; [apply order_desc_sorted|]. reflexivity.
Qed.

Lemma order_desc_latest (l : list Graph) (row : Graph) :
  (forall r, In r l -> (createdAt r < createdAt row)%Z) ->
  order_desc (l ++ [row]) = row :: order_desc l.
Proof.
  induction l as [|x l IH]; simpl; intros H; [reflexivity|].
  rewrite IH by (intros r Hr; apply H; right; exact Hr).
  simpl. assert (E : (createdAt row <? createdAt x)%Z = false).
  { apply Z.ltb_ge. specialize (H x (or_introl eq_refl)). lia. }
  rewrite E. reflexivity.
Qed.

(** X9.  Create then latest: when a graph is created at a time later than
    that of every graph in the store, the latest graph is the created
    one. *)
Theorem start_then_last :
  forall (fresh : string) (now : Z) (req : value) (st st' : Store) (id : value),
    POST_start fresh now req st = (st', graphId_response id) ->
    (forall r, In r (graphs st) -> (createdAt r < now)%Z) ->
    GET_last st' = (st', graphId_response id).
Proof.
  intros fresh now req st st' id Hstart Hlate.
  destruct (POST_start_cases fresh now req st) as [Hf|[row [_ [_ [_ [Hnow Heq]]]]]].
  - rewrite Hf in Hstart. discriminate Hstart.
  - rewrite Heq in Hstart. injection Hstart as <- <-.
    rewrite GET_last_eq. simpl graphs.
    rewrite order_desc_latest by (rewrite Hnow; exact Hlate). reflexivity.
Qed.

Lemma start_then_last_witness :
  GET_last (fst (POST_start "u1" 8 (VObj [("name", VStr "run")]) store_example))
  = (fst (POST_start "u1" 8 (VObj [("name", VStr "run")]) store_example),
     graphId_response (VStr "u1")).
Proof.
  apply (start_then_last "u1" 8%Z (VObj [("name", VStr "run")]) store_example).
  - reflexivity.
  - simpl. intros r [<-|[]]. simpl. lia.
Defined.

(* ================================================================== *)
(** * Load: when it succeeds and what it groups *)
(* ================================================================== *)

Lemma own_Some_In (k : string) (nodes : node_map) (cs : list value) :
  own k nodes = Some cs -> In k (map fst nodes).
Proof.
  intros H. destruct (in_dec string_dec k (map fst nodes)) as [Hin|Hn]; [exact Hin|].
  apply own_None_iff in Hn. congruence.
Qed.

Lemma add_step_names (nodes nodes' : node_map) (s : Step) :
  add_step nodes s = Return nodes' ->
  Forall (fun k => inherited k = false) (map fst nodes) ->
  inherited (nodeName s) = false /\
  Forall (fun k => inherited k = false) (map fst nodes').
Proof.
  unfold add_step. intros H Hk.
  destruct (own (nodeName s) nodes) as [cs|] eqn:Ho.
  - destruct (call_of_step s) as [c|]; [|discriminate H]. injection H as <-.
    rewrite keys_push. split; [|exact Hk].
    rewrite Forall_forall in Hk. apply Hk. eapply own_Some_In, Ho.
  - destruct (inherited (nodeName s)) eqn:Hi.
    + destruct (call_of_step s); discriminate H.
    + destruct (call_of_step s) as [c|]; [|discriminate H]. injection H as <-.
      split; [reflexivity|]. rewrite map_app. apply Forall_app. split; [exact Hk|].
      constructor; [exact Hi|constructor].
Qed.

Lemma group_steps_names (l : list Step) (nodes0 nodes : node_map) :
  group_steps nodes0 l = Return nodes ->
  Forall (fun k => inherited k = false) (map fst nodes0) ->
  Forall (fun s => inherited (nodeName s) = false) l.
Proof.
  revert nodes0. induction l as [|s l IH]; simpl; intros nodes0 H Hk; [constructor|].
  destruct (add_step nodes0 s) as [nodes1|e] eqn:Ha; [|discriminate H].
  destruct (add_step_names _ _ _ Ha Hk) as [Hs Hk1].
  constructor; [exact Hs|]. eapply IH; eassumption.
Qed.

Lemma call_of_step_parses (s : Step) :
  call_of_step s <> None <->
  parse_stored (inputJson s) <> None /\ parse_stored (outputJson s) <> None.
Proof.
  unfold call_of_step.
  destruct (parse_stored (inputJson s)), (parse_stored (outputJson s));
    split; try intros [? ?]; try split; congruence.
Qed.

(** X10.  Load succeeds exactly when, for every Step row of the graph,
    both stored payloads are JSON text (or empty) and the node name is not
    a property name that plain objects inherit (such as [constructor] or
    [toString]); otherwise the answer is status 500 with body
    [{error: "Failed"}]. *)
Theorem load_succeeds_iff :
  forall (g : string) (st : Store),
    g <> "" ->
    (status (snd (GET_load (Some g) st)) = 200%Z <->
     Forall (fun s => parse_stored (inputJson s) <> None /\
                      parse_stored (outputJson s) <> None /\
                      inherited (nodeName s) = false)
            (steps_of g st)) /\
    (status (snd (GET_load (Some g) st)) = 200%Z \/
     snd (GET_load (Some g) st) = failed_response).
Proof.
  intros g st Hg. rewrite GET_load_eq by exact Hg. simpl snd. unfold load_response.
  split; [|destruct (group_steps [] (steps_of g st)); [left|right]; reflexivity].
  split.
  - destruct (group_steps [] (steps_of g st)) as [nodes|e] eqn:Hgs;
      [intros _ | intros H; discriminate H].
    pose proof (group_steps_names _ _ _ Hgs (Forall_nil _)) as Hn.
    destruct (group_steps_inv _ _ _ Hgs) as [_ [_ Hp]].
    rewrite Forall_forall in *. intros s Hs.
    destruct (proj1 (call_of_step_parses s) (Hp s Hs)) as [Hi Ho].
    repeat split; auto.
  - intros H.
    destruct (group_steps_ok (steps_of g st) []) as [nodes Hgs].
    + eapply Forall_impl; [|exact H]. simpl. intros s [Hi [Ho Hn]].
      split; [apply call_of_step_parses; split; assumption | exact Hn].
    + rewrite Hgs. reflexivity.
Qed.

Lemma load_succeeds_iff_witness :
  (status (snd (GET_load (Some "g1") store_example)) = 200%Z <->
   Forall (fun s => parse_stored (inputJson s) <> None /\
                    parse_stored (outputJson s) <> None /\
                    inherited (nodeName s) = false)
          (steps_of "g1" store_example)) /\
  (status (snd (GET_load (Some "g1") store_example)) = 200%Z \/
   snd (GET_load (Some "g1") store_example) = failed_response).
Proof.
  apply load_succeeds_iff. intros H. discriminate H.
Defined.

Lemma total_push (k : string) (c : value) (nodes : node_map) (cs : list value) :
  own k nodes = Some cs -> total (push k c nodes) = S (total nodes).
Proof.
  unfold total. induction nodes as [|[k' l] nodes IH]; simpl; [discriminate|].
  destruct (k' =? k); simpl; intros H.
  - rewrite !length_app. simpl. lia.
  - rewrite !length_app. rewrite IH by exact H. lia.
Qed.

Lemma total_app (k : string) (c : value) (nodes : node_map) :
  total (nodes ++ [(k, [c])])%list = S (total nodes).
Proof.
  unfold total. rewrite map_app, List.concat_app, length_app. simpl. lia.
Qed.

Lemma group_steps_total (l : list Step) (nodes0 nodes : node_map) :
  group_steps nodes0 l = Return nodes ->
  total nodes = (total nodes0 + List.length l)%nat.
Proof.
  revert nodes0. induction l as [|s l IH]; simpl; intros nodes0 H.
  - injection H as <-. lia.
  - destruct (add_step nodes0 s) as [nodes1|e] eqn:Ha; [|discriminate H].
    rewrite (IH _ H). unfold add_step in Ha.
    destruct (own (nodeName s) nodes0) as [cs|] eqn:Ho.
    + destruct (call_of_step s) as [c|]; [|discriminate Ha]. injection Ha as <-.
      rewrite (total_push _ _ _ _ Ho). lia.
    + destruct (inherited (nodeName s)); destruct (call_of_step s) as [c|];
        try discriminate Ha. injection Ha as <-. rewrite total_app. lia.
Qed.

Lemma views_of_filter (k : string) (l : list Step) :
  Forall (fun s => call_of_step s <> None) l ->
  map Some (views_of k l)
  = map call_of_step (filter (fun s => nodeName s =? k) l).
Proof.
  unfold views_of. induction 1 as [|s l Hs _ IH]; simpl; [reflexivity|].
  destruct (nodeName s =? k); simpl; [|exact IH].
  destruct (call_of_step s) as [c|]; [|congruence]. simpl. f_equal. exact IH.
Qed.

(** X11.  What a successful Load groups: the keys of [nodes] are pairwise
    distinct; under each key there is, in the order of the rows, exactly
    one call for each Step row of the graph with that node name, and so at
    least one; all in all there are as many calls as the graph has Step
    rows; and [edges] has one entry for each Edge row, in their order. *)
Theorem load_groups_rows :
  forall (g : string) (st : Store) (nodes : node_map) (edgesArr : list value),
    snd (GET_load (Some g) st) = json (load_body nodes edgesArr) ->
    NoDup (map fst nodes) /\
    (forall k cs,
        own k nodes = Some cs ->
        cs <> [] /\
        map Some cs
        = map call_of_step (filter (fun s => nodeName s =? k) (steps_of g st))) /\
    List.length (List.concat (map snd nodes)) = List.length (steps_of g st) /\
    edgesArr = map edge_view (edges_of g st).
Proof.
  intros g st nodes edgesArr H.
  destruct (GET_load_inv _ _ _ _ H) as [Hg [Hgs He]].
  destruct (group_steps_inv _ _ _ Hgs) as [Hown [Hnd Hp]].
  split; [apply Hnd; constructor|]. split; [|split; [|exact He]].
  - intros k cs Hk. rewrite Hown in Hk. simpl in Hk.
    rewrite <- (views_of_filter k _ Hp).
    destruct (views_of k (steps_of g st)) as [|c l]; [discriminate Hk|].
    injection Hk as <-. split; [discriminate|reflexivity].
  - apply (group_steps_total _ _ _ Hgs).
Qed.

Lemma load_groups_rows_witness :
  exists nodes edgesArr,
    snd (GET_load (Some "g1") store_example) = json (load_body nodes edgesArr) /\
    NoDup (map fst nodes) /\
    (forall k cs,
        own k nodes = Some cs ->
        cs <> [] /\
        map Some cs
        = map call_of_step
            (filter (fun s => nodeName s =? k) (steps_of "g1" store_example))) /\
    List.length (List.concat (map snd nodes)) = List.length (steps_of "g1" store_example) /\
    edgesArr = map edge_view (edges_of "g1" store_example).
Proof.
  exists [("start", [VObj [("stepIndex", VNum 0); ("input", VObj []);
                           ("output", VObj [("msg", VStr "hi")])]])],
         [VObj [("source", VStr "start"); ("target", VStr "end");
                ("used_count", VNum 1)]].
  split; [vm_compute; reflexivity|].
  apply (load_groups_rows "g1" store_example). vm_compute. reflexivity.
Defined.

(* ================================================================== *)
(** * Ingest: which requests are accepted and what is stored *)
(* ================================================================== *)

Lemma collect_Some_iff {A D} (f : A -> option (list D)) (l : list A) :
  (exists ds, collect f l = Some ds) <-> forallb (fun x => is_some (f x)) l = true.
Proof.
  induction l as [|x l IH]; simpl.
  - split; [reflexivity | intros _; exists []; reflexivity].
  - destruct (f x) as [a|]; simpl.
    + rewrite <- IH. split.
      * intros [ds H]. destruct (collect f l) as [b|]; [exists b; reflexivity|discriminate H].
      * intros [b ->]. eexists. reflexivity.
    + split; [intros [ds H]; discriminate H | discriminate].
Qed.

Lemma forallb_ext_in {A} (p q : A -> bool) (l : list A) :
  (forall x, In x l -> p x = q x) -> forallb p l = forallb q l.
Proof.
  induction l as [|x l IH]; simpl; intros H; [reflexivity|].
  rewrite (H x (or_introl eq_refl)), IH; [reflexivity|]. intros y Hy. apply H. right. exact Hy.
Qed.

Lemma call_rows_ok (k : string) (call : value) :
  is_some (call_rows k call) = call_ok call.
Proof.
  unfold call_rows, call_ok.
  destruct (get_prop call "stepIndex") as [si|] eqn:Hsi; [|reflexivity].
  rewrite (get_prop_some call "stepIndex" "input" si Hsi),
          (get_prop_some call "stepIndex" "output" si Hsi).
  now destruct (as_Int si).
Qed.

Lemma node_rows_ok (nodesObj : value) (k : string) :
  is_some (node_rows nodesObj k) = calls_ok nodesObj k.
Proof.
  unfold node_rows, calls_ok. destruct (submitted_calls nodesObj k) as [cs|]; [|reflexivity].
  rewrite <- (forallb_ext_in _ _ cs (fun x _ => call_rows_ok k x)).
  destruct (collect (call_rows k) cs) as [ds|] eqn:E.
  - symmetry. apply collect_Some_iff. exists ds. exact E.
  - destruct (forallb _ cs) eqn:F; [|reflexivity].
    apply collect_Some_iff in F. destruct F as [ds F]. congruence.
Qed.

Ltac split_ifs :=
  repeat match goal with
         | |- context [if ?c then _ else _] => destruct c eqn:?; simpl
         end.

Lemma edge_fields_ok (s t c u : jsval) :
  is_some
    match as_String s, as_String t, as_String_opt c,
          as_Int_opt 0 (Some (or_else u (VNum 0))) with
    | Some s', Some t', Some c', Some u' => Some [mkEdgeData s' t' c' u']
    | _, _, _, _ => None
    end
  = match s, t with
    | Some (VStr _), Some (VStr _) =>
        match c with
        | None => true
        | Some VNull => true
        | Some (VStr _) => true
        | _ => false
        end
        && is_some (as_Int_opt 0 (Some (or_else u (VNum 0))))
    | _, _ => false
    end.
Proof.
  destruct s as [[| | | |?| |]|]; try reflexivity;
  destruct t as [[| | | |?| |]|]; try reflexivity;
  destruct c as [[| | | |?| |]|]; try reflexivity;
  cbn [as_String as_String_opt andb];
  now destruct (as_Int_opt 0 (Some (or_else u (VNum 0)))).
Qed.

Lemma edge_rows_ok (ed : value) :
  is_some (edge_rows ed) = edge_ok ed.
Proof.
  unfold edge_rows, edge_ok, get_prop.
  destruct ed; try reflexivity; rewrite edge_fields_ok;
    match goal with
    | |- context [assoc "source" ?l] =>
        destruct (assoc "source" l) as [[| | | |?| |]|]; try reflexivity;
        destruct (assoc "target" l) as [[| | | |?| |]|]; reflexivity
    end.
Qed.

Lemma request_ok_plan (req : value) :
  request_ok req = true <-> exists p, ingest_plan req = Some p.
Proof.
  unfold request_ok, ingest_plan.
  destruct (get_prop req "graphId") as [[[| | | |g| |]|]|];
    try (split; [discriminate | intros [p H]; discriminate H]).
  destruct (g =? ""); cbn [negb andb];
    [split; [discriminate | intros [p H]; discriminate H]|].
  unfold nodes_data, edges_data.
  rewrite <- (forallb_ext_in _ _ _ (fun x _ => node_rows_ok (req_nodes req) x)).
  destruct (collect (node_rows (req_nodes req)) (Object_keys (req_nodes req)))
    as [sds|] eqn:En.
  - assert (Hn : forallb (fun x => is_some (node_rows (req_nodes req) x))
                   (Object_keys (req_nodes req)) = true).
    { apply collect_Some_iff. exists sds. exact En. }
    rewrite Hn.
    destruct (iterate (Some (req_edges req))) as [es|];
      [|split; [discriminate | intros [p H]; discriminate H]].
    rewrite <- (forallb_ext_in _ _ es (fun x _ => edge_rows_ok x)).
    destruct (collect edge_rows es) as [eds|] eqn:Ee.
    + split; [intros _; eexists; reflexivity|]. intros _.
      apply collect_Some_iff. exists eds. exact Ee.
    + split; [|intros [p H]; discriminate H]. intros F.
      apply collect_Some_iff in F. destruct F as [eds F]. congruence.
  - split; [|intros [p H]; discriminate H]. intros F.
    apply andb_true_iff in F. destruct F as [F _].
    apply collect_Some_iff in F. destruct F as [sds F]. congruence.
Qed.



(** Numbers Ingest takes as a [stepIndex], and what it refuses: a number
    written as a string, and numbers whose integer part is beyond the
    32-bit range (2147483647.9999999 is 2147483648 as a double). *)
Example accepted_step_indices :
  map (fun x => status (snd (POST_ingest
                               (VObj [("graphId", VStr "g1");
                                      ("nodes", VObj [("a", VArr [VObj [("stepIndex", x)]])])])
                               store_example)))
      [VNum 1; VDec "1.5"; VDec "1.0"; VDec "1e0"; VDec "-0.5"; VDec "2147483647.5";
       VStr "1"; VNull; VBool true; VNum 2147483648; VDec "2147483647.9999999";
       VDec "1e400"]
  = [200; 200; 200; 200; 200; 200; 500; 500; 500; 500; 500; 500]%Z.
Proof. vm_compute. reflexivity. Qed.

Lemma call_rows_row (k : string) (call : value) (ds : list StepData) :
  call_rows k call = Some ds -> map (fun d => d) ds = [row_of_call k call].
Proof.
  intros H. destruct (call_rows_inv _ _ _ H) as [n [Hn ->]].
  unfold row_of_call, stored_index. rewrite Hn. reflexivity.
Qed.

Lemma node_rows_row (nodesObj : value) (k : string) (ds : list StepData) :
  node_rows nodesObj k = Some ds ->
  map (fun d => d) ds = map (row_of_call k) (calls_under nodesObj k).
Proof.
  unfold node_rows, calls_under. destruct (submitted_calls nodesObj k) as [cs|];
    [|discriminate].
  intros H.
  rewrite (collect_map (call_rows k) (fun d => d) (fun c => [row_of_call k c]) cs ds);
    [|intros x dx _; apply call_rows_row | exact H].
  clear H. induction cs as [|c cs IH]; simpl; [reflexivity|]. rewrite IH. reflexivity.
Qed.

Lemma edge_fields_row (s t c u : jsval) (ds : list EdgeData) :
  match as_String s, as_String t, as_String_opt c,
        as_Int_opt 0 (Some (or_else u (VNum 0))) with
  | Some s', Some t', Some c', Some u' => Some [mkEdgeData s' t' c' u']
  | _, _, _, _ => None
  end = Some ds ->
  ds = [mkEdgeData
          (string_or_empty (match s with Some x => x | None => VNull end))
          (string_or_empty (match t with Some x => x | None => VNull end))
          (match c with Some (VStr k) => Some k | _ => None end)
          (match as_Int_opt 0 (Some (or_else u (VNum 0))) with
           | Some n => n
           | None => None
           end)].
Proof.
  destruct s as [[| | | |?| |]|]; try discriminate;
  destruct t as [[| | | |?| |]|]; try discriminate;
  destruct c as [[| | | |?| |]|]; try discriminate;
  cbn [as_String as_String_opt string_or_empty];
  destruct (as_Int_opt 0 (Some (or_else u (VNum 0)))); try discriminate;
  intros [= <-]; reflexivity.
Qed.

Lemma edge_rows_row (ed : value) (ds : list EdgeData) :
  edge_rows ed = Some ds -> map (fun d => d) ds = [row_of_edge ed].
Proof.
  rewrite map_id. unfold edge_rows, row_of_edge, stored_count, field_or_null, get_prop.
  destruct ed; try discriminate; apply edge_fields_row.
Qed.

Lemma plan_step_rows (nodesObj : value) (sds : list StepData) :
  nodes_data nodesObj = Some sds ->
  sds = flat_map (fun k => map (row_of_call k) (calls_under nodesObj k))
                 (Object_keys nodesObj).
Proof.
  intros Hn. rewrite <- (map_id sds).
  apply (collect_map (node_rows nodesObj) (fun d => d)); [|exact Hn].
  intros k dx _. apply node_rows_row.
Qed.

Lemma plan_edge_rows (edgesArr : value) (eds : list EdgeData) :
  edges_data edgesArr = Some eds ->
  eds = map row_of_edge (edges_under edgesArr).
Proof.
  unfold edges_data, edges_under. intros He.
  destruct (iterate (Some edgesArr)) as [es|]; [|discriminate He].
  rewrite <- (map_id eds).
  rewrite (collect_map edge_rows (fun d => d) (fun ed => [row_of_edge ed]) es eds);
    [|intros x dx _; apply edge_rows_row | exact He].
  clear. induction es as [|c cs IH]; simpl; [reflexivity|]. rewrite IH. reflexivity.
Qed.

Lemma POST_ingest_rows (req : value) (g : string) (st : Store) :
  get_prop req "graphId" = Some (Some (VStr g)) ->
  status (snd (POST_ingest req st)) = 200%Z ->
  map step_data (steps_of g (fst (POST_ingest req st)))
  = flat_map (fun k => map (row_of_call k) (calls_under (req_nodes req) k))
             (Object_keys (req_nodes req)) /\
  map edge_data (edges_of g (fst (POST_ingest req st)))
  = map row_of_edge (edges_under (req_edges req)) /\
  (graph_exists g st = false ->
   steps_of g (fst (POST_ingest req st)) = [] /\
   edges_of g (fst (POST_ingest req st)) = []).
Proof.
  intros Hg Hok.
  destruct (POST_ingest req st) as [st' r] eqn:E.
  destruct (POST_ingest_ok req st st' r (no_filter_string _ _ Hg) E Hok)
    as [g' [sds [eds [Hp [Hs [He [-> _]]]]]]].
  destruct (ingest_plan_inv _ _ _ _ Hp) as [Hg' [_ [Hn Hed]]].
  rewrite Hg in Hg'. injection Hg' as <-. simpl fst.
  pose proof (steps_of_ingested g sds eds st) as H1.
  pose proof (edges_of_ingested g sds eds st) as H2.
  split; [rewrite H1; apply plan_step_rows, Hn|].
  split; [rewrite H2; apply plan_edge_rows, Hed|].
  intros Hex. unfold accepts in Hs, He.
  destruct sds as [|d sds]; [|rewrite Hs in Hex; [discriminate Hex|discriminate]].
  destruct eds as [|d eds]; [|rewrite He in Hex; [discriminate Hex|discriminate]].
  split; [eapply map_eq_nil; exact H1 | eapply map_eq_nil; exact H2].
Qed.



(** The numbers in the rows of that request: the step indices 1.5, 0 and
    2.0 are stored as 1, 0 and 2, the counts 3.0 and 0.5 as 3 and 0. *)
Example rows_fractional :
  map (fun s => (nodeName s, stepIndex s))
      (steps_of "g1" (fst (POST_ingest req_fractional store_example)))
  = [("a", 1); ("a", 0); ("b", 2)]%Z /\
  map usedCount (edges_of "g1" (fst (POST_ingest req_fractional store_example)))
  = [Some 3; Some 0]%Z.
Proof. vm_compute. split; reflexivity. Qed.

(* ================================================================== *)
(** * A request without its nodes or its edges *)
(* ================================================================== *)




(** The store after that body: the Step and the Edge row the graph had
    are gone, and there are the two Step rows of the body. *)
Example ingest_without_edges :
  POST_ingest (VObj body_without_edges) store_example
  = (mkStore (graphs store_example)
             [mkStep 2 "g1" "a" 1 "{}" "{}"; mkStep 3 "g1" "a" 0 "{}" "{}"]
             [] 4 2,
     ok_response) /\
  List.length (steps_of "g1" store_example) = 1 /\
  List.length (edges_of "g1" store_example) = 1.
Proof. vm_compute. repeat split; reflexivity. Qed.

(* ================================================================== *)
(** * The graph page *)
(* ================================================================== *)

Lemma sequence_map {A B} (f : A -> option B) (P : A -> B -> Prop) (l : list A) :
  (forall x, In x l -> exists y, f x = Some y /\ P x y) ->
  exists ys, Page.sequence (map f l) = Some ys /\ Forall2 P l ys.
Proof.
  induction l as [|x l IH]; simpl; intros H.
  - exists []. split; [reflexivity|constructor].
  - destruct (H x (or_introl eq_refl)) as [y [Hy Hp]].
    destruct IH as [ys [Hys Hf]]; [intros z Hz; apply H; right; exact Hz|].
    exists (y :: ys). rewrite Hy, Hys. split; [reflexivity|]. constructor; assumption.
Qed.

Lemma stepIndexes_of_rows (cs : list value) (rows : list Step) :
  map Some cs = map call_of_step rows ->
  Page.sequence (map (fun c => get_prop c "stepIndex") cs)
  = Some (map (fun s => Some (VNum (stepIndex s))) rows).
Proof.
  revert rows. induction cs as [|c cs IH]; intros [|s rows] H; try discriminate H.
  - reflexivity.
  - simpl in H. injection H as Hc Hcs. simpl. rewrite (IH rows Hcs).
    unfold call_of_step in Hc.
    destruct (parse_stored (inputJson s)), (parse_stored (outputJson s));
      try discriminate Hc.
    injection Hc as ->. reflexivity.
Qed.

Lemma join_items_of_rows (rows : list Step) :
  Page.sequence (map Page.join_item (map (fun s => Some (VNum (stepIndex s))) rows))
  = Some (map JSON.string_of_Z (map stepIndex rows)).
Proof.
  induction rows as [|s rows IH]; simpl; [reflexivity|]. rewrite IH. reflexivity.
Qed.

Lemma tmpNode_of_rows (k : string) (cs : list value) (rows : list Step) :
  map Some cs = map call_of_step rows ->
  exists n, Page.tmpNode (k, VArr cs) = Some n /\ node_drawn k rows n.
Proof.
  intros H. unfold Page.tmpNode.
  rewrite (stepIndexes_of_rows cs rows H), join_items_of_rows.
  unfold node_drawn, terminal, step_label.
  destruct (String.eqb_spec k "start") as [->|Hs]; simpl.
  - eexists. split; [reflexivity|]. simpl. repeat split. exact H.
  - destruct (String.eqb_spec k "end") as [->|He]; simpl.
    + eexists. split; [reflexivity|]. simpl. repeat split. exact H.
    + eexists. split; [reflexivity|]. simpl. repeat split. exact H.
Qed.

Lemma tmpEdge_of_row (i : nat) (e : Edge) :
  exists r, Page.tmpEdge (string_of_index i, edge_view e) = Some r /\ edge_drawn i e r.
Proof.
  unfold Page.tmpEdge, edge_view, edge_drawn, ends, get_prop.
  destruct (conditionKey e) as [k|]; simpl.
  - destruct (String.eqb_spec k "") as [->|Hk]; simpl.
    + eexists. split; [reflexivity|]. simpl. repeat split.
    + assert (Ht : negb (k =? "") = true).
      { apply negb_true_iff, String.eqb_neq, Hk. }
      rewrite Ht. destruct (k =? "end"); eexists; (split; [reflexivity|]);
        simpl; repeat split.
  - eexists. split; [reflexivity|]. simpl. repeat split.
Qed.

Lemma tmpEdges_of_rows (es : list Edge) (i : nat) :
  exists rs,
    Page.sequence (map Page.tmpEdge (indexed i (map edge_view es))) = Some rs /\
    edges_drawn i es rs.
Proof.
  revert i. induction es as [|e es IH]; intros i;
    cbn [map indexed Page.sequence edges_drawn].
  - exists []. split; [reflexivity|exact I].
  - destruct (tmpEdge_of_row i e) as [r [Hr Hd]].
    destruct (IH (S i)) as [rs [Hrs Hds]].
    exists (r :: rs). rewrite Hr, Hrs. split; [reflexivity|]. split; assumption.
Qed.

Lemma own_In (k : string) (cs : list value) (nodes : node_map) :
  NoDup (map fst nodes) -> In (k, cs) nodes -> own k nodes = Some cs.
Proof.
  induction nodes as [|[k' l] nodes IH]; simpl; intros Hd Hin; [contradiction|].
  inversion Hd as [|? ? Hn Hd']; subst.
  destruct Hin as [[= -> ->]|Hin].
  - rewrite String.eqb_refl. reflexivity.
  - destruct (String.eqb_spec k' k) as [->|Hne]; [|apply IH; assumption].
    exfalso. apply Hn. apply in_map_iff. exists (k, cs). split; [reflexivity|exact Hin].
Qed.

(** What the page makes of a successful Load. *)
Lemma page_of_load (g : string) (st : Store) (nodes : node_map)
  (edgesArr : list value) :
  snd (GET_load (Some g) st) = json (load_body nodes edgesArr) ->
  exists ns es,
    Page.fetchGraphData (json (load_body nodes edgesArr)) = Page.Layout ns es /\
    Forall2 (fun kl n =>
               node_drawn (fst kl)
                 (filter (fun s => nodeName s =? fst kl) (steps_of g st)) n)
            nodes ns /\
    edges_drawn 0 (edges_of g st) es.
Proof.
  intros H. destruct (GET_load_inv _ _ _ _ H) as [Hg [Hgs ->]].
  destruct (group_steps_inv _ _ _ Hgs) as [Hown [Hnd Hp]].
  specialize (Hnd (NoDup_nil _)).
  destruct (sequence_map Page.tmpNode
              (fun kv n => node_drawn (fst kv)
                             (filter (fun s => nodeName s =? fst kv) (steps_of g st)) n)
              (map (fun kl => (fst kl, VArr (snd kl))) nodes))
    as [ns [Hns Hfn]].
  { intros [k v] Hin. apply in_map_iff in Hin. destruct Hin as [[k' cs] [[= <- <-] Hin]].
    simpl. apply tmpNode_of_rows.
    pose proof (own_In _ _ _ Hnd Hin) as Ho. rewrite Hown in Ho. simpl in Ho.
    rewrite <- (views_of_filter k' _ Hp).
    destruct (views_of k' (steps_of g st)); [discriminate Ho|].
    injection Ho as <-. reflexivity. }
  destruct (tmpEdges_of_rows (edges_of g st) 0) as [es [Hes Hfe]].
  exists ns, es. split; [|split; [|exact Hfe]].
  - unfold Page.fetchGraphData, load_body, nodes_value. simpl.
    rewrite Hns, Hes. reflexivity.
  - clear - Hfn. revert ns Hfn. induction nodes as [|kl nodes IH]; intros ns Hf;
      inversion Hf; subst; constructor; auto.
Qed.

Lemma GET_load_answers (graphId : option string) (st : Store) :
  (exists nodes edgesArr,
      snd (GET_load graphId st) = json (load_body nodes edgesArr) /\
      exists g, graphId = Some g) \/
  (status (snd (GET_load graphId st)) = 400%Z \/
   status (snd (GET_load graphId st)) = 500%Z).
Proof.
  destruct graphId as [g|]; simpl; [|right; left; reflexivity].
  destruct (g =? ""); [right; left; reflexivity|].
  unfold try_catch, load_try, bind, step_findMany, edge_findMany, ret.
  destruct (group_steps _ _) as [nodes|e].
  - left. simpl. eexists _, _. split; [reflexivity|]. exists g. reflexivity.
  - right. right. reflexivity.
Qed.

(** X14.  The page draws a graph exactly when Load answered with status
    200; on every other answer it clears its nodes and edges.  In
    particular what a successful Load returns can always be drawn. *)
Theorem page_draws_iff :
  forall (graphId : option string) (st : Store),
    (exists ns es,
        Page.fetchGraphData (snd (GET_load graphId st)) = Page.Layout ns es) <->
    status (snd (GET_load graphId st)) = 200%Z.
Proof.
  intros graphId st.
  destruct (GET_load_answers graphId st) as [[nodes [edgesArr [H [g ->]]]]|Hs].
  - split; [intros _; rewrite H; reflexivity|]. intros _.
    destruct (page_of_load g st nodes edgesArr H) as [ns [es [Hl _]]].
    exists ns, es. rewrite H. exact Hl.
  - unfold Page.fetchGraphData, Page.ok.
    split.
    + intros [ns [es H]]. destruct Hs as [Hs|Hs]; rewrite Hs in H; discriminate H.
    + intros H. destruct Hs as [Hs|Hs]; rewrite Hs in H; discriminate H.
Qed.

Lemma page_of_layout (g : string) (st : Store) (ns : list Page.RFNode)
  (es : list Page.RFEdge) :
  Page.fetchGraphData (snd (GET_load (Some g) st)) = Page.Layout ns es ->
  (NoDup (map Page.n_id ns) /\
   (forall k, In k (map Page.n_id ns) <->
              exists s, In s (steps_of g st) /\ nodeName s = k) /\
   Forall (fun n =>
             node_drawn (Page.n_id n)
               (filter (fun s => nodeName s =? Page.n_id n) (steps_of g st)) n)
          ns) /\
  edges_drawn 0 (edges_of g st) es.
Proof.
  intros H.
  destruct (GET_load_answers (Some g) st) as [[nodes [edgesArr [Hl _]]]|Hs].
  2: { unfold Page.fetchGraphData, Page.ok in H.
       destruct Hs as [Hs|Hs]; rewrite Hs in H; discriminate H. }
  destruct (page_of_load g st nodes edgesArr Hl) as [ns' [es' [Hp [Hn He]]]].
  rewrite Hl, Hp in H. injection H as -> ->.
  split; [|exact He]. clear He.
  destruct (GET_load_inv _ _ _ _ Hl) as [Hg [Hgs _]].
  destruct (group_steps_inv _ _ _ Hgs) as [Hown [Hnd Hparse]].
  specialize (Hnd (NoDup_nil _)).
  assert (Hids : map Page.n_id ns = map fst nodes).
  { clear - Hn. induction Hn as [|kl n nodes ns [Hid _] _ IH]; simpl;
      [reflexivity|]. rewrite Hid, IH. reflexivity. }
  split; [rewrite Hids; exact Hnd|]. split.
  - intros k. rewrite Hids. rewrite <- (views_of_nonempty k _ Hparse).
    split.
    + intros Hin Hv.
      apply (proj1 (own_None_iff k nodes)); [|exact Hin].
      rewrite Hown, Hv. reflexivity.
    + intros Hv. destruct (in_dec string_dec k (map fst nodes)) as [Hin|Hno];
        [exact Hin|].
      apply own_None_iff in Hno. rewrite Hown in Hno.
      destruct (views_of k (steps_of g st)); [contradiction|discriminate Hno].
  - clear - Hn. induction Hn as [|kl n nodes ns Hd _ IH]; constructor; [|exact IH].
    destruct Hd as [Hid Hrest]. rewrite Hid. split; [exact Hid|exact Hrest].
Qed.


(** X15.  The nodes the page draws for a loaded graph: one node for each
    node name that a Step row of the graph has, and no other; the node
    holds the calls of the rows of that name and its label lists their
    [stepIndex], in the order of the rows; the nodes named [start] and
    [end] are drawn as black discs labelled START and END. *)
Theorem page_nodes :
  forall (g : string) (st : Store) (ns : list Page.RFNode) (es : list Page.RFEdge),
    Page.fetchGraphData (snd (GET_load (Some g) st)) = Page.Layout ns es ->
    NoDup (map Page.n_id ns) /\
    (forall k, In k (map Page.n_id ns) <->
               exists s, In s (steps_of g st) /\ nodeName s = k) /\
    Forall (fun n =>
              node_drawn (Page.n_id n)
                (filter (fun s => nodeName s =? Page.n_id n) (steps_of g st)) n)
           ns.
Proof. intros g st ns es H. exact (proj1 (page_of_layout g st ns es H)). Qed.

Lemma page_nodes_witness :
  exists ns es,
    Page.fetchGraphData (snd (GET_load (Some "g1") store_example)) = Page.Layout ns es /\
    NoDup (map Page.n_id ns) /\
    (forall k, In k (map Page.n_id ns) <->
               exists s, In s (steps_of "g1" store_example) /\ nodeName s = k) /\
    Forall (fun n =>
              node_drawn (Page.n_id n)
                (filter (fun s => nodeName s =? Page.n_id n)
                        (steps_of "g1" store_example)) n)
           ns.
Proof.
  eexists _, _. split; [vm_compute; reflexivity|].
  eapply (page_nodes "g1" store_example). vm_compute. reflexivity.
Defined.

(** X16.  The edges the page draws for a loaded graph: one for each Edge
    row of the graph, in their order, with ids [edge-0], [edge-1], ..., from
    the row's source to its target; an edge whose condition key is [end] is
    red and dashed and every other edge black and solid, with an arrow head
    of the same colour; its label is [condition: ] followed by the condition
    key when the row has a non-empty one, and none otherwise. *)
Theorem page_edges :
  forall (g : string) (st : Store) (ns : list Page.RFNode) (es : list Page.RFEdge),
    Page.fetchGraphData (snd (GET_load (Some g) st)) = Page.Layout ns es ->
    edges_drawn 0 (edges_of g st) es.
Proof. intros g st ns es H. exact (proj2 (page_of_layout g st ns es H)). Qed.

Lemma page_edges_witness :
  exists ns es,
    Page.fetchGraphData (snd (GET_load (Some "g1") store_example)) = Page.Layout ns es /\
    edges_drawn 0 (edges_of "g1" store_example) es.
Proof.
  eexists _, _. split; [vm_compute; reflexivity|].
  eapply (page_edges "g1" store_example). vm_compute. reflexivity.
Defined.

(** X17.  Polling for the latest graph: the page waits, with no graph
    selected, when the store holds no graph (or the latest one has the
    empty id); otherwise it selects the id of a graph that no other graph
    was created after, and stops waiting. *)
Theorem polling_selects_latest :
  forall (st : Store),
    (Page.fetchLatestGraphId (snd (GET_last st)) = (None, true) /\
     (graphs st = [] \/ exists row, latest_in row (graphs st) /\ graph_id row = "")) \/
    (exists row,
        latest_in row (graphs st) /\ graph_id row <> "" /\
        Page.fetchLatestGraphId (snd (GET_last st))
        = (Some (VStr (graph_id row)), false)).
Proof.
  intros st. rewrite GET_last_eq. simpl snd.
  pose proof (order_desc_head (graphs st)) as H.
  destruct (hd_error (order_desc (graphs st))) as [row|].
  - destruct (String.eqb_spec (graph_id row) "") as [He|Hne].
    + left. split.
      * unfold Page.fetchLatestGraphId. simpl. rewrite He. reflexivity.
      * right. exists row. split; assumption.
    + right. exists row. split; [exact H|]. split; [exact Hne|].
      unfold Page.fetchLatestGraphId. simpl.
      apply String.eqb_neq in Hne. rewrite Hne. reflexivity.
  - left. split; [reflexivity|]. left. exact H.
Qed.

(* ================================================================== *)
(** * From the request to the page *)
(* ================================================================== *)

(** X18.  Create, then Ingest: once Create has answered with the id of
    the graph, every request for that graph that is well formed (as in
    [request_ok]) is accepted. *)
Theorem start_then_ingest :
  forall (fresh : string) (now : Z) (created req : value) (st st' : Store)
         (g : string),
    POST_start fresh now created st = (st', graphId_response (VStr g)) ->
    get_prop req "graphId" = Some (Some (VStr g)) ->
    request_ok req = true ->
    status (snd (POST_ingest req st')) = 200%Z.
Proof.
  intros fresh now created req st st' g Hstart Hg Hok.
  destruct (POST_start_cases fresh now created st)
    as [Hf|[row [_ [_ [_ [_ Heq]]]]]].
  - rewrite Hf in Hstart. discriminate Hstart.
  - rewrite Heq in Hstart. injection Hstart as <- <-.
    pose proof (graph_exists_added row st) as Hex.
    apply request_ok_plan in Hok. destruct Hok as [[[g' sds] eds] Hp].
    destruct (ingest_plan_inv _ _ _ _ Hp) as [Hg' _].
    rewrite Hg in Hg'. injection Hg' as <-.
    rewrite (POST_ingest_plan req _ _ sds eds Hp); [reflexivity | |];
      intros _; exact Hex.
Qed.

Lemma start_then_ingest_witness :
  status (snd (POST_ingest
                 (VObj [("graphId", VStr "g7");
                        ("nodes", VObj [("a", VArr [VObj [("stepIndex", VNum 1)]])])])
                 (fst (POST_start "u1" 8 (VObj [("graphId", VStr "g7")])
                         store_example))))
  = 200%Z.
Proof.
  apply (start_then_ingest "u1" 8%Z (VObj [("graphId", VStr "g7")]) _
           store_example _ "g7"); reflexivity.
Defined.

Lemma flat_map_nil {A B} (f : A -> list B) (l : list A) :
  flat_map f l = [] -> forall x, In x l -> f x = [].
Proof.
  induction l as [|y l IH]; simpl; intros H x Hx; [contradiction|].
  apply app_eq_nil in H. destruct H as [Hy Hl].
  destruct Hx as [<-|Hx]; [exact Hy|]. apply IH; assumption.
Qed.

(** X19.  Ingest without Create: for a graph that is not in the store, a
    request is accepted only when it holds no call and no edge at all: a
    request with any row to store is not answered with status 200. *)
Theorem ingest_unknown_graph :
  forall (req : value) (g : string) (st : Store),
    get_prop req "graphId" = Some (Some (VStr g)) ->
    graph_exists g st = false ->
    status (snd (POST_ingest req st)) = 200%Z ->
    (forall k, calls_under (req_nodes req) k = []) /\
    edges_under (req_edges req) = [].
Proof.
  intros req g st Hg Hex Hok.
  destruct (POST_ingest_rows req g st Hg Hok) as [H1 [H2 H3]].
  destruct (H3 Hex) as [Hs He]. rewrite Hs in H1. rewrite He in H2. simpl in H1, H2.
  split.
  - intros k.
    destruct (existsb (String.eqb k) (Object_keys (req_nodes req))) eqn:Hk.
    + apply existsb_exists in Hk. destruct Hk as [k' [Hin Heq]].
      apply String.eqb_eq in Heq. subst k'.
      pose proof (flat_map_nil _ _ (eq_sym H1) k Hin) as Hm.
      eapply map_eq_nil. exact Hm.
    + apply calls_under_not_key. exact Hk.
  - eapply map_eq_nil. symmetry. exact H2.
Qed.

Lemma ingest_unknown_graph_witness :
  (forall k,
      calls_under (req_nodes (VObj [("graphId", VStr "zz");
                                    ("nodes", VObj [("a", VArr [])])])) k = []) /\
  edges_under (req_edges (VObj [("graphId", VStr "zz");
                                ("nodes", VObj [("a", VArr [])])])) = [].
Proof.
  apply (ingest_unknown_graph _ "zz" store_example); reflexivity.
Defined.

Lemma no_rows_without_graph {R} (graphId : R -> string) (st : Store) (g : string)
  (l : list R) :
  Forall (fun r => graph_exists (graphId r) st = true) l ->
  graph_exists g st = false ->
  filter (fun r => graphId r =? g) l = [].
Proof.
  intros H Hex. induction H as [|x l Hx _ IH]; simpl; [reflexivity|].
  destruct (String.eqb_spec (graphId x) g) as [He|_]; [|exact IH].
  rewrite He in Hx. congruence.
Qed.

(** X20.  Create, then Load: in a store where every row names a graph
    that is there, a graph that was just created loads as no nodes and no
    edges. *)
Theorem start_then_load :
  forall (fresh : string) (now : Z) (req : value) (st st' : Store) (g : string),
    referential st ->
    POST_start fresh now req st = (st', graphId_response (VStr g)) ->
    g <> "" ->
    GET_load (Some g) st' = (st', json (load_body [] [])).
Proof.
  intros fresh now req st st' g [Hs He] Hstart Hg.
  destruct (POST_start_cases fresh now req st) as [Hf|[row [Hnew [_ [_ [_ Heq]]]]]].
  - rewrite Hf in Hstart. discriminate Hstart.
  - rewrite Heq in Hstart. injection Hstart as <- <-.
    rewrite GET_load_eq by exact Hg. unfold steps_of, edges_of. simpl.
    rewrite (no_rows_without_graph step_graphId st _ _ Hs Hnew).
    rewrite (no_rows_without_graph edge_graphId st _ _ He Hnew).
    reflexivity.
Qed.

Lemma start_then_load_witness :
  GET_load (Some "u1")
    (fst (POST_start "u1" 8 (VObj [("name", VStr "run")]) store_example))
  = (fst (POST_start "u1" 8 (VObj [("name", VStr "run")]) store_example),
     json (load_body [] [])).
Proof.
  apply (start_then_load "u1" 8%Z (VObj [("name", VStr "run")]) store_example).
  - exact (proj1 consistent_store_example).
  - reflexivity.
  - intros H. discriminate H.
Defined.

Lemma same_graphs_trans (a b c : Store) :
  graphs b = graphs a -> graphs c = graphs b -> graphs c = graphs a.
Proof. congruence. Qed.

Lemma step_create_graphs (g n i a b : jsval) :
  respects (fun st st' => graphs st' = graphs st) (step_create g n i a b).
Proof.
  intros st. unfold step_create.
  destruct (as_String g); [|reflexivity]. destruct (as_String n); [|reflexivity].
  destruct (as_Int i); [|reflexivity]. destruct (as_String a); [|reflexivity].
  destruct (as_String b); [|reflexivity]. now destruct (graph_exists _ st).
Qed.

Lemma edge_create_graphs (g s t c u : jsval) :
  respects (fun st st' => graphs st' = graphs st) (edge_create g s t c u).
Proof.
  intros st. unfold edge_create.
  destruct (as_String g); [|reflexivity]. destruct (as_String s); [|reflexivity].
  destruct (as_String t); [|reflexivity]. destruct (as_String_opt c); [|reflexivity].
  destruct (as_Int_opt 0 u); [|reflexivity]. now destruct (graph_exists _ st).
Qed.

Lemma deleteMany_graphs (g : value) :
  respects (fun st st' => graphs st' = graphs st) (step_deleteMany g) /\
  respects (fun st st' => graphs st' = graphs st) (edge_deleteMany g).
Proof.
  split; intros st; unfold step_deleteMany, edge_deleteMany;
    destruct g; try reflexivity; now destruct (string_filter _).
Qed.

Lemma POST_ingest_graphs (req : value) (st : Store) :
  graphs (fst (POST_ingest req st)) = graphs st.
Proof.
  pose proof (fun st : Store => eq_refl (graphs st)) as Hr.
  pose proof same_graphs_trans as Ht.
  apply (respects_try_catch (fun st st' => graphs st' = graphs st)).
  unfold ingest_try.
  apply (respects_bind _ Ht); [apply respects_prop, Hr|]. intros [g|].
  2: apply respects_throw, Hr.
  destruct (negb (truthy (Some g))); [apply respects_throw, Hr|].
  apply (respects_bind _ Ht); [apply deleteMany_graphs|intros _].
  apply (respects_bind _ Ht); [apply deleteMany_graphs|intros _].
  apply (ingest_loops_respect _ Hr Ht g).
  - intros. apply step_create_graphs.
  - intros. apply edge_create_graphs.
Qed.

(** X21.  Ingest never creates, removes or changes a Graph row, whatever
    the request and the response: the latest graph and the list of graphs
    are answered as before. *)
Theorem ingest_keeps_graphs :
  forall (req : value) (st : Store),
    graphs (fst (POST_ingest req st)) = graphs st /\
    snd (GET_last (fst (POST_ingest req st))) = snd (GET_last st) /\
    snd (GET_list (fst (POST_ingest req st))) = snd (GET_list st).
Proof.
  intros req st.
  pose proof (POST_ingest_graphs req st) as H.
  split; [exact H|]. split.
  - rewrite !GET_last_eq. simpl. rewrite H. reflexivity.
  - unfold GET_list, try_catch, list_try, bind, graph_findMany_desc, ret. simpl.
    rewrite H. reflexivity.
Qed.

Lemma filter_by_name (k : string) (rows : list Step) :
  map stepIndex (filter (fun s => nodeName s =? k) rows)
  = flat_map (fun d => if d_nodeName d =? k then [d_stepIndex d] else [])
             (map step_data rows).
Proof.
  induction rows as [|s rows IH]; simpl; [reflexivity|].
  destruct (nodeName s =? k); simpl; rewrite IH; reflexivity.
Qed.

Lemma rows_of_key (k k' : string) (cs : list value) :
  flat_map (fun d => if d_nodeName d =? k then [d_stepIndex d] else [])
           (map (row_of_call k') cs)
  = if k' =? k then map stored_index cs else [].
Proof.
  induction cs as [|c cs IH]; simpl; [destruct (k' =? k); reflexivity|].
  rewrite IH. destruct (k' =? k); reflexivity.
Qed.

Lemma rows_by_name (nodesObj : value) (rows : list Step) (k : string) :
  NoDup (Object_keys nodesObj) ->
  map step_data rows
  = flat_map (fun k' => map (row_of_call k') (calls_under nodesObj k'))
             (Object_keys nodesObj) ->
  map stepIndex (filter (fun s => nodeName s =? k) rows)
  = map stored_index (calls_under nodesObj k).
Proof.
  intros Hnd Hrows. rewrite filter_by_name, Hrows, flat_map_flat_map.
  rewrite (flat_map_ext _ (fun k' => if k' =? k
                                     then map stored_index (calls_under nodesObj k')
                                     else []))
    by (intros k'; apply rows_of_key).
  rewrite (flat_map_key (fun k' => map stored_index (calls_under nodesObj k')) k _ Hnd).
  destruct (existsb (String.eqb k) (Object_keys nodesObj)) eqn:Hk; [reflexivity|].
  rewrite (calls_under_not_key _ _ Hk). reflexivity.
Qed.

Lemma edges_drawn_length (es : list Edge) (rs : list Page.RFEdge) (i : nat) :
  edges_drawn i es rs -> List.length rs = List.length es.
Proof.
  revert rs i. induction es as [|e es IH]; intros [|r rs] i H; simpl in *;
    try contradiction; [reflexivity|].
  destruct H as [_ H]. rewrite (IH rs (S i) H). reflexivity.
Qed.

(** X22.  From the request to the page: after a request whose keys are
    pairwise distinct was accepted, a page that draws the graph shows one
    node, and one only, for each key that has at least one call, and no
    other; the label of a node other than [start] and [end] lists the
    [stepIndex] the store kept for each of its calls (the integer part of
    the number submitted) in the submitted order; and there is one edge
    for each submitted edge. *)
Theorem ingest_then_page :
  forall (req : value) (g : string) (st : Store)
         (ns : list Page.RFNode) (es : list Page.RFEdge),
    get_prop req "graphId" = Some (Some (VStr g)) ->
    NoDup (Object_keys (req_nodes req)) ->
    status (snd (POST_ingest req st)) = 200%Z ->
    Page.fetchGraphData (snd (GET_load (Some g) (fst (POST_ingest req st))))
    = Page.Layout ns es ->
    NoDup (map Page.n_id ns) /\
    (forall k, In k (map Page.n_id ns) <-> calls_under (req_nodes req) k <> []) /\
    Forall (fun n =>
              Page.n_label n
              = if Page.n_id n =? "start" then "START"
                else if Page.n_id n =? "end" then "END"
                else step_label (Page.n_id n)
                       (map stored_index (calls_under (req_nodes req) (Page.n_id n))))
           ns /\
    List.length es = List.length (edges_under (req_edges req)).
Proof.
  intros req g st ns es Hg Hnd Hok Hpage.
  destruct (POST_ingest_rows req g st Hg Hok) as [H1 [H2 _]].
  destruct (page_of_layout _ _ _ _ Hpage) as [[Hnodup [Hids Hdrawn]] Hedges].
  assert (Hrows : forall k,
             map stepIndex (filter (fun s => nodeName s =? k)
                                   (steps_of g (fst (POST_ingest req st))))
             = map stored_index (calls_under (req_nodes req) k)).
  { intros k. apply rows_by_name; assumption. }
  split; [exact Hnodup|]. split; [|split].
  - intros k. rewrite Hids. split.
    + intros [s [Hin Hname]] Hnil.
      assert (Hf : In s (filter (fun s => nodeName s =? k)
                                (steps_of g (fst (POST_ingest req st))))).
      { apply filter_In. split; [exact Hin|]. apply String.eqb_eq. exact Hname. }
      specialize (Hrows k). rewrite Hnil in Hrows. simpl in Hrows.
      apply map_eq_nil in Hrows. rewrite Hrows in Hf. exact Hf.
    + intros Hne.
      destruct (filter (fun s => nodeName s =? k)
                       (steps_of g (fst (POST_ingest req st)))) as [|s l] eqn:Hf.
      * specialize (Hrows k). rewrite Hf in Hrows. simpl in Hrows.
        symmetry in Hrows. apply map_eq_nil in Hrows. contradiction.
      * assert (Hin : In s (s :: l)) by (left; reflexivity).
        rewrite <- Hf in Hin. apply filter_In in Hin. destruct Hin as [Hin Hname].
        exists s. split; [exact Hin|]. apply String.eqb_eq. exact Hname.
  - eapply Forall_impl; [|exact Hdrawn]. simpl.
    intros n [_ [_ [Hlabel _]]]. rewrite Hlabel, Hrows. reflexivity.
  - rewrite (edges_drawn_length _ _ _ Hedges).
    rewrite <- (length_map edge_data), H2, length_map. reflexivity.
Qed.

Lemma ingest_then_page_witness :
  exists ns es,
    Page.fetchGraphData
      (snd (GET_load (Some "g1") (fst (POST_ingest req_fractional store_g1))))
    = Page.Layout ns es /\
    NoDup (map Page.n_id ns) /\
    (forall k, In k (map Page.n_id ns) <-> calls_under (req_nodes req_fractional) k <> []) /\
    Forall (fun n =>
              Page.n_label n
              = if Page.n_id n =? "start" then "START"
                else if Page.n_id n =? "end" then "END"
                else step_label (Page.n_id n)
                       (map stored_index
                            (calls_under (req_nodes req_fractional) (Page.n_id n))))
           ns /\
    List.length es = List.length (edges_under (req_edges req_fractional)).
Proof.
  eexists _, _. split; [vm_compute; reflexivity|].
  eapply (ingest_then_page req_fractional "g1" store_g1).
  - reflexivity.
  - vm_compute. repeat constructor; simpl; intuition discriminate.
  - reflexivity.
  - vm_compute. reflexivity.
Defined.

(** The labels of that page: the step indices 1.5 and 2.0 are shown as 1
    and 2. *)
Example page_fractional :
  match Page.fetchGraphData
          (snd (GET_load (Some "g1") (fst (POST_ingest req_fractional store_g1)))) with
  | Page.Layout ns es => map Page.n_label ns
  | _ => []
  end
  = [step_label "a" [1; 0]%Z; step_label "b" [2%Z]] /\
  map stored_index (calls_under (req_nodes req_fractional) "a") = [1; 0]%Z /\
  map stored_index (calls_under (req_nodes req_fractional) "b") = [2%Z].
Proof. vm_compute. repeat split; reflexivity. Qed.

(** X23.  [tryParseJson] gives back the object or array that
    [JSON.stringify] wrote, and [null] for the text of anything else (a
    number, a string, a boolean, [null]). *)
Theorem tryParseJson_stringify :
  forall (v : value),
    wf v ->
    Page.tryParseJson (Some (VStr (JSON.stringify v)))
    = match v with
      | VObj _ => Some v
      | VArr _ => Some v
      | _ => None
      end.
Proof.
  intros v Hwf. unfold Page.tryParseJson. rewrite (parse_stringify v Hwf).
  destruct v; reflexivity.
Qed.

Lemma tryParseJson_stringify_witness :
  Page.tryParseJson (Some (VStr (JSON.stringify req_example))) = Some req_example.
Proof.
  exact (tryParseJson_stringify req_example wf_req_example).
Defined.

(* ================================================================== *)
(** * Indented JSON text *)
(* ================================================================== *)

Section NumberBefore.
Variable r : string.
Hypothesis r_not_digit : head_is JSON.is_digit r = false.
Hypothesis r_no_fraction : JSON.scan_fraction r = Some ("", r).
Hypothesis r_no_exponent : JSON.scan_exponent r = Some ("", r).

Lemma span_digits_before (x ds x' : string) :
  JSON.span_digits x = (ds, x') ->
  JSON.span_digits (x ++ r) = (ds, x' ++ r).
Proof.
  revert ds x'. induction x as [|c x IH]; intros ds x'.
  - cbn [JSON.span_digits append]. intros [= <- <-].
    destruct r as [|c s]; [reflexivity|].
    cbn [JSON.span_digits head_is] in *. now rewrite r_not_digit.
  - cbn [JSON.span_digits append]. destruct (JSON.is_digit c).
    + destruct (JSON.span_digits x) as [d y] eqn:E. intros [= <- <-].
      now rewrite (IH d y eq_refl).
    + intros [= <- <-]. reflexivity.
Qed.

Lemma scan_fraction_before (x fr x' : string) :
  JSON.scan_fraction x = Some (fr, x') ->
  JSON.scan_fraction (x ++ r) = Some (fr, x' ++ r).
Proof.
  intros H. destruct x as [|c x].
  - cbn [JSON.scan_fraction] in H. injection H as <- <-.
    cbn [append]. exact r_no_fraction.
  - cbn [JSON.scan_fraction append] in *. destruct (Ascii.eqb c ".").
    + destruct (JSON.span_digits x) as [ds y] eqn:E.
      rewrite (span_digits_before x ds y E).
      destruct ds; [discriminate|]. now injection H as <- <-.
    + now injection H as <- <-.
Qed.

Lemma scan_exponent_before (x ex x' : string) :
  JSON.scan_exponent x = Some (ex, x') ->
  JSON.scan_exponent (x ++ r) = Some (ex, x' ++ r).
Proof.
  intros H. destruct x as [|c x].
  - cbn [JSON.scan_exponent] in H. injection H as <- <-.
    cbn [append]. exact r_no_exponent.
  - cbn [JSON.scan_exponent append] in *.
    destruct (Ascii.eqb c "e" || Ascii.eqb c "E")%bool; [|now injection H as <- <-].
    destruct x as [|g x]; [discriminate|]. cbn [append].
    destruct (Ascii.eqb g "+" || Ascii.eqb g "-")%bool.
    + destruct (JSON.span_digits x) as [ds y] eqn:E.
      rewrite (span_digits_before x ds y E).
      destruct ds; [discriminate|]. now injection H as <- <-.
    + destruct (JSON.span_digits (String g x)) as [ds y] eqn:E.
      change (String g (x ++ r)) with (String g x ++ r).
      rewrite (span_digits_before (String g x) ds y E).
      destruct ds; [discriminate|]. now injection H as <- <-.
Qed.

Lemma parse_unsigned_before (minus : string) (sign : Z) (x : string) (v : value)
  (x' : string) :
  JSON.parse_unsigned minus sign x = Some (v, x') ->
  JSON.parse_unsigned minus sign (x ++ r) = Some (v, x' ++ r).
Proof.
  unfold JSON.parse_unsigned. intros H.
  destruct (JSON.span_digits x) as [ds y] eqn:E.
  rewrite (span_digits_before x ds y E).
  destruct (NilZero.uint_of_string ds) as [d|]; [|discriminate].
  destruct (Decimal.uint_beq (Decimal.unorm d) d); [|discriminate].
  destruct (JSON.scan_fraction y) as [[fr y1]|] eqn:E1; [|discriminate].
  rewrite (scan_fraction_before y fr y1 E1).
  destruct (JSON.scan_exponent y1) as [[ex y2]|] eqn:E2; [|discriminate].
  rewrite (scan_exponent_before y1 ex y2 E2).
  destruct (fr ++ ex); now injection H as <- <-.
Qed.

Lemma parse_number_before (x : string) (v : value) (x' : string) :
  JSON.parse_number x = Some (v, x') ->
  JSON.parse_number (x ++ r) = Some (v, x' ++ r).
Proof.
  destruct x as [|c x]; [discriminate|]. cbn [JSON.parse_number append].
  destruct (Ascii.eqb c "-"); intros H.
  - now apply parse_unsigned_before.
  - change (String c (x ++ r)) with (String c x ++ r). now apply parse_unsigned_before.
Qed.

End NumberBefore.

Lemma follows_stops (r : string) :
  follows r = true ->
  head_is JSON.is_digit r = false /\
  JSON.scan_fraction r = Some ("", r) /\
  JSON.scan_exponent r = Some ("", r).
Proof.
  destruct r as [|c r]; [repeat split; reflexivity|]. simpl.
  destruct c as [[] [] [] [] [] [] [] []]; simpl; intros H;
    try discriminate H; repeat split; reflexivity.
Qed.

Lemma parse_number_follows (x : string) (v : value) (r : string) :
  JSON.parse_number x = Some (v, "") ->
  follows r = true ->
  JSON.parse_number (x ++ r) = Some (v, r).
Proof.
  intros H Hr. destruct (follows_stops r Hr) as [H1 [H2 H3]].
  apply (parse_number_before r H1 H2 H3 x v "" H).
Qed.

Lemma parse_number_alone (z : Z) :
  JSON.parse_number (JSON.string_of_Z z) = Some (VNum z, "").
Proof.
  pose proof (parse_number_string_of_Z z "" eq_refl) as H.
  rewrite append_empty_r in H. exact H.
Qed.

Lemma skip_ws_blank (p s : string) :
  blank p = true -> JSON.skip_ws (p ++ s) = JSON.skip_ws s.
Proof.
  induction p as [|c p IH]; [reflexivity|]. cbn [blank append JSON.skip_ws].
  intros H. apply andb_true_iff in H. destruct H as [Hc Hp]. rewrite Hc. exact (IH Hp).
Qed.

Lemma parse_value_blank (fuel : nat) (p s : string) :
  blank p = true -> JSON.parse_value fuel (p ++ s) = JSON.parse_value fuel s.
Proof.
  intros H. destruct fuel as [|fuel]; [reflexivity|].
  cbn [JSON.parse_value]. rewrite (skip_ws_blank p s H). reflexivity.
Qed.

Lemma blank_append (p q : string) :
  blank p = true -> blank q = true -> blank (p ++ q) = true.
Proof.
  induction p as [|c p IH]; [trivial|]. cbn [blank append]. intros H Hq.
  apply andb_true_iff in H. destruct H as [Hc Hp]. rewrite Hc. exact (IH Hp Hq).
Qed.

Lemma scalar_indented (fuel : nat) (v : value) (r : string) :
  wf v ->
  match v with VArr _ => False | VObj _ => False | _ => True end ->
  follows r = true ->
  JSON.parse_value (S fuel) (JSON.stringify v ++ r) = Some (v, r).
Proof.
  intros Hwf Hv Hr. destruct v as [|b|n|d|s|l|fs]; try contradiction.
  - apply parse_value_literals.
  - destruct b; apply parse_value_literals.
  - rewrite parse_value_number by apply head_is_append, string_of_Z_head.
    apply parse_number_follows; [apply parse_number_alone | exact Hr].
  - cbn [wf] in Hwf. cbn [JSON.stringify].
    rewrite parse_value_number by (eapply head_is_append, parse_number_head, Hwf).
    apply parse_number_follows; assumption.
  - cbn [JSON.stringify]. rewrite quote_append, parse_value_string.
    now rewrite parse_chars_escape, decode_items_of.
Qed.

Lemma indented_head (indent : string) (v : value) :
  wf v -> head_is starter (Page.stringify_indented indent v) = true.
Proof.
  intros Hwf. destruct v as [|b|n|d|s|[|x l]|[|kv fs]]; try reflexivity;
    apply (stringify_head _ Hwf).
Qed.

Lemma skip_to_starter (p a r : string) :
  blank p = true -> head_is starter a = true ->
  exists c s, JSON.skip_ws (p ++ a ++ r) = String c s /\
              Ascii.eqb c "]" = false /\ Ascii.eqb c "}" = false.
Proof.
  intros Hp Ha. rewrite (skip_ws_blank p _ Hp).
  destruct (head_starter_skip a r Ha) as (c & s & _ & H & H1 & H2).
  exists c, s. auto.
Qed.

Section IndentedLoops.
Variable pv : string -> option (value * string).
Hypothesis pv_blank : forall p s, blank p = true -> pv (p ++ s) = pv s.
Variables inner indent : string.
Hypothesis inner_blank : blank inner = true.
Hypothesis indent_blank : blank indent = true.

Lemma pv_space (s : string) : pv (String " " s) = pv s.
Proof. exact (pv_blank " " s eq_refl). Qed.

Lemma parse_elements_blank (n : nat) (p s : string) :
  blank p = true -> JSON.parse_elements pv n (p ++ s) = JSON.parse_elements pv n s.
Proof.
  intros H. destruct n as [|n]; [reflexivity|].
  cbn [JSON.parse_elements]. rewrite (pv_blank p s H). reflexivity.
Qed.

Lemma parse_members_blank (n : nat) (p s : string) :
  blank p = true -> JSON.parse_members pv n (p ++ s) = JSON.parse_members pv n s.
Proof.
  intros H. destruct n as [|n]; [reflexivity|].
  cbn [JSON.parse_members]. rewrite (skip_ws_blank p s H). reflexivity.
Qed.

Lemma skip_to_closing (c : ascii) (r : string) :
  JSON.is_ws c = false ->
  follows (Page.newline ++ indent ++ String c r) = true /\
  JSON.skip_ws (Page.newline ++ indent ++ String c r) = String c r.
Proof.
  intros Hc. split; [reflexivity|].
  rewrite (skip_ws_blank Page.newline _ eq_refl), (skip_ws_blank indent _ indent_blank).
  cbn [JSON.skip_ws]. rewrite Hc. reflexivity.
Qed.

Lemma parse_elements_indented :
  forall (l : list value) (x : value) (n : nat) (r : string),
    List.length (x :: l) <= n ->
    Forall (reads_indented pv inner) (x :: l) ->
    JSON.parse_elements pv n
      (Page.join_with ("," ++ Page.newline ++ inner)
         (map (Page.stringify_indented inner) (x :: l))
       ++ Page.newline ++ indent ++ String "]" r)
    = Some (x :: l, r).
Proof.
  induction l as [|y l IH]; intros x n r Hn Hall.
  - destruct n as [|n]; [simpl in Hn; lia|].
    inversion Hall as [|? ? Hx _]; subst.
    destruct (skip_to_closing "]" r eq_refl) as [Hf Hs].
    cbn [map Page.join_with JSON.parse_elements].
    rewrite (Hx _ Hf), Hs. reflexivity.
  - destruct n as [|n]; [simpl in Hn; lia|].
    inversion Hall as [|? ? Hx Hl]; subst.
    change (Page.join_with ("," ++ Page.newline ++ inner)
              (map (Page.stringify_indented inner) (x :: y :: l)))
      with (Page.stringify_indented inner x
            ++ ("," ++ Page.newline ++ inner)
            ++ Page.join_with ("," ++ Page.newline ++ inner)
                 (map (Page.stringify_indented inner) (y :: l))).
    rewrite !append_assoc.
    change ("," ++ Page.newline ++ ?s) with (String "," (Page.newline ++ s)).
    cbn [JSON.parse_elements].
    rewrite (Hx (String "," _)) by reflexivity.
    cbn [JSON.skip_ws]. change (JSON.is_ws ",") with false. cbv iota.
    change (Ascii.eqb "," ",") with true. cbv iota.
    rewrite (parse_elements_blank n Page.newline _ eq_refl).
    rewrite (parse_elements_blank n inner _ inner_blank).
    rewrite IH; [reflexivity | simpl in *; lia | assumption].
Qed.

Lemma parse_members_indented :
  forall (fs : list (string * value)) (kv : string * value) (n : nat) (r : string),
    List.length (kv :: fs) <= n ->
    Forall (fun kv => reads_indented pv inner (snd kv)) (kv :: fs) ->
    JSON.parse_members pv n
      (Page.join_with ("," ++ Page.newline ++ inner)
         (map (member_indented inner) (kv :: fs))
       ++ Page.newline ++ indent ++ String "}" r)
    = Some (kv :: fs, r).
Proof.
  induction fs as [|kv' fs IH]; intros [k v] n r Hn Hall.
  - destruct n as [|n]; [simpl in Hn; lia|].
    inversion Hall as [|? ? Hx _]; subst. cbn [snd] in Hx.
    destruct (skip_to_closing "}" r eq_refl) as [Hf Hs].
    cbn [map Page.join_with]. unfold member_indented. cbn [fst snd].
    rewrite !append_assoc, quote_append. cbn [append].
    cbn [JSON.parse_members JSON.skip_ws].
    change (JSON.is_ws JSON.dquote) with false. cbv iota.
    change (Ascii.eqb JSON.dquote JSON.dquote) with true. cbv iota.
    rewrite parse_chars_escape, decode_items_of.
    cbn [JSON.skip_ws]. change (JSON.is_ws ":") with false. cbv iota.
    change (Ascii.eqb ":" ":") with true. cbv iota.
    rewrite pv_space.
    rewrite (Hx _ Hf), Hs. reflexivity.
  - destruct n as [|n]; [simpl in Hn; lia|].
    inversion Hall as [|? ? Hx Hl]; subst. cbn [snd] in Hx.
    change (Page.join_with ("," ++ Page.newline ++ inner)
              (map (member_indented inner) ((k, v) :: kv' :: fs)))
      with (member_indented inner (k, v)
            ++ ("," ++ Page.newline ++ inner)
            ++ Page.join_with ("," ++ Page.newline ++ inner)
                 (map (member_indented inner) (kv' :: fs))).
    unfold member_indented at 1. cbn [fst snd].
    rewrite !append_assoc, quote_append. cbn [append].
    cbn [JSON.parse_members JSON.skip_ws].
    change (JSON.is_ws JSON.dquote) with false. cbv iota.
    change (Ascii.eqb JSON.dquote JSON.dquote) with true. cbv iota.
    rewrite parse_chars_escape, decode_items_of.
    cbn [JSON.skip_ws]. change (JSON.is_ws ":") with false. cbv iota.
    change (Ascii.eqb ":" ":") with true. cbv iota.
    rewrite pv_space.
    rewrite (Hx (String "," _)) by reflexivity.
    cbn [JSON.skip_ws]. change (JSON.is_ws ",") with false. cbv iota.
    change (Ascii.eqb "," ",") with true. cbv iota.
    rewrite (parse_members_blank n Page.newline _ eq_refl).
    rewrite (parse_members_blank n inner _ inner_blank).
    rewrite IH; [reflexivity | simpl in *; lia | assumption].
Qed.

End IndentedLoops.

Lemma join_with_head {A} (sep : string) (f : A -> string) (x : A) (l : list A) :
  head_is starter (f x) = true ->
  head_is starter (Page.join_with sep (map f (x :: l))) = true.
Proof.
  intros H. destruct l as [|y l]; [exact H|].
  change (Page.join_with sep (map f (x :: y :: l)))
    with (f x ++ sep ++ Page.join_with sep (map f (y :: l))).
  now apply head_is_append.
Qed.

Lemma skip_to_first (p a r : string) :
  blank p = true -> head_is starter a = true ->
  exists c s, JSON.skip_ws (Page.newline ++ p ++ a ++ r) = String c s /\
              Ascii.eqb c "]" = false /\ Ascii.eqb c "}" = false.
Proof.
  intros Hp Ha.
  rewrite (skip_ws_blank Page.newline _ eq_refl), (skip_ws_blank p _ Hp).
  destruct (head_starter_skip a r Ha) as (c & s & _ & H & H1 & H2).
  exists c, s. auto.
Qed.

Lemma blank_inner (indent : string) :
  blank indent = true -> blank (indent ++ "  ") = true.
Proof. intros H. apply blank_append; [exact H|reflexivity]. Qed.

Lemma parse_value_indented (v : value) :
  wf v ->
  forall (fuel : nat) (indent r : string),
    size v <= fuel -> blank indent = true -> follows r = true ->
    JSON.parse_value fuel (Page.stringify_indented indent v ++ r) = Some (v, r).
Proof.
  induction v as [|b|n|d|s|l IH|fs IH] using value_rect_nested;
    intros Hwf fuel indent r Hfuel Hi Hr;
    (destruct fuel as [|fuel]; [pose proof (size_pos VNull); simpl in Hfuel; lia|]).
  - apply (scalar_indented fuel VNull r Hwf I Hr).
  - apply (scalar_indented fuel (VBool b) r Hwf I Hr).
  - apply (scalar_indented fuel (VNum n) r Hwf I Hr).
  - apply (scalar_indented fuel (VDec d) r Hwf I Hr).
  - apply (scalar_indented fuel (VStr s) r Hwf I Hr).
  - destruct l as [|x l]; [reflexivity|].
    cbn [Page.stringify_indented].
    pose proof (blank_inner indent Hi) as Hin.
    set (inner := indent ++ "  ") in *. rewrite !append_assoc.
    change ("[" ++ ?t) with (String "[" t). change ("]" ++ r) with (String "]" r).
    rewrite parse_value_array.
    destruct (skip_to_first inner
                (Page.join_with ("," ++ Page.newline ++ inner)
                   (map (Page.stringify_indented inner) (x :: l)))
                (Page.newline ++ indent ++ String "]" r))
      as (c & s & -> & Hc & _).
    { exact Hin. }
    { apply join_with_head, indented_head.
      apply wf_VArr in Hwf. now inversion Hwf. }
    rewrite Hc.
    rewrite (parse_elements_blank _ (parse_value_blank fuel) fuel Page.newline _ eq_refl).
    rewrite (parse_elements_blank _ (parse_value_blank fuel) fuel inner _ Hin).
    rewrite (parse_elements_indented _ (parse_value_blank fuel) inner indent Hin Hi);
      [reflexivity | |].
    + pose proof (proj1 (size_items (x :: l))).
      change (size (VArr (x :: l)))
        with (S (fold_right (fun x n => size x + n) 0 (x :: l))) in Hfuel. lia.
    + apply wf_VArr in Hwf.
      pose proof (proj2 (size_items (x :: l))) as Hs.
      change (size (VArr (x :: l)))
        with (S (fold_right (fun x n => size x + n) 0 (x :: l))) in Hfuel.
      rewrite Forall_forall in IH, Hwf, Hs. apply Forall_forall.
      intros y Hy r' Hr'.
      apply IH; auto. specialize (Hs y Hy). lia.
  - destruct fs as [|kv fs]; [reflexivity|].
    cbn [Page.stringify_indented].
    change (fun kv0 : string * value =>
              JSON.quote (fst kv0) ++ ": "
                ++ Page.stringify_indented (indent ++ "  ") (snd kv0))
      with (member_indented (indent ++ "  ")).
    pose proof (blank_inner indent Hi) as Hin.
    set (inner := indent ++ "  ") in *. rewrite !append_assoc.
    change ("{" ++ ?t) with (String "{" t). change ("}" ++ r) with (String "}" r).
    rewrite parse_value_object.
    apply wf_VObj in Hwf. destruct Hwf as [Hnd Hwf].
    destruct (skip_to_first inner
                (Page.join_with ("," ++ Page.newline ++ inner)
                   (map (member_indented inner) (kv :: fs)))
                (Page.newline ++ indent ++ String "}" r))
      as (c & s & -> & _ & Hc).
    { exact Hin. }
    { apply (join_with_head _ (member_indented inner)). reflexivity. }
    rewrite Hc.
    rewrite (parse_members_blank (JSON.parse_value fuel) fuel Page.newline _ eq_refl).
    rewrite (parse_members_blank (JSON.parse_value fuel) fuel inner _ Hin).
    rewrite (parse_members_indented _ (parse_value_blank fuel) inner indent Hin Hi).
    + now rewrite build_object_nodup.
    + pose proof (proj1 (size_fields (kv :: fs))).
      change (size (VObj (kv :: fs)))
        with (S (fold_right (fun kx n => size (snd kx) + n) 0 (kv :: fs))) in Hfuel. lia.
    + pose proof (proj2 (size_fields (kv :: fs))) as Hs.
      change (size (VObj (kv :: fs)))
        with (S (fold_right (fun kx n => size (snd kx) + n) 0 (kv :: fs))) in Hfuel.
      rewrite Forall_forall in IH, Hwf, Hs. apply Forall_forall.
      intros y Hy r' Hr'.
      apply IH; auto. specialize (Hs y Hy). lia.
Qed.

(** [JSON.parse(JSON.stringify(v, null, 2))] is [v]. *)
Lemma parse_indented (v : value) :
  wf v -> JSON.parse (Page.stringify_indented "" v) = Some v.
Proof.
  intros Hwf. unfold JSON.parse.
  pose proof (parse_value_indented v Hwf
                (size v + S (String.length (Page.stringify_indented "" v))) "" ""
                (Nat.le_add_r _ _) eq_refl eq_refl) as H.
  rewrite append_empty_r in H.
  rewrite <- (parse_fuel_adequate _ (size v + S (String.length (Page.stringify_indented "" v))))
    by lia.
  rewrite H. reflexivity.
Qed.

(** X24.  What [formatIfJson] shows for a value that is not a string
    loses nothing: it is text that [JSON.parse] reads back as that very
    value. *)
Theorem formatIfJson_lossless :
  forall (v : value),
    wf v ->
    (forall s, v <> VStr s) ->
    exists text,
      Page.formatIfJson (Some v) = Some text /\ JSON.parse text = Some v.
Proof.
  intros v Hwf Hs. exists (Page.stringify_indented "" v).
  split; [|apply parse_indented, Hwf].
  destruct v; try reflexivity. exfalso. eapply Hs. reflexivity.
Qed.

Lemma formatIfJson_lossless_witness :
  exists text,
    Page.formatIfJson (Some req_example) = Some text /\
    JSON.parse text = Some req_example.
Proof.
  apply (formatIfJson_lossless req_example wf_req_example). intros s H. discriminate H.
Defined.



(* ================================================================== *)
(** * The drawer *)
(* ================================================================== *)

Lemma stepIndexes_some (steps : list value) :
  Forall (fun c => c <> VNull) steps ->
  exists ixs, Page.sequence (map (fun step => get_prop step "stepIndex") steps) = Some ixs.
Proof.
  induction 1 as [|c steps Hc _ [ixs IH]]; simpl.
  - exists []. reflexivity.
  - rewrite IH. destruct c; try contradiction; eexists; reflexivity.
Qed.

Lemma Drawer_shows (steps : list value) (i : nat) (c : value) :
  Forall (fun c => c <> VNull) steps ->
  nth_error steps i = Some c ->
  exists ixs input output, Page.Drawer true steps i = Return (Page.Shown ixs input output).
Proof.
  intros Hs Hi. unfold Page.Drawer. simpl negb. cbv iota.
  destruct steps as [|x steps]; [destruct i; discriminate Hi|].
  rewrite Hi. destruct (stepIndexes_some _ Hs) as [ixs ->].
  assert (Hc : c <> VNull).
  { rewrite Forall_forall in Hs. apply Hs. eapply nth_error_In, Hi. }
  destruct c; try contradiction; eexists _, _, _; reflexivity.
Qed.

(** X26.  The drawer throws exactly when it is open on a non-empty list
    of steps and the selected index is not an index of that list; the
    steps being objects, as Load returns them. *)
Theorem drawer_throws_iff :
  forall (open : bool) (steps : list value) (i : nat),
    Forall (fun c => c <> VNull) steps ->
    (Page.Drawer open steps i = Throw TypeError <->
     open = true /\ steps <> [] /\ List.length steps <= i).
Proof.
  intros open steps i Hs. split.
  - intros H. destruct open; [|discriminate H]. split; [reflexivity|].
    destruct steps as [|x steps]; [discriminate H|]. split; [discriminate|].
    destruct (nth_error (x :: steps) i) as [c|] eqn:Hi.
    + destruct (Drawer_shows _ _ _ Hs Hi) as (ixs & a & b & Hd). congruence.
    + apply nth_error_None. exact Hi.
  - intros [-> [Hne Hlen]]. unfold Page.Drawer. simpl negb. cbv iota.
    destruct steps as [|x steps]; [contradiction|].
    apply nth_error_None in Hlen. rewrite Hlen. reflexivity.
Qed.

Lemma drawer_throws_iff_witness :
  Page.Drawer true [VObj [("stepIndex", VNum 0)]] 1 = Throw TypeError <->
  true = true /\ [VObj [("stepIndex", VNum 0)]] <> [] /\
  List.length [VObj [("stepIndex", VNum 0)]] <= 1.
Proof.
  apply drawer_throws_iff. repeat constructor. discriminate.
Defined.

Lemma stale_selection (a b : list value) (i : nat) (na nb : Page.RFNode) :
  Page.n_allSteps na = a -> Page.n_allSteps nb = b ->
  Forall (fun c => c <> VNull) a ->
  i < List.length a -> b <> [] -> List.length b <= i ->
  exists final,
    Page.run Page.closed [Page.NodeClick na; Page.Select i; Page.Close; Page.NodeClick nb]
    = Some final /\
    Page.render final = Throw TypeError.
Proof.
  intros Ha Hb Hs Hi Hne Hlen.
  assert (H0 : exists c, nth_error a 0 = Some c).
  { destruct a as [|c a]; [simpl in Hi; lia|]. exists c. reflexivity. }
  destruct H0 as [c0 H0].
  destruct (nth_error a i) as [ci|] eqn:Hci;
    [|apply nth_error_None in Hci; lia].
  destruct (Drawer_shows a 0 c0 Hs H0) as (x0 & y0 & z0 & Hd0).
  destruct (Drawer_shows a i ci Hs Hci) as (xi & yi & zi & Hdi).
  exists (Page.mkDrawerState true b i).
  unfold Page.run, Page.handle, Page.render, Page.closed. simpl.
  rewrite Ha, Hb, Hd0. apply Nat.ltb_lt in Hi. rewrite Hi. simpl.
  rewrite Hdi. simpl. split; [reflexivity|].
  unfold Page.Drawer. simpl. destruct b as [|x b]; [contradiction|].
  apply nth_error_None in Hlen. rewrite Hlen. reflexivity.
Qed.

Lemma calls_not_null (cs : list value) (rows : list Step) :
  map Some cs = map call_of_step rows -> Forall (fun c => c <> VNull) cs.
Proof.
  revert rows. induction cs as [|c cs IH]; intros [|s rows] H; try discriminate H;
    [constructor|]. simpl in H. injection H as Hc Hcs.
  constructor; [|eapply IH, Hcs].
  unfold call_of_step in Hc.
  destruct (parse_stored (inputJson s)), (parse_stored (outputJson s));
    try discriminate Hc. injection Hc as ->. discriminate.
Qed.

(** X27.  A stale selection makes the drawer throw: in a drawn graph
    with two nodes of which the first has more steps than the second, the
    user clicks the first node, selects in the drawer a step beyond the
    number of steps of the second node, closes the drawer and clicks the
    second node; the drawer, which kept the selected index, then reads a
    step that is not there and throws. *)
Theorem drawer_stale_selection :
  forall (g : string) (st : Store) (ns : list Page.RFNode) (es : list Page.RFEdge)
         (a b : Page.RFNode),
    Page.fetchGraphData (snd (GET_load (Some g) st)) = Page.Layout ns es ->
    In a ns -> In b ns ->
    List.length (Page.n_allSteps b) < List.length (Page.n_allSteps a) ->
    exists final,
      Page.run Page.closed
        [Page.NodeClick a; Page.Select (List.length (Page.n_allSteps b));
         Page.Close; Page.NodeClick b]
      = Some final /\
      Page.render final = Throw TypeError.
Proof.
  intros g st ns es a b Hpage Ha Hb Hlen.
  destruct (page_of_layout _ _ _ _ Hpage) as [[_ [Hids Hdrawn]] _].
  rewrite Forall_forall in Hdrawn.
  destruct (Hdrawn a Ha) as [_ [Hsa _]]. destruct (Hdrawn b Hb) as [_ [Hsb _]].
  apply (stale_selection (Page.n_allSteps a) (Page.n_allSteps b) _ a b eq_refl eq_refl).
  - eapply calls_not_null, Hsa.
  - exact Hlen.
  - intros Hnil.
    assert (Hin : In (Page.n_id b) (map Page.n_id ns)) by (apply in_map, Hb).
    apply Hids in Hin. destruct Hin as [s [Hs Hname]].
    assert (Hf : In s (filter (fun s => nodeName s =? Page.n_id b) (steps_of g st))).
    { apply filter_In. split; [exact Hs|]. apply String.eqb_eq. exact Hname. }
    rewrite Hnil in Hsb. simpl in Hsb. symmetry in Hsb. apply map_eq_nil in Hsb.
    rewrite Hsb in Hf. exact Hf.
  - apply Nat.le_refl.
Qed.

Lemma drawer_stale_selection_witness :
  exists ns es a b,
    Page.fetchGraphData (snd (GET_load (Some "g1") store_two_nodes)) = Page.Layout ns es /\
    In a ns /\ In b ns /\
    exists final,
      Page.run Page.closed
        [Page.NodeClick a; Page.Select (List.length (Page.n_allSteps b));
         Page.Close; Page.NodeClick b]
      = Some final /\
      Page.render final = Throw TypeError.
Proof.
  eexists _, _, _, _. split; [vm_compute; reflexivity|].
  split; [left; reflexivity|]. split; [right; left; reflexivity|].
  eapply (drawer_stale_selection "g1" store_two_nodes).
  - vm_compute. reflexivity.
  - left. reflexivity.
  - right. left. reflexivity.
  - simpl. lia.
Defined.

(* ================================================================== *)
(** * Snapshots *)
(* ================================================================== *)

(** X28.  What Load returns after an accepted request depends on the
    request alone: whatever two stores held before, once the same request
    was accepted on each, Load answers the same for its graph. *)
Theorem load_depends_on_request :
  forall (req : value) (g : string) (st1 st2 : Store),
    get_prop req "graphId" = Some (Some (VStr g)) ->
    status (snd (POST_ingest req st1)) = 200%Z ->
    status (snd (POST_ingest req st2)) = 200%Z ->
    snd (GET_load (Some g) (fst (POST_ingest req st1)))
    = snd (GET_load (Some g) (fst (POST_ingest req st2))).
Proof.
  intros req g st1 st2 Hg H1 H2.
  destruct (POST_ingest_rows req g st1 Hg H1) as [Hs1 [He1 _]].
  destruct (POST_ingest_rows req g st2 Hg H2) as [Hs2 [He2 _]].
  destruct (String.eqb_spec g "") as [->|Hne]; [reflexivity|].
  rewrite !GET_load_eq by exact Hne. cbn [snd].
  rewrite (load_response_data (steps_of g (fst (POST_ingest req st1)))).
  rewrite (load_response_data (steps_of g (fst (POST_ingest req st2)))).
  rewrite Hs1, Hs2, He1, He2. reflexivity.
Qed.

Lemma load_depends_on_request_witness :
  snd (GET_load (Some "g1") (fst (POST_ingest req_example store_g1)))
  = snd (GET_load (Some "g1") (fst (POST_ingest req_example store_two_nodes))).
Proof.
  apply (load_depends_on_request req_example "g1" store_g1 store_two_nodes);
    reflexivity.
Defined.

Lemma edges_drawn_as_submitted (eds : list value) (rows : list Edge)
  (rs : list Page.RFEdge) (i : nat) :
  map edge_data rows = map row_of_edge eds ->
  edges_drawn i rows rs ->
  Forall2 edge_as_submitted eds rs.
Proof.
  revert rows rs i. induction eds as [|ed eds IH]; intros [|e rows] [|r rs] i Hm Hd;
    simpl in *; try discriminate Hm; try contradiction; [constructor|].
  unfold edge_data at 1, row_of_edge at 1 in Hm.
  injection Hm as Hs Ht Hc _ Hm. destruct Hd as [Hr Hd].
  constructor; [|eapply IH; eassumption].
  destruct Hr as [_ [Hsrc [Htgt [Hlabel [Hstroke _]]]]].
  unfold edge_as_submitted. rewrite Hsrc, Htgt, Hlabel, Hstroke, Hs, Ht.
  unfold ends. rewrite Hc.
  destruct (assoc "conditionKey" (own_entries ed)) as [[| | | |k| |]|];
    repeat split; reflexivity.
Qed.

(** X29.  From the request to the edges on the page: after a request was
    accepted, a page that draws the graph shows the submitted edges in
    their order, each from its [source] to its [target]; an edge submitted
    with the condition key [end] is red and dashed and every other edge
    black and solid; an edge submitted with a non-empty condition key is
    labelled with it, and no other edge has a label. *)
Theorem ingest_then_page_edges :
  forall (req : value) (g : string) (st : Store)
         (ns : list Page.RFNode) (es : list Page.RFEdge),
    get_prop req "graphId" = Some (Some (VStr g)) ->
    status (snd (POST_ingest req st)) = 200%Z ->
    Page.fetchGraphData (snd (GET_load (Some g) (fst (POST_ingest req st))))
    = Page.Layout ns es ->
    Forall2 edge_as_submitted (edges_under (req_edges req)) es.
Proof.
  intros req g st ns es Hg Hok Hpage.
  destruct (POST_ingest_rows req g st Hg Hok) as [_ [He _]].
  destruct (page_of_layout _ _ _ _ Hpage) as [_ Hedges].
  eapply edges_drawn_as_submitted; eassumption.
Qed.

Lemma ingest_then_page_edges_witness :
  exists ns es,
    Page.fetchGraphData
      (snd (GET_load (Some "g1") (fst (POST_ingest req_earlier store_g1))))
    = Page.Layout ns es /\
    Forall2 edge_as_submitted (edges_under (req_edges req_earlier)) es.
Proof.
  eexists _, _. split; [vm_compute; reflexivity|].
  eapply (ingest_then_page_edges req_earlier "g1" store_g1).
  - reflexivity.
  - reflexivity.
  - vm_compute. reflexivity.
Defined.
